(** * Query execution gateway of agent-mark-backend: a shallow embedding

    The development follows the JavaScript sources:
    - [services/trinoService.js]: [validateReadOnly], [getClient],
      [parseCatalogs], [executeQuery], [getTables], [getTableSchema],
      [getFullSchema], [refreshSchema], [clearCache];
    - [services/cacheService.js]: [generateKey], [get], [set], [has], [clear];
    - [controller/chatController.js]: the forecast merge and the
      conversation history of [exports.chat], the name check of
      [exports.getTableSchema], [exports.clearHistory], and the
      linear-regression helper [calculateForecast];
    - [services/openaiService.js]: the column guard of [generateForecast].

    JavaScript strings are modelled by [string]: a sequence of code units
    in the range 0..255 (the Latin-1 part of UTF-16), which contains every
    character the sources test for.  Numbers that the code does arithmetic
    on are binary64 floats ([PrimFloat.float]); clock readings and array
    indices are integers. *)

From Stdlib Require Import ZArith NArith List String Ascii Bool Lia PrimFloat.
From stdpp Require Import gmap strings.

Import ListNotations.
Local Open Scope bool_scope.

(* ===================================================================== *)
(** * JavaScript strings and completions *)
(* ===================================================================== *)

Module JS.

(** The code unit of a character. *)
Definition codeUnit (c : ascii) : N := N_of_ascii c.

(** ECMAScript [WhiteSpace] and [LineTerminator] code points below 256:
    TAB, LF, VT, FF, CR, SP and NBSP.  This is the set that [\s] matches
    and that [String.prototype.trim] strips. *)
Definition isWhiteSpace (c : ascii) : bool :=
  let n := codeUnit c in
  ((9 <=? n) && (n <=? 13) || (n =? 32) || (n =? 160))%N.

(** [toLowerCase] on one code unit: A-Z, and the Latin-1 capitals
    U+00C0..U+00DE except the multiplication sign U+00D7. *)
Definition lowerChar (c : ascii) : ascii :=
  let n := codeUnit c in
  if ((65 <=? n) && (n <=? 90) || (192 <=? n) && (n <=? 222) && negb (n =? 215))%N
  then ascii_of_N (n + 32) else c.

Fixpoint toLowerCase (s : string) : string :=
  match s with
  | EmptyString => EmptyString
  | String c s' => String (lowerChar c) (toLowerCase s')
  end.

Fixpoint trimStart (s : string) : string :=
  match s with
  | EmptyString => EmptyString
  | String c s' => if isWhiteSpace c then trimStart s' else s
  end.

(** [trimEnd] drops the maximal whitespace suffix: a whitespace character
    is kept only when something non-blank follows it. *)
Fixpoint trimEnd (s : string) : string :=
  match s with
  | EmptyString => EmptyString
  | String c s' =>
      match trimEnd s' with
      | EmptyString => if isWhiteSpace c then EmptyString else String c EmptyString
      | t => String c t
      end
  end.

Definition trim (s : string) : string := trimEnd (trimStart s).

Fixpoint startsWith (p s : string) : bool :=
  match p, s with
  | EmptyString, _ => true
  | String a p', String b s' => Ascii.eqb a b && startsWith p' s'
  | String _ _, EmptyString => false
  end.

(** [s.includes(sub)]: [sub] occurs somewhere in [s]. *)
Fixpoint includes (sub s : string) : bool :=
  startsWith sub s ||
  match s with
  | EmptyString => false
  | String _ s' => includes sub s'
  end.

(** Strings made of whitespace only. *)
Fixpoint allWhiteSpace (s : string) : bool :=
  match s with
  | EmptyString => true
  | String c s' => isWhiteSpace c && allWhiteSpace s'
  end.

(** Removing every whitespace character, for comparing two texts up to
    whitespace. *)
Fixpoint stripSpace (s : string) : string :=
  match s with
  | EmptyString => EmptyString
  | String c s' => if isWhiteSpace c then stripSpace s' else String c (stripSpace s')
  end.

(** [c.repeat(n)] for a one-character string [c]. *)
Fixpoint repeatChar (c : ascii) (n : nat) : string :=
  match n with
  | O => EmptyString
  | S n' => String c (repeatChar c n')
  end.

(** Template literals and [+] on strings. *)
Definition concat3 (a b c : string) : string :=
  String.append a (String.append b c).

(** A call either returns a value or throws an error with a message. *)
Inductive completion (A : Type) : Type :=
| Return (a : A)
| Throw (msg : string).
Arguments Return {A} a.
Arguments Throw {A} msg.

End JS.

(* ===================================================================== *)
(** * Statement validator ([TrinoService.validateReadOnly]) *)
(* ===================================================================== *)

Module Validator.
Import JS.

(** The regular expressions of the source all have the shape
    [/^\s*VERB\s/i].  They are kept as data and run by a backtracking
    matcher anchored at the start of the input. *)
Inductive atom : Type :=
| Letter (c : ascii)   (** a literal character, compared under the [i] flag *)
| Space                (** [\s] *)
| SpaceStar.           (** [\s*] *)

Definition regex := list atom.

(** [Canonicalize] of the [i] flag without the [u] flag: the upper-case
    mapping of a single code unit, unless it leaves one code unit or maps a
    non-ASCII character into ASCII.  U+00FF and U+00B5 map outside Latin-1,
    U+00DF has a two-letter upper case and stays. *)
Definition canonicalize (c : ascii) : N :=
  let n := codeUnit c in
  if ((97 <=? n) && (n <=? 122))%N then (n - 32)%N
  else if ((224 <=? n) && (n <=? 254) && negb (n =? 247))%N then (n - 32)%N
  else if (n =? 255)%N then 376%N
  else if (n =? 181)%N then 924%N
  else n.

Definition sameLetter (p c : ascii) : bool :=
  (canonicalize p =? canonicalize c)%N.

Fixpoint matchHere (re : regex) (s : string) {struct re} : bool :=
  match re with
  | [] => true
  | Letter p :: re' =>
      match s with
      | String c s' => sameLetter p c && matchHere re' s'
      | EmptyString => false
      end
  | Space :: re' =>
      match s with
      | String c s' => isWhiteSpace c && matchHere re' s'
      | EmptyString => false
      end
  | SpaceStar :: re' =>
      (fix star (s : string) : bool :=
         match s with
         | String c s' => (isWhiteSpace c && star s') || matchHere re' s
         | EmptyString => matchHere re' s
         end) s
  end.

(** [pattern.test(sql)] for a pattern that starts with [^] and has neither
    the [g] nor the [y] flag. *)
Definition test (re : regex) (sql : string) : bool := matchHere re sql.

(** [/^\s*VERB\s/i] *)
Definition verbPattern (verb : string) : regex :=
  SpaceStar :: map Letter (list_ascii_of_string verb) ++ [Space].

Definition forbiddenVerbs : list string :=
  ["INSERT"; "UPDATE"; "DELETE"; "DROP"; "CREATE"; "ALTER";
   "TRUNCATE"; "GRANT"; "REVOKE"; "MERGE"]%string.

Definition allowedVerbs : list string :=
  ["SELECT"; "WITH"; "SHOW"; "DESCRIBE"; "EXPLAIN"]%string.

Definition forbiddenPatterns : list regex := map verbPattern forbiddenVerbs.
Definition allowedPatterns : list regex := map verbPattern allowedVerbs.

(** The two [Error] messages of the source: the write-operation-forbidden
    reason and the statement-type-not-permitted reason. *)
Definition writeForbidden : string :=
  "Only SELECT queries are allowed. Write operations are forbidden."%string.
Definition notPermitted : string :=
  "Only SELECT, SHOW, DESCRIBE, and EXPLAIN queries are allowed."%string.

Definition validateReadOnly (sql : string) : completion bool :=
  if existsb (fun pattern => test pattern sql) forbiddenPatterns
  then Throw writeForbidden
  else if negb (existsb (fun pattern => test pattern sql) allowedPatterns)
  then Throw notPermitted
  else Return true.

(** What it means for [sql] to begin with [verb] after optional leading
    whitespace, ignoring case (the reading of the specification). *)
Fixpoint sameWord (verb w : string) : bool :=
  match verb, w with
  | EmptyString, EmptyString => true
  | String p verb', String c w' => sameLetter p c && sameWord verb' w'
  | _, _ => false
  end.

Definition beginsWith (verb sql : string) : Prop :=
  exists ws w rest,
    sql = concat3 ws w rest /\ allWhiteSpace ws = true /\ sameWord verb w = true.

(** The same, with a whitespace character right after the verb: what the
    patterns of the source ask for. *)
Definition beginsWithWord (verb sql : string) : Prop :=
  exists ws w c rest,
    sql = concat3 ws w (String c rest) /\ allWhiteSpace ws = true /\
    sameWord verb w = true /\ isWhiteSpace c = true.

(** Two verbs clash when they differ, up to case, at a position that both
    have: no text can then begin with both. *)
Fixpoint clash (v1 v2 : string) : bool :=
  match v1, v2 with
  | String a v1', String b v2' =>
      negb (canonicalize a =? canonicalize b)%N || clash v1' v2'
  | _, _ => false
  end.

Definition isUpperLetter (p : ascii) : bool :=
  ((65 <=? codeUnit p) && (codeUnit p <=? 90))%N.

Fixpoint upperWord (v : string) : bool :=
  match v with
  | EmptyString => true
  | String p v' => isUpperLetter p && upperWord v'
  end.

End Validator.

(* ===================================================================== *)
(** * MD5 ([crypto.createHash('md5')], RFC 1321) *)
(* ===================================================================== *)

(** The hash is the one of Node's [crypto] module, not code of the
    repository; it is written out after RFC 1321 and compared with
    published digests in [MD5Facts]. *)

Module MD5.
Import JS.
Local Open Scope Z_scope.

(** [hash.update(str)] hashes the UTF-8 encoding of the string: one byte
    for a code unit below 128, two bytes otherwise. *)
Definition utf8Char (c : ascii) : list Z :=
  let n := Z.of_N (codeUnit c) in
  if n <? 128 then [n] else [Z.lor 192 (Z.shiftr n 6); Z.lor 128 (Z.land n 63)].

Fixpoint utf8 (s : string) : list Z :=
  match s with
  | EmptyString => []
  | String c s' => utf8Char c ++ utf8 s'
  end.

(** 32-bit words are integers with the wrap-around written out. *)
Definition wrap32 (x : Z) : Z := x mod 2 ^ 32.
Definition add32 (x y : Z) : Z := wrap32 (x + y).
Definition not32 (x : Z) : Z := Z.lxor x 0xffffffff.
Definition rotl32 (x c : Z) : Z :=
  Z.lor (wrap32 (Z.shiftl x c)) (Z.shiftr x (32 - c)).

(** [K[i] = floor(2^32 * |sin(i + 1)|)] *)
Definition K : list Z :=
  [0xd76aa478; 0xe8c7b756; 0x242070db; 0xc1bdceee;
   0xf57c0faf; 0x4787c62a; 0xa8304613; 0xfd469501;
   0x698098d8; 0x8b44f7af; 0xffff5bb1; 0x895cd7be;
   0x6b901122; 0xfd987193; 0xa679438e; 0x49b40821;
   0xf61e2562; 0xc040b340; 0x265e5a51; 0xe9b6c7aa;
   0xd62f105d; 0x02441453; 0xd8a1e681; 0xe7d3fbc8;
   0x21e1cde6; 0xc33707d6; 0xf4d50d87; 0x455a14ed;
   0xa9e3e905; 0xfcefa3f8; 0x676f02d9; 0x8d2a4c8a;
   0xfffa3942; 0x8771f681; 0x6d9d6122; 0xfde5380c;
   0xa4beea44; 0x4bdecfa9; 0xf6bb4b60; 0xbebfbc70;
   0x289b7ec6; 0xeaa127fa; 0xd4ef3085; 0x04881d05;
   0xd9d4d039; 0xe6db99e5; 0x1fa27cf8; 0xc4ac5665;
   0xf4292244; 0x432aff97; 0xab9423a7; 0xfc93a039;
   0x655b59c3; 0x8f0ccc92; 0xffeff47d; 0x85845dd1;
   0x6fa87e4f; 0xfe2ce6e0; 0xa3014314; 0x4e0811a1;
   0xf7537e82; 0xbd3af235; 0x2ad7d2bb; 0xeb86d391].

(** Per-round left-rotation amounts. *)
Definition shifts : list Z :=
  [7; 12; 17; 22; 7; 12; 17; 22; 7; 12; 17; 22; 7; 12; 17; 22;
   5; 9; 14; 20; 5; 9; 14; 20; 5; 9; 14; 20; 5; 9; 14; 20;
   4; 11; 16; 23; 4; 11; 16; 23; 4; 11; 16; 23; 4; 11; 16; 23;
   6; 10; 15; 21; 6; 10; 15; 21; 6; 10; 15; 21; 6; 10; 15; 21].

Record state : Type := State { wa : Z; wb : Z; wc : Z; wd : Z }.

Definition initial : state :=
  State 0x67452301 0xefcdab89 0x98badcfe 0x10325476.

(** One of the 64 operations on the message words [M] of a block. *)
Definition step (M : list Z) (st : state) (i : nat) : state :=
  let '(State a b c d) := st in
  let '(f, g) :=
    match (i / 16)%nat with
    | 0%nat => (Z.lor (Z.land b c) (Z.land (not32 b) d), i)
    | 1%nat => (Z.lor (Z.land d b) (Z.land (not32 d) c), ((5 * i + 1) mod 16)%nat)
    | 2%nat => (Z.lxor b (Z.lxor c d), ((3 * i + 5) mod 16)%nat)
    | _ => (Z.lxor c (Z.lor b (not32 d)), ((7 * i) mod 16)%nat)
    end in
  let f' := add32 (add32 (add32 f a) (nth i K 0)) (nth g M 0) in
  State d (add32 b (rotl32 f' (nth i shifts 0))) b c.

(** Little-endian 32-bit words of a byte sequence. *)
Fixpoint words (n : nat) (bytes : list Z) : list Z :=
  match n with
  | O => []
  | S n' =>
      match bytes with
      | b0 :: b1 :: b2 :: b3 :: rest =>
          (b0 + 256 * b1 + 65536 * b2 + 16777216 * b3) :: words n' rest
      | _ => []
      end
  end.

Definition processBlock (st : state) (block : list Z) : state :=
  let M := words 16 block in
  let '(State a b c d) := fold_left (step M) (seq 0 64) st in
  State (add32 (wa st) a) (add32 (wb st) b) (add32 (wc st) c) (add32 (wd st) d).

Fixpoint processBlocks (n : nat) (st : state) (bytes : list Z) : state :=
  match n with
  | O => st
  | S n' => processBlocks n' (processBlock st (firstn 64 bytes)) (skipn 64 bytes)
  end.

Definition leBytes (count : nat) (x : Z) : list Z :=
  map (fun i => Z.shiftr x (8 * Z.of_nat i) mod 256) (seq 0 count).

(** Padding: a [0x80] byte, zeros up to 56 modulo 64, then the bit length
    as a 64-bit little-endian integer. *)
Definition pad (msg : list Z) : list Z :=
  let len := Z.of_nat (length msg) in
  let zeros := Z.to_nat ((55 - len) mod 64) in
  msg ++ [128] ++ repeat 0 zeros ++ leBytes 8 ((8 * len) mod 2 ^ 64).

Definition md5 (msg : list Z) : state :=
  let padded := pad msg in
  processBlocks (length padded / 64) initial padded.

Definition hexDigit (n : Z) : ascii :=
  ascii_of_N (Z.to_N (if n <? 10 then 48 + n else 87 + n)).

Definition hexByte (b : Z) : string :=
  String (hexDigit (b / 16)) (String (hexDigit (b mod 16)) EmptyString).

Definition digestBytes (st : state) : list Z :=
  leBytes 4 (wa st) ++ leBytes 4 (wb st) ++ leBytes 4 (wc st) ++ leBytes 4 (wd st).

(** [digest('hex')]: 32 lower-case hexadecimal digits. *)
Definition hex (st : state) : string :=
  fold_right (fun b acc => String.append (hexByte b) acc) EmptyString
             (digestBytes st).

Definition md5hex (s : string) : string := hex (md5 (utf8 s)).

(** The digest as one 128-bit number, and the states whose four words are
    32-bit. *)
Definition digestInt (st : state) : Z :=
  wa st + 2 ^ 32 * wb st + 2 ^ 64 * wc st + 2 ^ 96 * wd st.

Definition word32 (w : Z) : Prop := 0 <= w < 2 ^ 32.

Definition inRange (st : state) : Prop :=
  word32 (wa st) /\ word32 (wb st) /\ word32 (wc st) /\ word32 (wd st).

End MD5.

(* ===================================================================== *)
(** * Query cache ([CacheService]) *)
(* ===================================================================== *)

(** Clock readings ([Date.now()]) and time-to-live values are integer
    milliseconds; the cached values have an arbitrary type [V]; the
    result [null] of [get] is [None]. *)

Module Cache.
Import JS.
Local Open Scope Z_scope.

(** A JavaScript [Map] with string keys: the entries in insertion order,
    each key at most once. *)
Section JSMap.
Context {A : Type}.

Fixpoint map_get (k : string) (m : list (string * A)) : option A :=
  match m with
  | [] => None
  | (k', v) :: m' => if String.eqb k k' then Some v else map_get k m'
  end.

(** [m.set(k, v)]: an existing key keeps its place, a new key goes last. *)
Fixpoint map_set (k : string) (v : A) (m : list (string * A)) : list (string * A) :=
  match m with
  | [] => [(k, v)]
  | (k', v') :: m' =>
      if String.eqb k k' then (k, v) :: m' else (k', v') :: map_set k v m'
  end.

Definition map_delete (k : string) (m : list (string * A)) : list (string * A) :=
  List.filter (fun e => negb (String.eqb k (fst e))) m.

(** [m.keys().next().value]: the oldest key, [undefined] on an empty map. *)
Definition map_firstKey (m : list (string * A)) : option string :=
  match m with
  | [] => None
  | (k, _) :: _ => Some k
  end.

Definition map_keys (m : list (string * A)) : list string := map fst m.

End JSMap.

Record item (V : Type) : Type :=
  Item { value : V; expiresAt : Z; createdAt : Z }.
Arguments Item {V} _ _ _.
Arguments value {V} _.
Arguments expiresAt {V} _.
Arguments createdAt {V} _.

(** The fields of the service object; [hits] and [misses] are the two
    counters of [this.stats]. *)
Record CacheService (V : Type) : Type :=
  Service {
    cache : list (string * item V);
    maxSize : nat;
    defaultTTL : Z;
    hits : nat;
    misses : nat
  }.
Arguments Service {V} _ _ _ _ _.
Arguments cache {V} _.
Arguments maxSize {V} _.
Arguments defaultTTL {V} _.
Arguments hits {V} _.
Arguments misses {V} _.

Definition constructor {V : Type} : CacheService V :=
  Service [] 1000 (5 * 60 * 1000) 0 0.

Definition generateKey (sql : string) : string :=
  MD5.md5hex (toLowerCase (trim sql)).

Section Operations.
Context {V : Type}.

(** [get(sql)] when [Date.now()] reads [now]. *)
Definition get (now : Z) (sql : string) (this : CacheService V)
  : option V * CacheService V :=
  let key := generateKey sql in
  match map_get key (cache this) with
  | None =>
      (None, Service (cache this) (maxSize this) (defaultTTL this)
                     (hits this) (S (misses this)))
  | Some it =>
      if now >? expiresAt it then
        (None, Service (map_delete key (cache this)) (maxSize this)
                       (defaultTTL this) (hits this) (S (misses this)))
      else
        (Some (value it), Service (cache this) (maxSize this) (defaultTTL this)
                                  (S (hits this)) (misses this))
  end.

(** [set(sql, value, ttl)]; [ttl = None] is a call without the third
    argument.  [Date.now()] is read twice, as [now] for [expiresAt] and as
    [now'] for [createdAt]. *)
Definition set (now now' : Z) (sql : string) (v : V) (ttl : option Z)
    (this : CacheService V) : CacheService V :=
  let ttl := match ttl with Some t => t | None => defaultTTL this end in
  let key := generateKey sql in
  let evicted :=
    if (maxSize this <=? length (cache this))%nat then
      match map_firstKey (cache this) with
      | Some firstKey => map_delete firstKey (cache this)
      | None => cache this
      end
    else cache this in
  Service (map_set key (Item v (now + ttl) now') evicted)
          (maxSize this) (defaultTTL this) (hits this) (misses this).

Definition has (now : Z) (sql : string) (this : CacheService V)
  : bool * CacheService V :=
  let key := generateKey sql in
  match map_get key (cache this) with
  | None => (false, this)
  | Some it =>
      if now >? expiresAt it then
        (false, Service (map_delete key (cache this)) (maxSize this)
                        (defaultTTL this) (hits this) (misses this))
      else (true, this)
  end.

Definition clear (this : CacheService V) : CacheService V :=
  Service [] (maxSize this) (defaultTTL this) (hits this) (misses this).

End Operations.

(** Representation invariant of the service: the map has unique keys and
    holds at most [maxSize] entries, and [maxSize] is positive. *)
Definition wf {V : Type} (this : CacheService V) : Prop :=
  List.NoDup (map_keys (cache this)) /\
  (length (cache this) <= maxSize this)%nat /\
  (1 <= maxSize this)%nat.

(** Storing a list of requests [(now, now', sql, value, ttl)] in order. *)
Definition setAll {V : Type}
    (reqs : list (Z * Z * string * V * option Z)) (this : CacheService V)
  : CacheService V :=
  fold_left (fun st r => let '(now, now', sql, v, ttl) := r in
                         set now now' sql v ttl st) reqs this.

(** The last [n] elements of a list. *)
Definition lastn {A : Type} (n : nat) (l : list A) : list A :=
  skipn (length l - n) l.

Definition reqKey {V : Type} (r : Z * Z * string * V * option Z) : string :=
  let '(_, _, sql, _, _) := r in generateKey sql.

End Cache.

(* ===================================================================== *)
(** * Connection pool ([TrinoService.getClient]) *)
(* ===================================================================== *)

Module Pool.
Import JS.

(** The object that [Trino.create] returns.  A JavaScript object has an
    identity: [ident] is the number of clients created before it, so two
    handles are the same instance exactly when they are equal. *)
Record client : Type :=
  Client {
    ident : nat;
    server : option string;
    catalog : string;
    schema : string;
    auth : option string
  }.

(** The fields of the service that [getClient] reads and writes, and
    [created], the number of clients constructed so far.  [serverUrl] and
    [user] come from the environment and may be undefined. *)
Record TrinoService : Type :=
  Service {
    serverUrl : option string;
    user : option string;
    clientPool : gmap string client;
    maxPoolSize : nat;
    created : nat
  }.

Definition constructor (TRINO_SERVER TRINO_USER : option string) : TrinoService :=
  Service TRINO_SERVER TRINO_USER ∅ 10 0.

(** [`${catalog}.${schema}`] *)
Definition poolKey (catalog schema : string) : string :=
  concat3 catalog "." schema.

Definition getClient (catalog schema : string) (this : TrinoService)
  : client * TrinoService :=
  let key := poolKey catalog schema in
  match clientPool this !! key with
  | Some pooled => (pooled, this)
  | None =>
      let fresh := Client (created this) (serverUrl this) catalog schema (user this) in
      let pool :=
        if (size (clientPool this) <? maxPoolSize this)%nat
        then <[key := fresh]> (clientPool this)
        else clientPool this in
      (fresh, Service (serverUrl this) (user this) pool (maxPoolSize this)
                      (S (created this)))
  end.

(** Acquiring a list of (catalog, schema) pairs in order. *)
Definition getClients (pairs : list (string * string)) (this : TrinoService)
  : TrinoService :=
  fold_left (fun st p => snd (getClient (fst p) (snd p) st)) pairs this.

(** Invariant of the pool: every pooled handle was created earlier, sits
    under the key of its own catalog and schema, and no handle sits under
    two keys. *)
Definition wf (this : TrinoService) : Prop :=
  forall key h, clientPool this !! key = Some h ->
    (ident h < created this)%nat /\
    poolKey (catalog h) (schema h) = key /\
    forall key' h', clientPool this !! key' = Some h' ->
                    ident h' = ident h -> key' = key.

(** Ten distinct catalogs: acquiring them all fills a new pool. *)
Definition tenPairs : list (string * string) :=
  map (fun c => (c, "gold"%string))
      ["c0"; "c1"; "c2"; "c3"; "c4"; "c5"; "c6"; "c7"; "c8"; "c9"]%string.

End Pool.

(* ===================================================================== *)
(** * Forecast merge ([exports.chat]) and [calculateForecast] *)
(* ===================================================================== *)

Module Forecast.
Import JS.
Local Open Scope Z_scope.

(** The cells of a result row and the fields of a prediction: JSON
    scalars, and [undefined] for what is absent. *)
Inductive jsval : Type :=
| JNull
| JUndefined
| JBool (b : bool)
| JNum (x : float)
| JStr (s : string).

(** The host functions the controller calls on values it does not
    control: [parseFloat] on a string, [new Date(v).getTime()],
    [new Date(x).toISOString().split('T')[0]], which throws a [RangeError]
    ([None]) on an invalid date, and the order in which
    [Array.prototype.sort] leaves a list of [(x, y)] points under the
    comparator [a.x - b.x] when some [x] is NaN: the comparator is then
    not a consistent one, and ECMA-262 leaves the order to the engine. *)
Class Builtins : Type :=
  {
    parseFloatString : string -> float;
    dateGetTime : jsval -> float;
    dateISODay : float -> option string;
    sortInconsistent : list (float * float) -> list (float * float)
  }.

(** [parseFloat(v)] parses [String(v)].  A number prints to a text that
    reads back as itself, except that [-0] prints as ["0"]; [null],
    [undefined] and booleans print to texts that are not numbers. *)
Definition parseFloat `{Builtins} (v : jsval) : float :=
  match v with
  | JNum x => if (x =? 0)%float then 0%float else x
  | JStr s => parseFloatString s
  | _ => nan
  end.

Definition isNaN (x : float) : bool := is_nan x.

(** [ToBoolean] *)
Definition truthy (v : jsval) : bool :=
  match v with
  | JNull | JUndefined => false
  | JBool b => b
  | JNum x => negb ((x =? 0)%float || is_nan x)
  | JStr s => negb (String.eqb s EmptyString)
  end.

Definition isNull (v : jsval) : bool :=
  match v with JNull => true | _ => false end.
Definition isUndefined (v : jsval) : bool :=
  match v with JUndefined => true | _ => false end.

(** [SameValueZero], the comparison of [Set.prototype.has]. *)
Definition sameValueZero (v w : jsval) : bool :=
  match v, w with
  | JNull, JNull => true
  | JUndefined, JUndefined => true
  | JBool a, JBool b => Bool.eqb a b
  | JNum a, JNum b => (a =? b)%float || is_nan a && is_nan b
  | JStr a, JStr b => String.eqb a b
  | _, _ => false
  end.

(** [new Set(values).has(v)] *)
Definition setHas (values : list jsval) (v : jsval) : bool :=
  existsb (sameValueZero v) values.

(** ** Arrays *)

(** [row[i]]: [undefined] outside the array. *)
Definition index (row : list jsval) (i : Z) : jsval :=
  if i <? 0 then JUndefined else default JUndefined (row !! Z.to_nat i).

(** [row[i] = v]: in range the cell is replaced; past the end the array
    grows, the cells in between reading as [undefined]; a negative [i]
    names a property that is no element, and the cells stay as they are. *)
Definition setIndex (row : list jsval) (i : Z) (v : jsval) : list jsval :=
  if i <? 0 then row
  else
    let n := Z.to_nat i in
    if (n <? length row)%nat then <[n := v]> row
    else row ++ replicate (n - length row) JUndefined ++ [v].

(** [xs.findIndex((x, i) => p(x, i))]: -1 when no element qualifies. *)
Fixpoint findIndexFrom {A : Type} (p : A -> Z -> bool) (i : Z) (xs : list A) : Z :=
  match xs with
  | [] => -1
  | x :: xs' => if p x i then i else findIndexFrom p (i + 1) xs'
  end.

Definition findIndex {A : Type} (p : A -> Z -> bool) (xs : list A) : Z :=
  findIndexFrom p 0 xs.

(** Applying [f] to the last element of a non-empty list. *)
Fixpoint updateLast {A : Type} (f : A -> A) (xs : list A) : list A :=
  match xs with
  | [] => []
  | [x] => [f x]
  | x :: xs' => x :: updateLast f xs'
  end.

(** ** The forecast branch of [exports.chat] *)

Record prediction : Type := Prediction { date : jsval; value : jsval }.

Definition ResultSet : Type := (list string * list (list jsval))%type.

(** An element of [predictions] as the loop of the merge reads it:
    [null], on which reading [pred.date] throws a [TypeError], or a value
    with its [date] and [value] properties, each [undefined] when absent
    (both are absent on a number, a string, a boolean and an array). *)
Inductive element : Type :=
| NullElement
| Point (p : prediction).

(** What [forecast.predictions] holds after [JSON.parse]: a falsy value
    (absent, [null], [false], [0], the empty string), on which the merge
    is skipped; a truthy value that cannot be iterated ([true], another
    number, an object that is no array), on which [for ... of] throws a
    [TypeError]; or a sequence of elements (an array, the empty one
    included; for a non-empty string its characters, each without
    properties). *)
Inductive predictionsValue : Type :=
| Falsy
| NotIterable
| Elements (elements : list element).

(** The predictions that the loop reads when no element is [null]. *)
Fixpoint readElements (elements : list element) : option (list prediction) :=
  match elements with
  | [] => Some []
  | NullElement :: _ => None
  | Point p :: elements' =>
      match readElements elements' with
      | Some predictions => Some (p :: predictions)
      | None => None
      end
  end.

(** What the forecast branch leaves: the columns and rows of
    [responseData], or, when the merge block throws, the [query_error]
    answer of the [catch], which has neither. *)
Inductive branchOutcome : Type :=
| Table (result : ResultSet)
| QueryError.

Section Merge.
Context `{Builtins}.

Definition dateColIdx (columns : list string) : Z :=
  findIndex (fun c _ => includes "date" (toLowerCase c)) columns.

Definition valueColIdx (columns : list string) (rows : list (list jsval)) : Z :=
  findIndex (fun _ i =>
               negb (i =? dateColIdx columns) && (0 <? length rows)%nat &&
               negb (isNaN (parseFloat (index (nth 0 rows []) i))))
            columns.

(** The date cell of a row. *)
Definition rowDate (columns : list string) (row : list jsval) : jsval :=
  index row (dateColIdx columns).

(** [generateForecast], as far as the merge depends on it: the
    [predictions] of a result with [success: true], [None] for
    [success: false].  It gives up before asking the model when a column
    cannot be identified; [reply] is what [forecast.predictions] holds,
    [None] when the request or the parse throws or the answer parses to
    [null]. *)
Definition generateForecast (reply : option predictionsValue)
    (columns : list string) (rows : list (list jsval))
  : option predictionsValue :=
  if (dateColIdx columns =? -1) || (valueColIdx columns rows =? -1) then None
  else reply.

Definition validHistoricalRows (columns : list string) (rows : list (list jsval))
  : list (list jsval) :=
  List.filter (fun row =>
                 truthy (index row (dateColIdx columns)) &&
                 negb (isNull (index row (valueColIdx columns rows))) &&
                 negb (isUndefined (index row (valueColIdx columns rows))))
              rows.

(** The row pushed for a prediction. *)
Definition predictionRow (columns : list string) (pred : prediction) : list jsval :=
  let newColumns := columns ++ ["Forecast"%string] in
  let newRow := replicate (length newColumns) JNull in
  let newRow := setIndex newRow (dateColIdx columns) (date pred) in
  setIndex newRow (Z.of_nat (length newColumns) - 1) (value pred).

(** The block that runs when [forecastResult.success] and
    [forecastResult.predictions] hold. *)
Definition mergeForecast (columns : list string) (rows : list (list jsval))
    (predictions : list prediction) : ResultSet :=
  let newColumns := columns ++ ["Forecast"%string] in
  let valid := validHistoricalRows columns rows in
  let existingDates := map (fun row => index row (dateColIdx columns)) valid in
  let newRows := map (fun row => row ++ [JNull]) valid in
  let newRows :=
    if (0 <? length newRows)%nat then
      updateLast (fun lastRow =>
                    setIndex lastRow (Z.of_nat (length newColumns) - 1)
                      (JNum (parseFloat (index lastRow (valueColIdx columns rows)))))
                 newRows
    else newRows in
  let newRows :=
    fold_left (fun acc pred =>
                 if negb (setHas existingDates (date pred))
                 then acc ++ [predictionRow columns pred]
                 else acc)
              predictions newRows in
  (newColumns, newRows).

(** The forecast branch: [responseData.columns] and [responseData.rows]
    after it, or the answer of the [catch] when [for ... of] or the
    reading of [pred.date] throws. *)
Definition forecastResponse (reply : option predictionsValue)
    (columns : list string) (rows : list (list jsval)) : branchOutcome :=
  match generateForecast reply columns rows with
  | None | Some Falsy => Table (columns, rows)
  | Some NotIterable => QueryError
  | Some (Elements elements) =>
      match readElements elements with
      | Some predictions => Table (mergeForecast columns rows predictions)
      | None => QueryError
      end
  end.

End Merge.

(** Dates are pairwise different under [SameValueZero]; each one is
    compared with the ones before it. *)
Fixpoint distinctDates (dates : list jsval) : Prop :=
  match dates with
  | [] => True
  | d :: rest => Forall (fun e => sameValueZero e d = false) rest /\ distinctDates rest
  end.

(** ** Linear regression ([calculateForecast]) *)

(** The integer [n] as a number; exact below 2^53. *)
Fixpoint ofPositive (p : positive) : float :=
  match p with
  | xH => 1
  | xO q => 2 * ofPositive q
  | xI q => 2 * ofPositive q + 1
  end%float.

Definition ofNat (n : nat) : float :=
  match N.of_nat n with
  | N0 => 0%float
  | Npos p => ofPositive p
  end.

(** [{ x, y, date }]; the [date] field is never read. *)
Record dataPoint : Type := DataPoint { x : float; y : float }.

(** [dataPoints.sort((a, b) => a.x - b.x)].  When no [x] is NaN the
    comparator is a consistent one and the sort is the stable sort: each
    point goes in front of the first point that the comparator puts after
    it.  When some [x] is NaN (a date that does not parse) the order is
    the engine's. *)
Fixpoint insertPoint (p : dataPoint) (sorted : list dataPoint) : list dataPoint :=
  match sorted with
  | [] => [p]
  | q :: rest =>
      if (0 <? x q - x p)%float then p :: q :: rest else q :: insertPoint p rest
  end.

Definition sortPoints `{Builtins} (points : list dataPoint) : list dataPoint :=
  if existsb (fun p => is_nan (x p)) points
  then map (fun xy => DataPoint (fst xy) (snd xy))
           (sortInconsistent (map (fun p => (x p, y p)) points))
  else fold_left (fun sorted p => insertPoint p sorted) points [].

(** [sumX], [sumY], [sumXY], [sumXX] *)
Definition sums (points : list dataPoint) : float * float * float * float :=
  fold_left (fun acc p =>
               let '(sumX, sumY, sumXY, sumXX) := acc in
               (sumX + x p, sumY + y p, sumXY + x p * y p, sumXX + x p * x p)%float)
            points (0, 0, 0, 0)%float.

Definition denominator (points : list dataPoint) : float :=
  let n := ofNat (length points) in
  let '(sumX, sumY, sumXY, sumXX) := sums points in
  (n * sumXX - sumX * sumX)%float.

Definition slope (points : list dataPoint) : float :=
  let n := ofNat (length points) in
  let '(sumX, sumY, sumXY, sumXX) := sums points in
  ((n * sumXY - sumX * sumY) / (n * sumXX - sumX * sumX))%float.

Definition intercept (points : list dataPoint) : float :=
  let n := ofNat (length points) in
  let '(sumX, sumY, sumXY, sumXX) := sums points in
  ((sumY - slope points * sumX) / n)%float.

(** Not reached: the points are at least two where these are read. *)
Definition noPoint : dataPoint := DataPoint nan nan.

Definition avgInterval (points : list dataPoint) : float :=
  let n := ofNat (length points) in
  ((x (List.last points noPoint) - x (hd noPoint points)) / (n - 1))%float.

(** The loop [for (let i = 1; i <= periods; i++)]: the pairs
    [(currentX, futureVal)] it computes, [count] rounds from [currentX]. *)
Fixpoint futurePoints (slope intercept avgInterval currentX : float) (count : nat)
  : list (float * float) :=
  match count with
  | O => []
  | S count' =>
      let currentX := (currentX + avgInterval)%float in
      let futureVal := (slope * currentX + intercept)%float in
      (currentX, futureVal) :: futurePoints slope intercept avgInterval currentX count'
  end.

Section Regression.
Context `{Builtins}.

Definition isDateLike (colName : string) : bool :=
  includes "date" colName || includes "time" colName ||
  includes "day" colName || includes "month" colName.

(** The loop over the columns: the last date-like column, and the first
    other column whose cell in the first row reads as a number. *)
Fixpoint identifyColumns (i : Z) (columns : list string) (rows : list (list jsval))
    (dateColIdx metricColIdx : Z) : Z * Z :=
  match columns with
  | [] => (dateColIdx, metricColIdx)
  | c :: columns' =>
      if isDateLike (toLowerCase c) then
        identifyColumns (i + 1) columns' rows i metricColIdx
      else if (0 <? length rows)%nat &&
              negb (isNaN (parseFloat (index (nth 0 rows []) i))) then
        identifyColumns (i + 1) columns' rows dateColIdx
                        (if metricColIdx =? -1 then i else metricColIdx)
      else identifyColumns (i + 1) columns' rows dateColIdx metricColIdx
  end.

(** [rows.map(...).filter(p => p !== null)] *)
Definition preparePoints (dateColIdx metricColIdx : Z) (rows : list (list jsval))
  : list dataPoint :=
  flat_map (fun row =>
              let dateStr := index row dateColIdx in
              let val := parseFloat (index row metricColIdx) in
              if negb (truthy dateStr) || isNaN val then []
              else [DataPoint (dateGetTime dateStr) val])
           rows.

(** One pushed row per future point; [toISOString] may throw. *)
Fixpoint futureRows (columns : list string) (dateColIdx : Z)
    (points : list (float * float)) : completion (list (list jsval)) :=
  match points with
  | [] => Return []
  | (currentX, futureVal) :: points' =>
      match dateISODay currentX with
      | None => Throw "Invalid time value"
      | Some dateStr =>
          let newColumns := columns ++ ["Forecast"%string] in
          let newRow := replicate (length newColumns) JNull in
          let newRow := setIndex newRow dateColIdx (JStr dateStr) in
          let newRow := setIndex newRow (Z.of_nat (length newColumns) - 1)
                                 (JNum futureVal) in
          match futureRows columns dateColIdx points' with
          | Return rest => Return (newRow :: rest)
          | Throw msg => Throw msg
          end
      end
  end.

(** Steps 3 and 4, on the sorted points. *)
Definition forecastFrom (columns : list string) (rows : list (list jsval))
    (dateColIdx : Z) (periods : Z) (dataPoints : list dataPoint)
  : completion (option ResultSet) :=
  let lastPoint := List.last dataPoints noPoint in
  let newColumns := columns ++ ["Forecast"%string] in
  let newRows := map (fun row => row ++ [JNull]) rows in
  let newRows :=
    updateLast (fun lastRow =>
                  setIndex lastRow (Z.of_nat (length newColumns) - 1)
                           (JNum (y lastPoint)))
               newRows in
  match futureRows columns dateColIdx
          (futurePoints (slope dataPoints) (intercept dataPoints)
                        (avgInterval dataPoints) (x lastPoint)
                        (Z.to_nat periods)) with
  | Return future => Return (Some (newColumns, newRows ++ future))
  | Throw msg => Throw msg
  end.

(** [calculateForecast(columns, rows, periods)]; [periods = None] is a
    call without the third argument.  The result [None] is [null]. *)
Definition calculateForecast (columns : list string) (rows : list (list jsval))
    (periods : option Z) : completion (option ResultSet) :=
  let periods := match periods with Some p => p | None => 30 end in
  let '(dateColIdx, metricColIdx) := identifyColumns 0 columns rows (-1) (-1) in
  if (dateColIdx =? -1) || (metricColIdx =? -1) || (length rows <? 2)%nat
  then Return None
  else
    let dataPoints := preparePoints dateColIdx metricColIdx rows in
    if (length dataPoints <? 2)%nat then Return None
    else forecastFrom columns rows dateColIdx periods (sortPoints dataPoints).

End Regression.

(** A host for examples: it knows the dates used there, and leaves points
    with a NaN timestamp where they are. *)
Definition exampleHost : Builtins :=
  {|
    parseFloatString := fun _ => nan;
    dateGetTime := fun v =>
      match v with
      | JStr "2025-01-01" => 1735689600000
      | JStr "1970-01-01T00:00:00.000Z" => 0
      | JStr "1970-01-01T00:00:00.001Z" => 1
      | JStr "1970-01-01T00:00:00.002Z" => 2
      | _ => nan
      end%float;
    dateISODay := fun t =>
      if (t =? 1735689600000)%float then Some "2025-01-01"%string
      else if (0 <=? t)%float && (t <? 86400000)%float then Some "1970-01-01"%string
      else None;
    sortInconsistent := fun points => points
  |}.

End Forecast.

(* ===================================================================== *)
(** * Sequences of cache calls *)
(* ===================================================================== *)

Module CacheRuns.
Import JS Cache.

(** One call on the cache service, with the clock readings it makes. *)
Inductive request (V : Type) : Type :=
| CallGet (now : Z) (sql : string)
| CallSet (now now' : Z) (sql : string) (v : V) (ttl : option Z)
| CallHas (now : Z) (sql : string)
| CallClear.
Arguments CallGet {V} now sql.
Arguments CallSet {V} now now' sql v ttl.
Arguments CallHas {V} now sql.
Arguments CallClear {V}.

Definition step {V : Type} (this : CacheService V) (r : request V)
  : CacheService V :=
  match r with
  | CallGet now sql => snd (get now sql this)
  | CallSet now now' sql v ttl => set now now' sql v ttl this
  | CallHas now sql => snd (has now sql this)
  | CallClear => clear this
  end.

Definition run {V : Type} (requests : list (request V)) (this : CacheService V)
  : CacheService V :=
  fold_left step requests this.

Definition isGet {V : Type} (r : request V) : bool :=
  match r with CallGet _ _ => true | _ => false end.

Definition isSome {A : Type} (o : option A) : bool :=
  match o with Some _ => true | None => false end.

End CacheRuns.

(* ===================================================================== *)
(** * The rest of [TrinoService]: configuration, execution, discovery *)
(* ===================================================================== *)

(** What the gateway gets from outside is a parameter: the answer of the
    engine to the [n]-th statement it is sent ([Throw] when
    [client.query] or the iteration over its pages fails), the [n]-th
    reading of the clock, and the text of a number.  A call is modelled
    from its start to its end, with no other request running in
    between. *)

Module Gateway.
Import JS Validator Forecast.
Local Open Scope string_scope.
Local Open Scope list_scope.

(** [s.split(sep)] for a one-character separator: never empty. *)
Fixpoint split (sep : ascii) (s : string) : list string :=
  match s with
  | EmptyString => [EmptyString]
  | String c s' =>
      if Ascii.eqb c sep then EmptyString :: split sep s'
      else match split sep s' with
           | piece :: pieces => String c piece :: pieces
           | [] => [String c EmptyString]
           end
  end.

(** [pieces.join(sep)] *)
Fixpoint join (sep : string) (pieces : list string) : string :=
  match pieces with
  | [] => EmptyString
  | [piece] => piece
  | piece :: pieces' => String.append piece (String.append sep (join sep pieces'))
  end.

Fixpoint hasChar (c : ascii) (s : string) : bool :=
  match s with
  | EmptyString => false
  | String a s' => Ascii.eqb a c || hasChar c s'
  end.

(** Names without a dot, and names that a catalog list can carry: no dot,
    no comma, no whitespace. *)
Definition dotFree (s : string) : bool := negb (includes "." s).

Fixpoint plainName (s : string) : bool :=
  match s with
  | EmptyString => true
  | String a s' =>
      negb (Ascii.eqb a ".") && negb (Ascii.eqb a ",") && negb (isWhiteSpace a)
      && plainName s'
  end.

(** Every pooled handle was built for a catalog without a dot. *)
Definition plainPool (this : Pool.TrinoService) : Prop :=
  forall key h, Pool.clientPool this !! key = Some h ->
                dotFree (Pool.catalog h) = true.

(** [parseCatalogs]: the entries of [TRINO_CATALOGS], or of the default
    when the variable is unset or empty; each entry gives the first two
    dot-separated parts of its trimmed text, [None] for a missing one. *)
Definition parseCatalogs (TRINO_CATALOGS : option string)
  : list (option string * option string) :=
  let catalogsEnv :=
    match TRINO_CATALOGS with
    | Some s => if String.eqb s EmptyString then "lakehouse.ap_south1_gold" else s
    | None => "lakehouse.ap_south1_gold"
    end in
  map (fun cs =>
         let parts := split "." (trim cs) in
         (nth_error parts 0, nth_error parts 1))
      (split "," catalogsEnv).

(** One page of a result: [chunk.columns] (the column names) and
    [chunk.data], each of which may be missing. *)
Record chunk : Type :=
  Chunk { chunkColumns : option (list string);
          chunkData : option (list (list jsval)) }.

Class World : Type :=
  {
    clientQuery : nat -> Pool.client -> string -> completion (list chunk);
    dateNow : nat -> Z;
    numberToString : float -> string
  }.

(** The loop over the pages: the columns of the first page that brings
    some, the rows of all pages in arrival order. *)
Definition addChunk (acc : ResultSet) (c : chunk) : ResultSet :=
  let '(columns, rows) := acc in
  let columns :=
    match columns, chunkColumns c with
    | [], Some names => names
    | _, _ => columns
    end in
  let rows :=
    match chunkData c with
    | Some data => rows ++ data
    | None => rows
    end in
  (columns, rows).

Definition collect (chunks : list chunk) : ResultSet :=
  fold_left addChunk chunks ([], []).

(** [{ table, catalog, schema, fullName }] and
    [{ column, type, extra, comment }] *)
Record tableInfo : Type :=
  TableInfo { table : jsval; tableCatalog : string; tableSchema : string;
              fullName : string }.

Record columnInfo : Type :=
  ColumnInfo { column : jsval; type : jsval; extra : jsval; comment : jsval }.

(** The state of the two singletons: the pool of the service, its
    configured (catalog, schema) pairs (each with both names; the list
    that [parseCatalogs] builds is never empty, so it is kept as its
    first entry and the others), its [schemaCache] ([None] is [null]; an
    object keyed by full name otherwise, in insertion order), the query
    cache, and two counters of what has happened: the statements handed
    to [client.query], oldest first, and the number of clock readings
    made. *)
Record state : Type :=
  State {
    trino : Pool.TrinoService;
    firstCatalog : string * string;
    moreCatalogs : list (string * string);
    schemaCache : option (list (string * (tableInfo * list columnInfo)));
    cacheService : Cache.CacheService ResultSet;
    sent : list (Pool.client * string);
    ticks : nat
  }.

Definition catalogSchemas (st : state) : list (string * string) :=
  firstCatalog st :: moreCatalogs st.

(** [{ columns, rows, fromCache }] *)
Record queryResult : Type :=
  QueryResult { columns : list string; rows : list (list jsval);
                fromCache : bool }.

Section Service.
Context `{World}.

(** [String(v)], as template literals apply it. *)
Definition toText (v : jsval) : string :=
  match v with
  | JNull => "null"
  | JUndefined => "undefined"
  | JBool true => "true"
  | JBool false => "false"
  | JNum x => numberToString x
  | JStr s => s
  end.

(** [executeQuery(sql, useCache)]; [useCache = None] is a call without
    the second argument.  The result comes with the state that the call
    leaves behind, also when it throws. *)
Definition executeQuery (sql : string) (useCache : option bool) (st : state)
  : completion queryResult * state :=
  let useCache := match useCache with Some b => b | None => true end in
  match validateReadOnly sql with
  | Throw msg => (Throw msg, st)
  | Return _ =>
      (* [get] reads the clock only when it finds an entry *)
      let '(cached, cache1, ticks1) :=
        if useCache then
          let '(cached, cache1) :=
            Cache.get (dateNow (ticks st)) sql (cacheService st) in
          (cached, cache1,
           match Cache.map_get (Cache.generateKey sql)
                               (Cache.cache (cacheService st)) with
           | Some _ => S (ticks st)
           | None => ticks st
           end)
        else (None, cacheService st, ticks st) in
      match cached with
      | Some (columns, rows) =>
          (Return (QueryResult columns rows true),
           State (trino st) (firstCatalog st) (moreCatalogs st) (schemaCache st)
                 cache1 (sent st) ticks1)
      | None =>
          let '(catalog, schema) := firstCatalog st in
          let '(client, trino1) := Pool.getClient catalog schema (trino st) in
          (* startTime *)
          let ticks2 := S ticks1 in
          let sent1 := sent st ++ [(client, sql)] in
          match clientQuery (length (sent st)) client sql with
          | Throw msg =>
              (Throw msg,
               State trino1 (firstCatalog st) (moreCatalogs st) (schemaCache st)
                     cache1 sent1 ticks2)
          | Return chunks =>
              let result := collect chunks in
              (* duration *)
              let ticks3 := S ticks2 in
              let '(cache2, ticks4) :=
                if useCache then
                  (Cache.set (dateNow ticks3) (dateNow (S ticks3)) sql
                             result None cache1,
                   S (S ticks3))
                else (cache1, ticks3) in
              (Return (QueryResult (fst result) (snd result) false),
               State trino1 (firstCatalog st) (moreCatalogs st) (schemaCache st)
                     cache2 sent1 ticks4)
          end
      end
  end.

Definition showTablesSql (catalog schema : string) : string :=
  String.append "SHOW TABLES FROM " (String.append catalog (String.append "." schema)).

Definition describeSql (catalog schema : string) (tableName : jsval) : string :=
  String.append "DESCRIBE "
    (String.append catalog
       (String.append "." (String.append schema
          (String.append "." (toText tableName))))).

Definition getTablesFromCatalog (catalog schema : string) (st : state)
  : completion (list tableInfo) * state :=
  match executeQuery (showTablesSql catalog schema) None st with
  | (Throw msg, st') => (Throw msg, st')
  | (Return result, st') =>
      (Return (map (fun row =>
                      TableInfo (index row 0) catalog schema
                        (String.append catalog
                           (String.append "."
                              (String.append schema
                                 (String.append "." (toText (index row 0)))))))
                   (rows result)),
       st')
  end.

(** The loop of [getTables]: a catalog whose listing throws is skipped. *)
Fixpoint getTablesLoop (entries : list (string * string))
    (allTables : list tableInfo) (st : state) : list tableInfo * state :=
  match entries with
  | [] => (allTables, st)
  | (catalog, schema) :: entries' =>
      match getTablesFromCatalog catalog schema st with
      | (Return tables, st') => getTablesLoop entries' (allTables ++ tables) st'
      | (Throw _, st') => getTablesLoop entries' allTables st'
      end
  end.

Definition getTables (st : state) : list tableInfo * state :=
  getTablesLoop (catalogSchemas st) [] st.

(** [v || ""] *)
Definition orEmpty (v : jsval) : jsval := if truthy v then v else JStr "".

Definition getTableSchema (catalog schema : string) (tableName : jsval)
    (st : state) : completion (list columnInfo) * state :=
  match executeQuery (describeSql catalog schema tableName) None st with
  | (Throw msg, st') => (Throw msg, st')
  | (Return result, st') =>
      (Return (map (fun row =>
                      ColumnInfo (index row 0) (index row 1)
                                 (orEmpty (index row 2)) (orEmpty (index row 3)))
                   (rows result)),
       st')
  end.

(** The loop of [getFullSchema] over the tables found: a table whose
    description throws is entered with no columns. *)
Fixpoint describeLoop (tables : list tableInfo)
    (schema : list (string * (tableInfo * list columnInfo))) (st : state)
  : list (string * (tableInfo * list columnInfo)) * state :=
  match tables with
  | [] => (schema, st)
  | info :: tables' =>
      match getTableSchema (tableCatalog info) (tableSchema info) (table info) st with
      | (Return cols, st') =>
          describeLoop tables' (Cache.map_set (fullName info) (info, cols) schema) st'
      | (Throw _, st') =>
          describeLoop tables' (Cache.map_set (fullName info) (info, []) schema) st'
      end
  end.

(** [this.schemaCache = sc] *)
Definition setSchemaCache
    (sc : option (list (string * (tableInfo * list columnInfo)))) (st : state)
  : state :=
  State (trino st) (firstCatalog st) (moreCatalogs st) sc
        (cacheService st) (sent st) (ticks st).

Definition getFullSchema (st : state)
  : list (string * (tableInfo * list columnInfo)) * state :=
  match schemaCache st with
  | Some schema => (schema, st)
  | None =>
      let '(tables, st1) := getTables st in
      let '(schema, st2) := describeLoop tables [] st1 in
      (schema, setSchemaCache (Some schema) st2)
  end.

Definition refreshSchema (st : state)
  : list (string * (tableInfo * list columnInfo)) * state :=
  getFullSchema (setSchemaCache None st).

(** [clearCache()] *)
Definition clearCache (st : state) : state :=
  State (trino st) (firstCatalog st) (moreCatalogs st) (schemaCache st)
        (Cache.clear (cacheService st)) (sent st) (ticks st).

(** The calls that the rest of the program makes on the service, and the
    state that each leaves behind, whether it returns or throws. *)
Inductive operation : Type :=
| ExecuteQuery (sql : string) (useCache : option bool)
| GetTables
| GetTableSchema (catalog schema : string) (tableName : jsval)
| GetFullSchema
| RefreshSchema
| ClearCache.

Definition perform (st : state) (op : operation) : state :=
  match op with
  | ExecuteQuery sql useCache => snd (executeQuery sql useCache st)
  | GetTables => snd (getTables st)
  | GetTableSchema catalog schema tableName =>
      snd (getTableSchema catalog schema tableName st)
  | GetFullSchema => snd (getFullSchema st)
  | RefreshSchema => snd (refreshSchema st)
  | ClearCache => clearCache st
  end.

Definition performAll (ops : list operation) (st : state) : state :=
  fold_left perform ops st.

End Service.

(** A world for examples: the engine answers every statement with one
    page of one column and one row, except that it fails on statements
    that mention the catalog "down"; the clock advances by one
    millisecond per reading. *)
Definition exampleWorld : World :=
  {|
    clientQuery := fun _ _ sql =>
      if includes "down" sql then Throw "catalog unavailable"
      else Return [Chunk (Some ["Table"]) (Some [[JStr "t1"]])];
    dateNow := fun n => Z.of_nat n;
    numberToString := fun _ => "0"
  |}.

Definition exampleState : state :=
  State (Pool.constructor None None)
        ("lakehouse", "gold") [("down", "global"); ("database", "global")]
        None Cache.constructor [] 0.

End Gateway.

(* ===================================================================== *)
(** * The controller: conversation history and table names *)
(* ===================================================================== *)

Module Controller.
Import JS Forecast Gateway.
Local Open Scope string_scope.
Local Open Scope list_scope.

(** An entry of a conversation: [{ role: "user", content }] with the
    text of the request, or [{ role: "assistant", content }] with whatever
    the branch taken puts there. *)
Inductive message (C : Type) : Type :=
| UserMessage (content : string)
| AssistantMessage (content : C).
Arguments UserMessage {C} _.
Arguments AssistantMessage {C} _.

(** [history.slice(-n)] *)
Definition sliceLast {A : Type} (n : nat) (l : list A) : list A :=
  skipn (length l - n) l.

(** How far a [chat] request gets: [generateSQL] throws; or it returns
    [null] (the reply text was the JSON [null]), so that reading
    [aiResponse.type] throws after the user entry has been pushed; or one
    of the branches pushes an assistant entry with some content. *)
Inductive reply (C : Type) : Type :=
| Rejected
| NullReply
| Answered (assistantContent : C).
Arguments Rejected {C}.
Arguments NullReply {C}.
Arguments Answered {C} _.

Section Conversations.
Context {C : Type}.

(** What [exports.chat] does to [conversations].  [sessionId = None] is a
    request without a session id.  An empty message is answered with
    status 400 before anything is touched; the history of the session is
    created empty when absent; the cut to the last 20 entries is reached
    only when an assistant entry was pushed. *)
Definition chat (sessionId : option string) (userMessage : string) (r : reply C)
    (conversations : gmap string (list (message C)))
  : gmap string (list (message C)) :=
  if String.eqb userMessage EmptyString then conversations
  else
    let sessionId := default "default" sessionId in
    let history := default [] (conversations !! sessionId) in
    match r with
    | Rejected => <[sessionId := history]> conversations
    | NullReply => <[sessionId := history ++ [UserMessage userMessage]]> conversations
    | Answered assistantContent =>
        let history :=
          history ++ [UserMessage userMessage; AssistantMessage assistantContent] in
        if (20 <? length history)%nat
        then <[sessionId := sliceLast 20 history]> conversations
        else <[sessionId := history]> conversations
    end.

(** [exports.clearHistory] *)
Definition clearHistory (sessionId : option string)
    (conversations : gmap string (list (message C)))
  : gmap string (list (message C)) :=
  delete (default "default" sessionId) conversations.

Inductive event : Type :=
| Chat (sessionId : option string) (userMessage : string) (r : reply C)
| ClearHistory (sessionId : option string).

Definition handle (conversations : gmap string (list (message C))) (e : event)
  : gmap string (list (message C)) :=
  match e with
  | Chat sid u r => chat sid u r conversations
  | ClearHistory sid => clearHistory sid conversations
  end.

Definition handleAll (events : list event)
    (conversations : gmap string (list (message C)))
  : gmap string (list (message C)) :=
  fold_left handle events conversations.

(** User and assistant entries in turn, starting with the user. *)
Fixpoint alternates (history : list (message C)) : bool :=
  match history with
  | [] => true
  | UserMessage _ :: AssistantMessage _ :: rest => alternates rest
  | _ => false
  end.

Definition isNullReply (e : event) : bool :=
  match e with
  | Chat _ _ NullReply => true
  | _ => false
  end.

End Conversations.
Arguments event : clear implicits.

(** The name check of [exports.getTableSchema]: a status 400 with its
    error text, or the three parts handed to the service. *)
Definition tableNameParts (tableName : string)
  : string + (string * string * string) :=
  if String.eqb tableName EmptyString then inl "Table name is required"
  else
    match split "." tableName with
    | [catalog; schema; table] => inr (catalog, schema, table)
    | _ => inl "Table name should be in format: catalog.schema.table"
    end.

End Controller.

(* ===================================================================== *)
(** * Theorems *)
(* ===================================================================== *)

Module JSFacts.
Import JS.

#[local] Arguments String.append !_ _ / : simpl nomatch.

Example trim_inner_space : trim "  a  b  " = "a  b"%string.
Proof. reflexivity. Qed.

Example trim_line_breaks :
  trim (String (ascii_of_N 10) (String (ascii_of_N 9) (String "x" (String (ascii_of_N 160) ""))))
  = "x"%string.
Proof. reflexivity. Qed.

Example toLowerCase_mixed : toLowerCase "Order_DATE 1" = "order_date 1"%string.
Proof. reflexivity. Qed.

Example includes_date :
  includes "date" (toLowerCase "Order_DATE") = true /\
  includes "date" (toLowerCase "day") = false.
Proof. split; reflexivity. Qed.

Lemma codeUnit_bound (c : ascii) : (codeUnit c < 256)%N.
Proof. unfold codeUnit. apply N_ascii_bounded. Qed.

Ltac split_leb :=
  repeat match goal with
    | H : context [ (?a <=? ?b)%N ] |- _ => destruct (N.leb_spec a b)
    | H : context [ (?a =? ?b)%N ] |- _ => destruct (N.eqb_spec a b)
    | |- context [ (?a <=? ?b)%N ] => destruct (N.leb_spec a b)
    | |- context [ (?a =? ?b)%N ] => destruct (N.eqb_spec a b)
    end.

Lemma trimStart_spaces (ws t : string) :
  allWhiteSpace ws = true -> trimStart (String.append ws t) = trimStart t.
Proof.
  induction ws as [|c ws IH]; simpl; [reflexivity |].
  intros H. apply andb_true_iff in H as [-> H]. auto.
Qed.

Lemma trimStart_all_spaces (ws : string) :
  allWhiteSpace ws = true -> trimStart ws = EmptyString.
Proof.
  induction ws as [|c ws IH]; simpl; [reflexivity |].
  intros H. apply andb_true_iff in H as [-> H]. auto.
Qed.

Lemma trimEnd_all_spaces (ws : string) :
  allWhiteSpace ws = true -> trimEnd ws = EmptyString.
Proof.
  induction ws as [|c ws IH]; simpl; [reflexivity |].
  intros H. apply andb_true_iff in H as [-> H]. now rewrite IH.
Qed.

Lemma trimEnd_spaces (s ws : string) :
  allWhiteSpace ws = true -> trimEnd (String.append s ws) = trimEnd s.
Proof.
  intros H. induction s as [|c s IH]; simpl.
  - now apply trimEnd_all_spaces.
  - now rewrite IH.
Qed.

(** Whitespace around a text does not survive [trim]. *)
Lemma trim_spaces (a s b : string) :
  allWhiteSpace a = true -> allWhiteSpace b = true ->
  trim (concat3 a s b) = trim s.
Proof.
  intros Ha Hb. unfold trim, concat3. rewrite trimStart_spaces by assumption.
  induction s as [|c s IH]; simpl.
  - rewrite (trimStart_all_spaces b Hb). reflexivity.
  - destruct (isWhiteSpace c); [exact IH |].
    change (String c (String.append s b)) with (String.append (String c s) b).
    now apply trimEnd_spaces.
Qed.

Lemma isWhiteSpace_lowerChar (c : ascii) :
  isWhiteSpace (lowerChar c) = isWhiteSpace c.
Proof. destruct c as [[] [] [] [] [] [] [] []]; reflexivity. Qed.

Lemma toLowerCase_trimStart (s : string) :
  toLowerCase (trimStart s) = trimStart (toLowerCase s).
Proof.
  induction s as [|c s IH]; simpl; [reflexivity |].
  rewrite isWhiteSpace_lowerChar. destruct (isWhiteSpace c); [exact IH | reflexivity].
Qed.

Lemma toLowerCase_trimEnd (s : string) :
  toLowerCase (trimEnd s) = trimEnd (toLowerCase s).
Proof.
  induction s as [|c s IH]; simpl; [reflexivity |].
  rewrite <- IH, isWhiteSpace_lowerChar.
  destruct (trimEnd s); simpl; [destruct (isWhiteSpace c) |]; reflexivity.
Qed.

Lemma toLowerCase_trim (s : string) :
  toLowerCase (trim s) = trim (toLowerCase s).
Proof. unfold trim. now rewrite toLowerCase_trimEnd, toLowerCase_trimStart. Qed.

(** A run of one letter is its own trimmed, lower-case form. *)
Lemma trim_repeatChar_a (n : nat) : trim (repeatChar "a" n) = repeatChar "a" n.
Proof.
  unfold trim. replace (trimStart (repeatChar "a" n)) with (repeatChar "a" n)
    by (destruct n; reflexivity).
  induction n as [|n IH]; [reflexivity |].
  simpl. simpl in IH. rewrite IH. destruct n; reflexivity.
Qed.

Lemma toLowerCase_repeatChar_a (n : nat) :
  toLowerCase (repeatChar "a" n) = repeatChar "a" n.
Proof. induction n as [|n IH]; simpl; [reflexivity | now rewrite IH]. Qed.

Lemma length_repeatChar (c : ascii) (n : nat) :
  String.length (repeatChar c n) = n.
Proof. induction n as [|n IH]; simpl; [reflexivity | now rewrite IH]. Qed.

End JSFacts.

Module ValidatorFacts.
Import JS Validator JSFacts.

#[local] Arguments String.append !_ _ / : simpl nomatch.


(** ** Letters and whitespace *)

Lemma canonicalize_upper (p : ascii) :
  isUpperLetter p = true -> canonicalize p = codeUnit p.
Proof.
  unfold isUpperLetter, canonicalize. intros H.
  split_leb; simpl in *; try discriminate; try lia; reflexivity.
Qed.

Lemma sameLetter_not_space (p c : ascii) :
  isUpperLetter p = true -> sameLetter p c = true -> isWhiteSpace c = false.
Proof.
  intros Hp. unfold sameLetter. rewrite (canonicalize_upper p Hp).
  unfold isUpperLetter in Hp. unfold canonicalize, isWhiteSpace.
  pose proof (codeUnit_bound c). intros H1.
  split_leb; simpl in *; try discriminate; try lia; reflexivity.
Qed.

(** ** The matcher on patterns of the form [^\s*VERB\s] *)

Lemma matchHere_letters (l : list ascii) (re : regex) (s : string) :
  matchHere (map Letter l ++ re) s = true <->
  exists w rest, s = String.append w rest /\
                 sameWord (string_of_list_ascii l) w = true /\
                 matchHere re rest = true.
Proof.
  revert s. induction l as [|p l IH]; intros s; simpl.
  - split.
    + intros H. exists EmptyString, s. auto.
    + intros (w & rest & -> & Hw & Hr). destruct w; [assumption | discriminate].
  - destruct s as [|c s].
    + split; [discriminate |].
      intros (w & rest & Hs & Hw & _). destruct w; discriminate.
    + rewrite andb_true_iff, IH. split.
      * intros (Hpc & w & rest & -> & Hw & Hr).
        exists (String c w), rest. simpl. rewrite Hpc, Hw. auto.
      * intros (w & rest & Hs & Hw & Hr). destruct w as [|c' w]; [discriminate |].
        simpl in Hs. injection Hs as -> ->.
        apply andb_true_iff in Hw as [Hpc Hw].
        split; [assumption |]. exists w, rest. auto.
Qed.

Lemma matchHere_star (re : regex) (s : string) :
  matchHere (SpaceStar :: re) s = true <->
  exists ws rest, s = String.append ws rest /\ allWhiteSpace ws = true /\
                  matchHere re rest = true.
Proof.
  induction s as [|c s IH].
  - simpl. split.
    + intros H. exists EmptyString, EmptyString. auto.
    + intros (ws & rest & Hs & _ & Hr).
      destruct ws; [| discriminate]. simpl in Hs. now subst.
  - change (matchHere (SpaceStar :: re) (String c s))
      with (isWhiteSpace c && matchHere (SpaceStar :: re) s
            || matchHere re (String c s)).
    rewrite orb_true_iff, andb_true_iff, IH. split.
    + intros [(Hc & ws & rest & -> & Hws & Hr) | H].
      * exists (String c ws), rest. simpl. rewrite Hc, Hws. auto.
      * exists EmptyString, (String c s). auto.
    + intros (ws & rest & Hs & Hws & Hr). destruct ws as [|c' ws].
      * simpl in Hs. subst rest. now right.
      * simpl in Hs, Hws. injection Hs as -> ->.
        apply andb_true_iff in Hws as [Hc Hws]. left.
        split; [assumption |]. exists ws, rest. auto.
Qed.

Lemma matchHere_space (s : string) :
  matchHere [Space] s = true <->
  exists c rest, s = String c rest /\ isWhiteSpace c = true.
Proof.
  destruct s as [|c s]; simpl.
  - split; [discriminate | intros (? & ? & ? & _); discriminate].
  - rewrite andb_true_r. split; [eauto |].
    now intros (c' & rest & [= -> ->] & H).
Qed.

Lemma string_of_list_of_string (v : string) :
  string_of_list_ascii (list_ascii_of_string v) = v.
Proof. apply string_of_list_ascii_of_string. Qed.

Lemma test_verbPattern (v sql : string) :
  test (verbPattern v) sql = true <-> beginsWithWord v sql.
Proof.
  unfold test, verbPattern, beginsWithWord, concat3.
  rewrite matchHere_star. split.
  - intros (ws & t & -> & Hws & Ht).
    apply matchHere_letters in Ht as (w & t' & -> & Hw & Hsp).
    rewrite string_of_list_of_string in Hw.
    apply matchHere_space in Hsp as (c & rest & -> & Hc).
    exists ws, w, c, rest. auto.
  - intros (ws & w & c & rest & -> & Hws & Hw & Hc).
    exists ws, (String.append w (String c rest)). repeat split; auto.
    apply matchHere_letters. exists w, (String c rest).
    rewrite string_of_list_of_string. repeat split; auto.
    apply matchHere_space. eauto.
Qed.

(** ** Two clashing verbs cannot both lead a statement *)

Lemma trimStart_word (v w t : string) :
  upperWord v = true -> sameWord v w = true -> v <> EmptyString ->
  trimStart (String.append w t) = String.append w t.
Proof.
  destruct v as [|p v], w as [|c w]; simpl; try discriminate; try congruence.
  intros Hv Hw _. apply andb_true_iff in Hv as [Hp _].
  apply andb_true_iff in Hw as [Hpc _].
  now rewrite (sameLetter_not_space p c Hp Hpc).
Qed.

Lemma sameWord_clash (v1 v2 w1 w2 t1 t2 : string) :
  sameWord v1 w1 = true -> sameWord v2 w2 = true ->
  String.append w1 t1 = String.append w2 t2 -> clash v1 v2 = false.
Proof.
  revert v2 w1 w2. induction v1 as [|a v1 IH]; intros v2 w1 w2 H1 H2 E.
  - reflexivity.
  - destruct v2 as [|b v2]; [reflexivity |].
    destruct w1 as [|c w1]; [discriminate |].
    destruct w2 as [|d w2]; [discriminate |].
    simpl in *. injection E as <- E.
    apply andb_true_iff in H1 as [Ha H1]. apply andb_true_iff in H2 as [Hb H2].
    unfold sameLetter in Ha, Hb.
    apply N.eqb_eq in Ha, Hb. rewrite Ha, Hb, N.eqb_refl. simpl. eauto.
Qed.

Lemma clash_nonempty (v1 v2 : string) :
  clash v1 v2 = true -> v1 <> EmptyString /\ v2 <> EmptyString.
Proof. destruct v1, v2; simpl; try discriminate; split; discriminate. Qed.

Lemma beginsWithWord_beginsWith (v sql : string) :
  beginsWithWord v sql -> beginsWith v sql.
Proof.
  intros (ws & w & c & rest & E & S & W & _). exists ws, w, (String c rest). auto.
Qed.

Lemma beginsWith_exclusive (v1 v2 sql : string) :
  upperWord v1 = true -> upperWord v2 = true -> clash v1 v2 = true ->
  beginsWith v1 sql -> ~ beginsWith v2 sql.
Proof.
  intros U1 U2 C (ws1 & w1 & r1 & E1 & S1 & W1) (ws2 & w2 & r2 & E2 & S2 & W2).
  destruct (clash_nonempty _ _ C) as [N1 N2].
  assert (T1 : trimStart sql = String.append w1 r1).
  { rewrite E1. unfold concat3. rewrite trimStart_spaces by assumption.
    now apply (trimStart_word v1). }
  assert (T2 : trimStart sql = String.append w2 r2).
  { rewrite E2. unfold concat3. rewrite trimStart_spaces by assumption.
    now apply (trimStart_word v2). }
  rewrite T1 in T2.
  rewrite (sameWord_clash _ _ _ _ _ _ W1 W2 T2) in C. discriminate.
Qed.

Lemma verbs_upper :
  forallb upperWord (forbiddenVerbs ++ allowedVerbs) = true.
Proof. reflexivity. Qed.

Lemma verbs_clash :
  forallb (fun a => forallb (clash a) forbiddenVerbs) allowedVerbs = true.
Proof. reflexivity. Qed.

Lemma existsb_test (verbs : list string) (sql : string) :
  existsb (fun pattern => test pattern sql) (map verbPattern verbs) = true <->
  exists v, In v verbs /\ beginsWithWord v sql.
Proof.
  rewrite existsb_exists. split.
  - intros (re & Hin & Ht). apply in_map_iff in Hin as (v & <- & Hv).
    exists v. split; [assumption |]. now apply test_verbPattern.
  - intros (v & Hv & Hb). exists (verbPattern v). split.
    + now apply in_map.
    + now apply test_verbPattern.
Qed.

Lemma verbs_facts (a f : string) :
  In a allowedVerbs -> In f forbiddenVerbs ->
  upperWord a = true /\ upperWord f = true /\ clash a f = true.
Proof.
  intros Ha Hf.
  pose proof verbs_upper as U. rewrite forallb_app in U.
  apply andb_true_iff in U as [UF UA].
  rewrite forallb_forall in UF, UA.
  pose proof verbs_clash as C. rewrite forallb_forall in C.
  specialize (C a Ha). rewrite forallb_forall in C. auto.
Qed.

Lemma allowed_not_forbidden (a sql : string) :
  In a allowedVerbs -> beginsWith a sql ->
  existsb (fun pattern => test pattern sql) forbiddenPatterns = false.
Proof.
  intros Ha Hb. apply not_true_is_false. intros H.
  apply existsb_test in H as (f & Hf & Hfb).
  destruct (verbs_facts a f Ha Hf) as (UA & UF & C).
  exact (beginsWith_exclusive a f sql UA UF C Hb
           (beginsWithWord_beginsWith _ _ Hfb)).
Qed.

Lemma forbidden_not_allowed (f sql : string) :
  In f forbiddenVerbs -> beginsWith f sql ->
  existsb (fun pattern => test pattern sql) allowedPatterns = false.
Proof.
  intros Hf Hb. apply not_true_is_false. intros H.
  apply existsb_test in H as (a & Ha & Hab).
  destruct (verbs_facts a f Ha Hf) as (UA & UF & C).
  exact (beginsWith_exclusive a f sql UA UF C
           (beginsWithWord_beginsWith _ _ Hab) Hb).
Qed.

Example validate_select : validateReadOnly "  select 1" = Return true.
Proof. reflexivity. Qed.

Example validate_drop :
  validateReadOnly "DROP TABLE x; SELECT 1" = Throw writeForbidden.
Proof. reflexivity. Qed.

Example validate_select_star :
  validateReadOnly "SELECT*FROM t" = Throw notPermitted.
Proof. reflexivity. Qed.

Example validate_call : validateReadOnly "CALL p()" = Throw notPermitted.
Proof. reflexivity. Qed.

(** C1, as the specification words it, does not hold: a statement that
    begins with an allowed verb is rejected when no whitespace follows the
    verb, and one that begins with a forbidden verb is then rejected with
    the statement-type-not-permitted reason. *)
Lemma validateReadOnly_leading_verb_counterexample :
  (beginsWith "SELECT" "SELECT*FROM t" /\
   validateReadOnly "SELECT*FROM t" <> Return true) /\
  (beginsWith "DROP" "drop/**/table x" /\
   validateReadOnly "drop/**/table x" <> Throw writeForbidden).
Proof.
  split; split.
  - exists ""%string, "SELECT"%string, "*FROM t"%string. auto.
  - discriminate.
  - exists ""%string, "drop"%string, "/**/table x"%string. auto.
  - discriminate.
Qed.

(** C1 (amended): a statement whose leading verb is followed by a
    whitespace character is accepted when the verb is select, with, show,
    describe or explain, and rejected with the write-operation-forbidden
    reason when the verb is one of the ten write verbs, whatever comes
    after; a statement that begins with a write verb is never accepted;
    the forbidden patterns are tried first; a statement matching no
    pattern is rejected with the statement-type-not-permitted reason. *)
Theorem validateReadOnly_leading_word :
  (forall sql,
     (forall v, In v allowedVerbs -> beginsWithWord v sql ->
                validateReadOnly sql = Return true) /\
     (forall v, In v forbiddenVerbs -> beginsWithWord v sql ->
                validateReadOnly sql = Throw writeForbidden) /\
     (forall v, In v forbiddenVerbs -> beginsWith v sql ->
                validateReadOnly sql = Throw writeForbidden \/
                validateReadOnly sql = Throw notPermitted) /\
     (existsb (fun pattern => test pattern sql) forbiddenPatterns = true ->
      validateReadOnly sql = Throw writeForbidden) /\
     ((forall v, In v (forbiddenVerbs ++ allowedVerbs) ->
                 ~ beginsWithWord v sql) ->
      validateReadOnly sql = Throw notPermitted)) /\
  validateReadOnly "DROP TABLE x; SELECT 1" = Throw writeForbidden.
Proof.
  split; [| reflexivity].
  intros sql. unfold validateReadOnly. repeat split.
  - intros v Hv Hb.
    rewrite (allowed_not_forbidden v sql Hv (beginsWithWord_beginsWith _ _ Hb)).
    replace (existsb (fun pattern => test pattern sql) allowedPatterns)
      with true; [reflexivity |].
    symmetry. apply existsb_test. eauto.
  - intros v Hv Hb.
    replace (existsb (fun pattern => test pattern sql) forbiddenPatterns)
      with true; [reflexivity |].
    symmetry. apply existsb_test. eauto.
  - intros v Hv Hb. rewrite (forbidden_not_allowed v sql Hv Hb).
    destruct (existsb _ forbiddenPatterns); auto.
  - intros ->. reflexivity.
  - intros Hnone.
    assert (F : existsb (fun pattern => test pattern sql) forbiddenPatterns
                = false).
    { apply not_true_is_false. intros H.
      apply existsb_test in H as (v & Hv & Hb).
      apply (Hnone v); [apply in_or_app; auto | assumption]. }
    assert (A : existsb (fun pattern => test pattern sql) allowedPatterns
                = false).
    { apply not_true_is_false. intros H.
      apply existsb_test in H as (v & Hv & Hb).
      apply (Hnone v); [apply in_or_app; auto | assumption]. }
    rewrite F, A. reflexivity.
Qed.

(** The theorem at ["  select 1"], ["Insert into t values (1)"] and
    ["CALL p()"]. *)
Lemma validateReadOnly_leading_word_witness :
  validateReadOnly "  select 1" = Return true /\
  validateReadOnly "Insert into t values (1)" = Throw writeForbidden.
Proof.
  split.
  - apply (proj1 (proj1 validateReadOnly_leading_word "  select 1"%string)
             "SELECT"%string).
    + simpl. auto.
    + exists "  "%string, "select"%string, " "%char, "1"%string. auto.
  - apply (proj1 (proj2 (proj1 validateReadOnly_leading_word
                           "Insert into t values (1)"%string))
             "INSERT"%string).
    + simpl. auto.
    + exists ""%string, "Insert"%string, " "%char, "into t values (1)"%string.
      auto.
Defined.

End ValidatorFacts.

Module MD5Facts.
Import JS MD5.

Example md5_empty : md5hex "" = "d41d8cd98f00b204e9800998ecf8427e"%string.
Proof. vm_compute. reflexivity. Qed.

Example md5_a : md5hex "a" = "0cc175b9c0f1b6a831c399e269772661"%string.
Proof. vm_compute. reflexivity. Qed.

Example md5_abc : md5hex "abc" = "900150983cd24fb0d6963f7d28e17f72"%string.
Proof. vm_compute. reflexivity. Qed.

Example md5_select_1 :
  md5hex "select 1" = "95adb6e77a0884d9e50232cb8c5c969d"%string.
Proof. vm_compute. reflexivity. Qed.

(** 55, 56, 64, 119 and 120 bytes: the block boundaries of the padding. *)
Example md5_boundaries :
  map (fun n => hex (md5 (repeat 120%Z n))) [55; 56; 64; 119; 120]%nat =
  ["04364420e25c512fd958a70738aa8f72"; "668a72d5ba17f08e62dabcafad6db14b";
   "c1bb4f81d892b2d57947682aeb252456"; "ab347a5f68c8a443cfcddc633f12c24f";
   "fb98667f98096de92620b64f46e1c5b5"]%string.
Proof. vm_compute. reflexivity. Qed.

(** A code unit above 127 is hashed as its two UTF-8 bytes (U+00E9). *)
Example md5_latin1 :
  md5hex (String "s" (String (ascii_of_N 233) "lect")) =
  "522b142535d1a294d259a9eec6b1785a"%string.
Proof. vm_compute. reflexivity. Qed.

(** ** Digests are 128-bit numbers *)

Lemma add32_range (a b : Z) : (0 <= add32 a b < 2 ^ 32)%Z.
Proof. unfold add32, wrap32. apply Z.mod_pos_bound. reflexivity. Qed.

Lemma processBlock_range (st : state) (block : list Z) :
  inRange (processBlock st block).
Proof.
  unfold processBlock.
  destruct (fold_left (step (words 16 block)) (seq 0 64) st) as [a b c d].
  unfold inRange, word32. simpl. repeat split; apply add32_range.
Qed.

Lemma processBlocks_range (n : nat) (st : state) (bytes : list Z) :
  inRange st -> inRange (processBlocks n st bytes).
Proof.
  revert st bytes. induction n as [|n IH]; intros st bytes Hst; simpl.
  - exact Hst.
  - apply IH. apply processBlock_range.
Qed.

Lemma md5_range (msg : list Z) : inRange (md5 msg).
Proof.
  unfold md5. apply processBlocks_range.
  unfold inRange, word32, initial. simpl. lia.
Qed.

Lemma digestInt_range (st : state) :
  inRange st -> (0 <= digestInt st < 2 ^ 128)%Z.
Proof.
  unfold inRange, word32, digestInt. destruct st as [a b c d]. simpl.
  change (2 ^ 32)%Z with 4294967296%Z.
  change (2 ^ 64)%Z with 18446744073709551616%Z.
  change (2 ^ 96)%Z with 79228162514264337593543950336%Z.
  change (2 ^ 128)%Z with 340282366920938463463374607431768211456%Z.
  lia.
Qed.

Lemma digestInt_inj (s1 s2 : state) :
  inRange s1 -> inRange s2 -> digestInt s1 = digestInt s2 -> s1 = s2.
Proof.
  unfold inRange, word32, digestInt.
  destruct s1 as [a b c d], s2 as [a' b' c' d']. simpl.
  change (2 ^ 32)%Z with 4294967296%Z.
  change (2 ^ 64)%Z with 18446744073709551616%Z.
  change (2 ^ 96)%Z with 79228162514264337593543950336%Z.
  intros (Ha & Hb & Hc & Hd) (Ha' & Hb' & Hc' & Hd') E.
  assert (d = d') by lia. subst d'.
  assert (c = c') by lia. subst c'.
  assert (b = b') by lia. subst b'.
  assert (a = a') by lia. now subst a'.
Qed.

(** ** More inputs than digests *)

(** Among [m + 1] values below [m], two are equal. *)
Lemma pigeonhole (m : nat) (f : nat -> nat) :
  (forall i, (i <= m)%nat -> (f i < m)%nat) ->
  exists i j, (i < j <= m)%nat /\ f i = f j.
Proof.
  revert f. induction m as [|m IH]; intros f Hf.
  - specialize (Hf 0%nat (le_n 0)). lia.
  - assert (Hdec : (exists i, (i <= m)%nat /\ f i = f (S m)) \/
                   (forall i, (i <= m)%nat -> f i <> f (S m))).
    { clear IH Hf. generalize (f (S m)) as target. intros target.
      induction m as [|m IHm].
      - destruct (Nat.eq_dec (f 0%nat) target) as [E|N].
        + left. exists 0%nat. auto.
        + right. intros i Hi. now replace i with 0%nat by lia.
      - destruct IHm as [(i & Hi & E)|Hnone].
        + left. exists i. split; [lia | exact E].
        + destruct (Nat.eq_dec (f (S m)) target) as [E|N].
          * left. exists (S m). auto.
          * right. intros i Hi.
            destruct (Nat.eq_dec i (S m)) as [->|]; [exact N |].
            apply Hnone. lia. }
    destruct Hdec as [(i & Hi & E)|Hnone].
    + exists i, (S m). split; [lia | exact E].
    + set (g := fun i => if (f i <? f (S m))%nat then f i else (f i - 1)%nat).
      destruct (IH g) as (i & j & Hij & E).
      { intros i Hi. unfold g.
        pose proof (Hf i ltac:(lia)). pose proof (Hf (S m) ltac:(lia)).
        pose proof (Hnone i Hi).
        destruct (Nat.ltb_spec (f i) (f (S m))); lia. }
      exists i, j. split; [lia |].
      pose proof (Hnone i ltac:(lia)). pose proof (Hnone j ltac:(lia)).
      unfold g in E.
      destruct (Nat.ltb_spec (f i) (f (S m)));
        destruct (Nat.ltb_spec (f j) (f (S m))); lia.
Qed.

(** Any family of messages indexed by the natural numbers has two members
    with the same digest among the first [2 ^ 128 + 1]. *)
Lemma md5_collision (message : nat -> list Z) :
  exists i j, (i < j)%nat /\ md5 (message i) = md5 (message j).
Proof.
  set (m := Z.to_nat (2 ^ 128)).
  destruct (pigeonhole m (fun i => Z.to_nat (digestInt (md5 (message i)))))
    as (i & j & Hij & E).
  - intros i _. pose proof (digestInt_range _ (md5_range (message i))).
    unfold m. apply Z2Nat.inj_lt; lia.
  - exists i, j. split; [lia |].
    apply digestInt_inj; try apply md5_range.
    pose proof (digestInt_range _ (md5_range (message i))).
    pose proof (digestInt_range _ (md5_range (message j))).
    apply Z2Nat.inj; lia.
Qed.

End MD5Facts.

Module CacheFacts.
Import JS Cache.

(** ** The insertion-ordered map *)

Section MapFacts.
Context {A : Type}.
Implicit Types (m : list (string * A)) (k : string) (v : A).

Lemma map_get_set_eq k v m : map_get k (map_set k v m) = Some v.
Proof.
  induction m as [|[k' v'] m IH]; simpl.
  - now rewrite String.eqb_refl.
  - destruct (String.eqb_spec k k') as [->|Hne]; simpl.
    + now rewrite String.eqb_refl.
    + destruct (String.eqb_spec k k'); [contradiction | assumption].
Qed.

Lemma map_get_delete_eq k m : map_get k (map_delete k m) = None.
Proof.
  induction m as [|[k' v'] m IH]; simpl; [reflexivity |].
  destruct (String.eqb_spec k k') as [->|Hne]; simpl; [assumption |].
  destruct (String.eqb_spec k k'); [contradiction | assumption].
Qed.

Lemma map_get_None k m : map_get k m = None <-> ~ In k (map_keys m).
Proof.
  induction m as [|[k' v'] m IH]; simpl; [tauto |].
  destruct (String.eqb_spec k k') as [->|Hne].
  - split; [discriminate | tauto].
  - rewrite IH. split; [intros H [E|I]; congruence | tauto].
Qed.

Lemma map_keys_set_new k v m :
  ~ In k (map_keys m) -> map_keys (map_set k v m) = map_keys m ++ [k].
Proof.
  induction m as [|[k' v'] m IH]; simpl; [reflexivity |].
  intros H. destruct (String.eqb_spec k k') as [->|Hne]; [tauto |].
  simpl. f_equal. apply IH. tauto.
Qed.

Lemma map_keys_set_old k v m :
  In k (map_keys m) -> map_keys (map_set k v m) = map_keys m.
Proof.
  induction m as [|[k' v'] m IH]; simpl; [tauto |].
  intros H. destruct (String.eqb_spec k k') as [->|Hne]; [reflexivity |].
  simpl. f_equal. apply IH. destruct H; congruence.
Qed.

Lemma map_keys_delete k m :
  map_keys (map_delete k m) =
  List.filter (fun k' => negb (String.eqb k k')) (map_keys m).
Proof.
  induction m as [|[k' v'] m IH]; simpl; [reflexivity |].
  destruct (String.eqb k k'); simpl; now rewrite IH.
Qed.

Lemma map_delete_absent k m : ~ In k (map_keys m) -> map_delete k m = m.
Proof.
  induction m as [|[k' v'] m IH]; simpl; [reflexivity |].
  intros H. destruct (String.eqb_spec k k') as [->|Hne]; [tauto |].
  simpl. f_equal. apply IH. tauto.
Qed.

(** Deleting the first key of a map with unique keys removes exactly the
    first entry. *)
Lemma map_delete_first k v m :
  List.NoDup (map_keys ((k, v) :: m)) -> map_delete k ((k, v) :: m) = m.
Proof.
  simpl. intros H. inversion H as [|? ? Hnot Hnd]; subst.
  rewrite String.eqb_refl. simpl. now apply map_delete_absent.
Qed.

Lemma length_map_keys m : length (map_keys m) = length m.
Proof. apply length_map. Qed.

Lemma NoDup_map_delete k m :
  List.NoDup (map_keys m) -> List.NoDup (map_keys (map_delete k m)).
Proof. rewrite map_keys_delete. apply List.NoDup_filter. Qed.

Lemma NoDup_map_set k v m :
  List.NoDup (map_keys m) -> List.NoDup (map_keys (map_set k v m)).
Proof.
  intros H. destruct (in_dec string_dec k (map_keys m)) as [Hin|Hnot].
  - now rewrite map_keys_set_old.
  - rewrite map_keys_set_new by assumption.
    apply List.NoDup_app; [assumption | | ].
    + constructor; [simpl; tauto | constructor].
    + intros x Hx [<-|[]]. contradiction.
Qed.

Lemma length_map_delete_le k m : (length (map_delete k m) <= length m)%nat.
Proof. apply List.filter_length_le. Qed.

Lemma length_map_set_le k v m : (length (map_set k v m) <= S (length m))%nat.
Proof.
  induction m as [|[k' v'] m IH]; simpl; [lia |].
  destruct (String.eqb k k'); simpl; lia.
Qed.

End MapFacts.

(** ** The service keeps its representation invariant *)

Section ServiceFacts.
Context {V : Type}.
Implicit Types (this : CacheService V) (sql : string) (v : V).

Lemma cache_wf_constructor : wf (@constructor V).
Proof. unfold wf, constructor. simpl. repeat split; [constructor | lia | lia]. Qed.

(** At capacity the map is not empty, and the eviction of [set] removes
    exactly its first entry. *)
Lemma set_at_capacity now now' sql v ttl this :
  wf this -> length (cache this) = maxSize this ->
  exists k0 it0 rest,
    cache this = (k0, it0) :: rest /\
    cache (set now now' sql v ttl this) =
    map_set (generateKey sql)
            (Item v (now + match ttl with Some t => t | None => defaultTTL this end)
                  now') rest.
Proof.
  intros (Hnd & Hle & Hpos) Hfull. unfold set. simpl.
  destruct (cache this) as [|[k0 it0] rest] eqn:E; simpl in *; [lia |].
  exists k0, it0, rest. split; [reflexivity |].
  destruct (Nat.leb_spec (maxSize this) (S (length rest))) as [_|Hlt]; [| lia].
  rewrite String.eqb_refl. simpl.
  inversion Hnd as [|? ? Hnot Hnd']; subst.
  now rewrite map_delete_absent.
Qed.

Lemma set_below_capacity now now' sql v ttl this :
  (length (cache this) < maxSize this)%nat ->
  cache (set now now' sql v ttl this) =
  map_set (generateKey sql)
          (Item v (now + match ttl with Some t => t | None => defaultTTL this end)
                now') (cache this).
Proof.
  intros Hlt. unfold set. simpl.
  destruct (Nat.leb_spec (maxSize this) (length (cache this))); [lia | reflexivity].
Qed.

Lemma maxSize_set now now' sql v ttl this :
  maxSize (set now now' sql v ttl this) = maxSize this.
Proof. reflexivity. Qed.

Lemma wf_set now now' sql v ttl this :
  wf this -> wf (set now now' sql v ttl this).
Proof.
  intros Hwf. pose proof Hwf as (Hnd & Hle & Hpos).
  unfold wf. rewrite maxSize_set.
  destruct (Nat.eq_dec (length (cache this)) (maxSize this)) as [Hfull|Hne].
  - destruct (set_at_capacity now now' sql v ttl this Hwf Hfull)
      as (k0 & it0 & rest & E & ->).
    rewrite E in Hnd, Hfull. simpl in Hnd, Hfull.
    inversion Hnd as [|? ? Hnot Hnd']; subst.
    repeat split; [now apply NoDup_map_set | | assumption].
    rewrite <- Hfull. apply length_map_set_le.
  - rewrite set_below_capacity by lia.
    repeat split; [now apply NoDup_map_set | | assumption].
    pose proof (length_map_set_le (generateKey sql)
      (Item v (now + match ttl with Some t => t | None => defaultTTL this end) now')
      (cache this)). lia.
Qed.

Lemma wf_get now sql this : wf this -> wf (snd (get now sql this)).
Proof.
  intros (Hnd & Hle & Hpos). unfold get.
  destruct (map_get _ _) as [it|]; [destruct (now >? expiresAt it)%Z |];
    unfold wf; simpl; repeat split; auto using NoDup_map_delete.
  pose proof (length_map_delete_le (generateKey sql) (cache this)). lia.
Qed.

Lemma wf_has now sql this : wf this -> wf (snd (has now sql this)).
Proof.
  intros (Hnd & Hle & Hpos). unfold has.
  destruct (map_get _ _) as [it|]; [destruct (now >? expiresAt it)%Z |];
    unfold wf; simpl; repeat split; auto using NoDup_map_delete.
  pose proof (length_map_delete_le (generateKey sql) (cache this)). lia.
Qed.

Lemma wf_clear this : wf this -> wf (clear this).
Proof.
  intros (Hnd & Hle & Hpos). unfold wf, clear. simpl.
  repeat split; [constructor | lia | assumption].
Qed.

End ServiceFacts.

(** ** Filling the cache *)

Section Filling.
Context {V : Type}.
Implicit Types (this : CacheService V) (r : Z * Z * string * V * option Z).

Lemma setAll_app reqs1 reqs2 this :
  setAll (reqs1 ++ reqs2) this = setAll reqs2 (setAll reqs1 this).
Proof. unfold setAll. apply fold_left_app. Qed.

Lemma maxSize_setAll reqs this : maxSize (setAll reqs this) = maxSize this.
Proof.
  revert this. induction reqs as [|[[[[now now'] sql] v] ttl] reqs IH];
    intros this; [reflexivity |].
  simpl. now rewrite IH.
Qed.

Lemma lastn_all {A : Type} (n : nat) (l : list A) :
  (length l <= n)%nat -> lastn n l = l.
Proof. intros H. unfold lastn. now replace (length l - n)%nat with 0%nat by lia. Qed.

Lemma lastn_app_lastn {A : Type} (n : nat) (a b : list A) :
  lastn n (lastn n a ++ b) = lastn n (a ++ b).
Proof.
  destruct (Nat.le_gt_cases (length a) n) as [Hle|Hgt].
  - now rewrite (lastn_all n a Hle).
  - unfold lastn. rewrite !length_app, List.length_skipn.
    replace (length a - (length a - n) + length b - n)%nat with (length b) by lia.
    replace (length a + length b - n)%nat with (length b + (length a - n))%nat by lia.
    rewrite <- List.skipn_skipn, (List.skipn_app (length a - n) a b).
    now replace (length a - n - length a)%nat with 0%nat by lia.
Qed.

(** One more key on a cache that does not hold it. *)
Lemma set_new_key now now' sql v ttl this :
  wf this -> ~ In (generateKey sql) (map_keys (cache this)) ->
  map_keys (cache (set now now' sql v ttl this)) =
  lastn (maxSize this) (map_keys (cache this) ++ [generateKey sql]).
Proof.
  intros Hwf Hnew. pose proof Hwf as (Hnd & Hle & Hpos).
  destruct (Nat.eq_dec (length (cache this)) (maxSize this)) as [Hfull|Hne].
  - destruct (set_at_capacity now now' sql v ttl this Hwf Hfull)
      as (k0 & it0 & rest & E & ->).
    rewrite E in Hnew, Hfull. simpl in Hnew, Hfull.
    rewrite map_keys_set_new by tauto. rewrite E. simpl.
    unfold lastn. simpl. rewrite length_app, length_map_keys. simpl.
    now replace (S (length rest + 1) - maxSize this)%nat with 1%nat by lia.
  - rewrite set_below_capacity by lia.
    rewrite map_keys_set_new by assumption.
    rewrite lastn_all; [reflexivity |].
    rewrite length_app, length_map_keys. simpl. lia.
Qed.

(** The cache is a bounded queue of keys: after any run of [set] calls
    with new, pairwise different keys it holds the last [maxSize] keys of
    the whole history, oldest first. *)
Lemma setAll_fifo reqs this :
  wf this ->
  List.NoDup (map_keys (cache this) ++ map reqKey reqs) ->
  map_keys (cache (setAll reqs this)) =
  lastn (maxSize this) (map_keys (cache this) ++ map reqKey reqs).
Proof.
  revert this. induction reqs as [|[[[[now now'] sql] v] ttl] reqs IH];
    intros this Hwf Hnd.
  - simpl. rewrite app_nil_r. symmetry. apply lastn_all.
    rewrite length_map_keys. apply Hwf.
  - change (setAll (_ :: reqs) this)
      with (setAll reqs (set now now' sql v ttl this)).
    simpl in Hnd.
    assert (Hnew : ~ In (generateKey sql) (map_keys (cache this))).
    { apply NoDup_remove_2 in Hnd. intros Hin. apply Hnd.
      apply in_or_app. now left. }
    pose proof (set_new_key now now' sql v ttl this Hwf Hnew) as Hkeys.
    rewrite IH.
    + rewrite maxSize_set, Hkeys, lastn_app_lastn, <- app_assoc. reflexivity.
    + now apply wf_set.
    + rewrite Hkeys. unfold lastn.
      change (map_keys (cache this) ++ generateKey sql :: map reqKey reqs)
        with (map_keys (cache this) ++ [generateKey sql] ++ map reqKey reqs) in Hnd.
      rewrite app_assoc in Hnd.
      rewrite <- (List.firstn_skipn
                    (length (map_keys (cache this) ++ [generateKey sql])
                     - maxSize this)
                    (map_keys (cache this) ++ [generateKey sql])) in Hnd.
      rewrite <- app_assoc in Hnd.
      now apply NoDup_app_remove_l in Hnd.
Qed.

End Filling.

(** C3: the cache never holds more than [maxSize] entries (the invariant
    [wf] holds initially and every operation keeps it); a [set] at
    capacity evicts exactly the oldest-inserted entry before it inserts;
    and storing [maxSize + 1] queries with pairwise different keys, none
    of them resident before (as in an empty cache), leaves exactly
    [maxSize] entries, the first-inserted key being absent and the others
    resident in insertion order. *)
Theorem cache_capacity {V : Type} :
  wf (@constructor V) /\
  (forall (this : CacheService V), wf this ->
     (length (cache this) <= maxSize this)%nat /\
     (forall now now' sql v ttl, wf (set now now' sql v ttl this)) /\
     (forall now sql, wf (snd (get now sql this))) /\
     (forall now sql, wf (snd (has now sql this))) /\
     wf (clear this)) /\
  (forall (this : CacheService V) now now' sql v ttl,
     wf this -> length (cache this) = maxSize this ->
     exists oldest rest newItem,
       cache this = oldest :: rest /\
       value newItem = v /\
       cache (set now now' sql v ttl this) =
       map_set (generateKey sql) newItem rest /\
       (length (cache (set now now' sql v ttl this)) <= maxSize this)%nat) /\
  (forall (this : CacheService V) reqs first,
     wf this ->
     List.NoDup (map_keys (cache this) ++ map reqKey reqs) ->
     length reqs = S (maxSize this) ->
     hd_error reqs = Some first ->
     length (cache (setAll reqs this)) = maxSize this /\
     map_get (reqKey first) (cache (setAll reqs this)) = None /\
     map_keys (cache (setAll reqs this)) = tl (map reqKey reqs)).
Proof.
  split; [apply cache_wf_constructor |]. split; [| split].
  - intros this Hwf.
    split; [apply Hwf |].
    split; [intros; now apply wf_set |].
    split; [intros; now apply wf_get |].
    split; [intros; now apply wf_has | now apply wf_clear].
  - intros this now now' sql v ttl Hwf Hfull.
    destruct (set_at_capacity now now' sql v ttl this Hwf Hfull)
      as (k0 & it0 & rest & E & E').
    eexists (k0, it0), rest, _. repeat split; [exact E | | exact E' |].
    + reflexivity.
    + pose proof (wf_set now now' sql v ttl this Hwf) as (_ & Hle & _).
      now rewrite maxSize_set in Hle.
  - intros this reqs first Hwf Hnd Hlen Hfirst.
    assert (Hkeys : map_keys (cache (setAll reqs this)) = tl (map reqKey reqs)).
    { rewrite (setAll_fifo reqs this Hwf Hnd). unfold lastn.
      rewrite length_app, length_map, Hlen.
      replace (length (map_keys (cache this)) + S (maxSize this) - maxSize this)%nat
        with (length (map_keys (cache this)) + 1)%nat by lia.
      rewrite List.skipn_app.
      rewrite List.skipn_all2 by lia.
      replace (length (map_keys (cache this)) + 1 - length (map_keys (cache this)))%nat
        with 1%nat by lia.
      destruct reqs; reflexivity. }
    destruct reqs as [|r reqs]; [discriminate |].
    simpl in Hfirst, Hlen, Hnd. injection Hfirst as <-.
    split; [| split; [| exact Hkeys]].
    + rewrite <- length_map_keys, Hkeys. simpl. rewrite length_map. lia.
    + apply map_get_None. rewrite Hkeys. simpl.
      apply NoDup_app_remove_l in Hnd.
      now inversion Hnd.
Qed.

(** The theorem on a cache of capacity 2 that receives three queries. *)
Lemma cache_capacity_witness :
  let small : CacheService nat := Service [] 2 300000 0 0 in
  let reqs : list (Z * Z * string * nat * option Z) :=
    [(10%Z, 10%Z, "SELECT 1"%string, 1%nat, None);
     (20%Z, 20%Z, "SELECT 2"%string, 2%nat, None);
     (30%Z, 31%Z, "SELECT 3"%string, 3%nat, None)] in
  length (cache (setAll reqs small)) = 2%nat /\
  map_get (generateKey "SELECT 1") (cache (setAll reqs small)) = None /\
  map_keys (cache (setAll reqs small)) =
  [generateKey "SELECT 2"; generateKey "SELECT 3"].
Proof.
  intros small reqs.
  apply (proj2 (proj2 (proj2 (@cache_capacity nat))) small reqs
               (10%Z, 10%Z, "SELECT 1"%string, 1%nat, None)).
  - unfold wf. simpl. repeat split; [constructor | lia | lia].
  - vm_compute. repeat constructor; simpl; intuition discriminate.
  - reflexivity.
  - reflexivity.
Defined.

(** ** Expiry *)

Section Expiry.
Context {V : Type}.
Implicit Types (this : CacheService V) (sql : string) (v : V).

Lemma get_absent now sql this :
  map_get (generateKey sql) (cache this) = None ->
  get now sql this =
  (None, Service (cache this) (maxSize this) (defaultTTL this)
                 (hits this) (S (misses this))).
Proof. intros H. unfold get. now rewrite H. Qed.

Lemma get_expired now sql this it :
  map_get (generateKey sql) (cache this) = Some it ->
  (expiresAt it < now)%Z ->
  get now sql this =
  (None, Service (map_delete (generateKey sql) (cache this)) (maxSize this)
                 (defaultTTL this) (hits this) (S (misses this))).
Proof.
  intros H Hlt. unfold get. rewrite H.
  destruct (Z.gtb_spec now (expiresAt it)); [reflexivity | lia].
Qed.

Lemma get_fresh now sql this it :
  map_get (generateKey sql) (cache this) = Some it ->
  (now <= expiresAt it)%Z ->
  get now sql this =
  (Some (value it), Service (cache this) (maxSize this) (defaultTTL this)
                            (S (hits this)) (misses this)).
Proof.
  intros H Hle. unfold get. rewrite H.
  destruct (Z.gtb_spec now (expiresAt it)); [lia | reflexivity].
Qed.

Lemma map_get_after_set now now' sql v ttl this :
  map_get (generateKey sql) (cache (set now now' sql v ttl this)) =
  Some (Item v (now + match ttl with Some t => t | None => defaultTTL this end)
             now').
Proof. unfold set. simpl. apply map_get_set_eq. Qed.

(** The expiry test is strict: a lookup whose clock reading equals the one
    of a [set] with [ttl = 0] still finds the entry. *)
Lemma get_same_millisecond now now' sql v this :
  fst (get now sql (set now now' sql v (Some 0%Z) this)) = Some v.
Proof.
  rewrite (get_fresh now sql _ _ (map_get_after_set now now' sql v (Some 0%Z) this)).
  - reflexivity.
  - simpl. lia.
Qed.

End Expiry.

(** C4, as the specification words it, does not hold: the test of [get]
    is [Date.now() > item.expiresAt], so a lookup that follows
    [set(q, v, 0)] while the clock still reads the same millisecond finds
    the entry and counts a hit. *)
Lemma get_same_reading_counterexample :
  let stored := set 1000%Z 1000%Z "SELECT 1" 7%nat (Some 0%Z) constructor in
  expiresAt <$> map_get (generateKey "SELECT 1") (cache stored) = Some 1000%Z /\
  fst (get 1000%Z "SELECT 1" stored) = Some 7%nat /\
  hits (snd (get 1000%Z "SELECT 1" stored)) = 1%nat /\
  misses (snd (get 1000%Z "SELECT 1" stored)) = 0%nat.
Proof. vm_compute. repeat split. Qed.

(** C4 (amended): a lookup past an entry's [expiresAt] returns a miss,
    increments the miss counter and deletes the entry; in particular,
    after [set(q, v, 0)] every lookup of [q] (or of a query with the same
    key) at a later clock reading is a miss, and so is every lookup after
    it; a lookup at a clock reading that is not later than the one of the
    [set] still returns [v]. *)
Theorem get_past_expiry {V : Type} :
  (forall (this : CacheService V) sql it now,
     map_get (generateKey sql) (cache this) = Some it ->
     (expiresAt it < now)%Z ->
     fst (get now sql this) = None /\
     misses (snd (get now sql this)) = S (misses this) /\
     hits (snd (get now sql this)) = hits this /\
     cache (snd (get now sql this)) = map_delete (generateKey sql) (cache this) /\
     map_get (generateKey sql) (cache (snd (get now sql this))) = None) /\
  (forall (this : CacheService V) q q' v now now' t,
     generateKey q' = generateKey q -> (now < t)%Z ->
     let stored := set now now' q v (Some 0%Z) this in
     fst (get t q' stored) = None /\
     misses (snd (get t q' stored)) = S (misses this) /\
     map_get (generateKey q) (cache (snd (get t q' stored))) = None /\
     forall t', fst (get t' q' (snd (get t q' stored))) = None) /\
  (forall (this : CacheService V) q q' v now now' t,
     generateKey q' = generateKey q -> (t <= now)%Z ->
     let stored := set now now' q v (Some 0%Z) this in
     fst (get t q' stored) = Some v /\
     hits (snd (get t q' stored)) = S (hits this) /\
     misses (snd (get t q' stored)) = misses this).
Proof.
  assert (A : forall (this : CacheService V) sql it now,
     map_get (generateKey sql) (cache this) = Some it ->
     (expiresAt it < now)%Z ->
     fst (get now sql this) = None /\
     misses (snd (get now sql this)) = S (misses this) /\
     hits (snd (get now sql this)) = hits this /\
     cache (snd (get now sql this)) = map_delete (generateKey sql) (cache this) /\
     map_get (generateKey sql) (cache (snd (get now sql this))) = None).
  { intros this sql it now H Hlt. rewrite (get_expired now sql this it H Hlt).
    simpl. repeat split. apply map_get_delete_eq. }
  split; [exact A |]. split.
  - intros this q q' v now now' t Hkey Hlater stored.
    pose proof (map_get_after_set now now' q v (Some 0%Z) this) as Hset.
    fold stored in Hset. rewrite <- Hkey in Hset.
    destruct (A stored q' _ t Hset) as (H1 & H2 & H3 & H4 & H5);
      [simpl; lia |].
    repeat split.
    + exact H1.
    + rewrite H2. reflexivity.
    + rewrite <- Hkey. exact H5.
    + intros t'. now rewrite (get_absent t' q' _ H5).
  - intros this q q' v now now' t Hkey Hsame stored.
    pose proof (map_get_after_set now now' q v (Some 0%Z) this) as Hset.
    fold stored in Hset. rewrite <- Hkey in Hset.
    rewrite (get_fresh t q' stored _ Hset) by (simpl; lia).
    repeat split.
Qed.

(** The theorem on a fresh cache: stored at clock 1000 with [ttl = 0],
    looked up at clock 1001. *)
Lemma get_past_expiry_witness :
  let stored := set 1000%Z 1000%Z "SELECT 1" 7%nat (Some 0%Z) constructor in
  fst (get 1001%Z "  select 1  " stored) = None /\
  misses (snd (get 1001%Z "  select 1  " stored)) = 1%nat /\
  map_get (generateKey "SELECT 1")
          (cache (snd (get 1001%Z "  select 1  " stored)))
  = None.
Proof.
  intros stored.
  destruct (proj1 (proj2 (@get_past_expiry nat)) constructor "SELECT 1"%string
              "  select 1  "%string 7%nat 1000%Z 1000%Z 1001%Z)
    as (H1 & H2 & H3 & _).
  - vm_compute. reflexivity.
  - lia.
  - exact (conj H1 (conj H2 H3)).
Defined.

End CacheFacts.

Module FingerprintFacts.
Import JS Cache JSFacts.

Example generateKey_select_1 :
  generateKey "SELECT 1" = "95adb6e77a0884d9e50232cb8c5c969d"%string.
Proof. vm_compute. reflexivity. Qed.

(** The digest has 128 bits and the texts are unbounded: two runs of the
    letter a of different lengths have the same key. *)
Lemma generateKey_collision :
  exists s1 s2,
    toLowerCase (trim s1) <> toLowerCase (trim s2) /\
    generateKey s1 = generateKey s2.
Proof.
  destruct (MD5Facts.md5_collision (fun n => MD5.utf8 (repeatChar "a" n)))
    as (i & j & Hij & E).
  exists (repeatChar "a" i), (repeatChar "a" j). split.
  - rewrite !trim_repeatChar_a, !toLowerCase_repeatChar_a. intros Heq.
    apply (f_equal String.length) in Heq.
    rewrite !length_repeatChar in Heq. lia.
  - unfold generateKey, MD5.md5hex.
    rewrite !trim_repeatChar_a, !toLowerCase_repeatChar_a. now rewrite E.
Qed.

(** C6, as the specification words it, does not hold: the two texts below
    differ only in whitespace (one blank more between the tokens), and
    their keys differ, because [trim] leaves inner whitespace alone; and
    not all texts that differ otherwise have different keys. *)
Lemma generateKey_inner_space_counterexample :
  (toLowerCase (stripSpace "SELECT 1") = toLowerCase (stripSpace "SELECT  1") /\
   generateKey "SELECT 1" <> generateKey "SELECT  1") /\
  ~ (forall s1 s2, toLowerCase (trim s1) <> toLowerCase (trim s2) ->
                   generateKey s1 <> generateKey s2).
Proof.
  split; [split; [reflexivity | vm_compute; discriminate] |].
  intros Hinj. destruct generateKey_collision as (s1 & s2 & Hne & Heq).
  exact (Hinj s1 s2 Hne Heq).
Qed.

(** C6 (amended): the key is the MD5 digest of the trimmed, lower-cased
    text, so two texts that differ only in surrounding whitespace and in
    letter case have the same key; the keys of ["SELECT 1"] and
    ["  select 1  "] are equal and differ from the key of ["SELECT 2"]. *)
Theorem generateKey_equivalence :
  (forall sql, generateKey sql = MD5.md5hex (toLowerCase (trim sql))) /\
  (forall a b c d s1 s2,
     allWhiteSpace a = true -> allWhiteSpace b = true ->
     allWhiteSpace c = true -> allWhiteSpace d = true ->
     toLowerCase s1 = toLowerCase s2 ->
     generateKey (concat3 a s1 b) = generateKey (concat3 c s2 d)) /\
  generateKey "SELECT 1" = generateKey "  select 1  " /\
  generateKey "SELECT 1" <> generateKey "SELECT 2".
Proof.
  split; [reflexivity |]. split; [| split].
  - intros a b c d s1 s2 Ha Hb Hc Hd Hcase. unfold generateKey.
    rewrite !trim_spaces by assumption.
    now rewrite !toLowerCase_trim, Hcase.
  - vm_compute. reflexivity.
  - vm_compute. discriminate.
Qed.

(** The theorem at ["SELECT 1"] and ["\tselect 1\n"]. *)
Lemma generateKey_equivalence_witness :
  generateKey "SELECT 1" =
  generateKey (String (ascii_of_N 9) (String.append "select 1" (String (ascii_of_N 10) ""))).
Proof.
  apply (proj1 (proj2 generateKey_equivalence)
           ""%string ""%string (String (ascii_of_N 9) "") (String (ascii_of_N 10) "")
           "SELECT 1"%string "select 1"%string); reflexivity.
Defined.

End FingerprintFacts.

Module PoolFacts.
Import JS Pool.

Lemma pool_wf_constructor srv usr : wf (constructor srv usr).
Proof. intros key h H. unfold constructor in H. simpl in H. now rewrite lookup_empty in H. Qed.

Lemma getClient_resident catalog schema this h :
  clientPool this !! poolKey catalog schema = Some h ->
  getClient catalog schema this = (h, this).
Proof. intros H. unfold getClient. now rewrite H. Qed.

Lemma getClient_admitted catalog schema this :
  clientPool this !! poolKey catalog schema = None ->
  (size (clientPool this) < maxPoolSize this)%nat ->
  getClient catalog schema this =
  (Client (created this) (serverUrl this) catalog schema (user this),
   Service (serverUrl this) (user this)
           (<[poolKey catalog schema :=
                Client (created this) (serverUrl this) catalog schema (user this)]>
              (clientPool this))
           (maxPoolSize this) (S (created this))).
Proof.
  intros H Hlt. unfold getClient. rewrite H.
  destruct (Nat.ltb_spec (size (clientPool this)) (maxPoolSize this)); [reflexivity | lia].
Qed.

Lemma getClient_unpooled catalog schema this :
  clientPool this !! poolKey catalog schema = None ->
  (maxPoolSize this <= size (clientPool this))%nat ->
  getClient catalog schema this =
  (Client (created this) (serverUrl this) catalog schema (user this),
   Service (serverUrl this) (user this) (clientPool this)
           (maxPoolSize this) (S (created this))).
Proof.
  intros H Hge. unfold getClient. rewrite H.
  destruct (Nat.ltb_spec (size (clientPool this)) (maxPoolSize this)); [lia | reflexivity].
Qed.

Lemma pool_wf_getClient catalog schema this :
  wf this -> wf (snd (getClient catalog schema this)).
Proof.
  intros Hwf. unfold getClient.
  destruct (clientPool this !! poolKey catalog schema) as [h|] eqn:E; [exact Hwf |].
  destruct (size (clientPool this) <? maxPoolSize this)%nat; unfold wf; simpl.
  - intros key h. rewrite lookup_insert. case_decide as Hk.
    + intros [= <-]. simpl. split; [lia |]. split; [exact Hk |].
      intros key' h'. rewrite lookup_insert. case_decide; [congruence |].
      intros Hh' Hid. destruct (Hwf key' h' Hh') as (Hlt & _). simpl in *. lia.
    + intros Hh. destruct (Hwf key h Hh) as (Hlt & Hkey & Hinj).
      split; [simpl; lia |]. split; [exact Hkey |].
      intros key' h'. rewrite lookup_insert. case_decide.
      * intros [= <-]. simpl. lia.
      * apply Hinj.
  - intros key h Hh. destruct (Hwf key h Hh) as (Hlt & Hkey & Hinj).
    split; [simpl; lia |]. split; [exact Hkey | exact Hinj].
Qed.

Lemma pool_wf_getClients pairs this : wf this -> wf (getClients pairs this).
Proof.
  revert this. induction pairs as [|p pairs IH]; intros this H; [exact H |].
  simpl. apply IH. now apply pool_wf_getClient.
Qed.

(** What [getClient] returns is either pooled already or brand new. *)
Lemma getClient_ident catalog schema this :
  wf this ->
  (ident (fst (getClient catalog schema this)) < created (snd (getClient catalog schema this)))%nat /\
  (created this <= created (snd (getClient catalog schema this)))%nat /\
  (clientPool this !! poolKey catalog schema = None ->
   ident (fst (getClient catalog schema this)) = created this).
Proof.
  intros Hwf. unfold getClient.
  destruct (clientPool this !! poolKey catalog schema) as [h|] eqn:E; simpl.
  - destruct (Hwf _ _ E) as (Hlt & _). repeat split; [exact Hlt | lia | discriminate].
  - repeat split; lia.
Qed.

(** C5, as the specification words it, does not hold for every catalog and
    schema: once ten other keys are pooled, two calls for ("c", "s") in
    sequence construct two clients. *)
Lemma getClient_full_pool_counterexample :
  fst (getClient "c" "s" (getClients tenPairs (constructor None None))) <>
  fst (getClient "c" "s"
         (snd (getClient "c" "s" (getClients tenPairs (constructor None None))))).
Proof. vm_compute. discriminate. Qed.

(** C5 (amended): the pool keeps its invariant; two calls in sequence for
    the same catalog and schema return the same handle when the key is
    resident or the pool has room for it; calls for two different keys (such as "c1"."s1" and
    "c2"."s2") return distinct handles; and when the pool is at capacity,
    the handle for a non-resident key is a new one that is returned
    without being admitted, so that the next call builds another one. *)
Theorem getClient_identity :
  (forall srv usr, wf (constructor srv usr)) /\
  (forall this catalog schema,
     wf this -> wf (snd (getClient catalog schema this))) /\
  (forall this catalog schema,
     is_Some (clientPool this !! poolKey catalog schema) \/
     (size (clientPool this) < maxPoolSize this)%nat ->
     fst (getClient catalog schema (snd (getClient catalog schema this)))
     = fst (getClient catalog schema this)) /\
  (forall this c1 s1 c2 s2,
     wf this -> poolKey c1 s1 <> poolKey c2 s2 ->
     ident (fst (getClient c2 s2 (snd (getClient c1 s1 this))))
     <> ident (fst (getClient c1 s1 this))) /\
  poolKey "c1" "s1" <> poolKey "c2" "s2" /\
  (forall this catalog schema,
     wf this ->
     clientPool this !! poolKey catalog schema = None ->
     (maxPoolSize this <= size (clientPool this))%nat ->
     fst (getClient catalog schema this)
     = Client (created this) (serverUrl this) catalog schema (user this) /\
     clientPool (snd (getClient catalog schema this)) = clientPool this /\
     (forall key h, clientPool this !! key = Some h ->
                    ident h <> ident (fst (getClient catalog schema this))) /\
     ident (fst (getClient catalog schema (snd (getClient catalog schema this))))
     <> ident (fst (getClient catalog schema this))).
Proof.
  split; [exact pool_wf_constructor |].
  split; [intros this catalog schema; apply pool_wf_getClient |].
  split; [| split; [| split]].
  - intros this catalog schema [[h Hh] | Hroom].
    + rewrite (getClient_resident catalog schema this h Hh). simpl.
      now rewrite (getClient_resident catalog schema this h Hh).
    + destruct (clientPool this !! poolKey catalog schema) as [h|] eqn:E.
      * rewrite (getClient_resident catalog schema this h E). simpl.
        now rewrite (getClient_resident catalog schema this h E).
      * rewrite (getClient_admitted catalog schema this E Hroom). simpl.
        unfold getClient. simpl. now rewrite lookup_insert_eq.
  - intros this c1 s1 c2 s2 Hwf Hne.
    pose proof (getClient_ident c1 s1 this Hwf) as (Hlt1 & Hmono & Hnew1).
    pose proof (pool_wf_getClient c1 s1 this Hwf) as Hwf1.
    pose proof (getClient_ident c2 s2 _ Hwf1) as (_ & _ & Hnew2).
    destruct (clientPool (snd (getClient c1 s1 this)) !! poolKey c2 s2)
      as [h2|] eqn:E2.
    + rewrite (getClient_resident c2 s2 _ h2 E2). simpl. intros Hid.
      destruct (Hwf1 _ _ E2) as (_ & _ & Hinj).
      (* the first handle can only be pooled under its own key *)
      revert E2 Hid Hinj. unfold getClient.
      destruct (clientPool this !! poolKey c1 s1) as [h1|] eqn:E1; simpl.
      * intros E2 Hid Hinj. apply Hne. apply (Hinj _ h1); [exact E1 | congruence].
      * destruct (size (clientPool this) <? maxPoolSize this)%nat; simpl.
        -- rewrite lookup_insert_ne by exact Hne. intros E2 Hid _.
           destruct (Hwf _ _ E2) as (Hlt & _). lia.
        -- intros E2 Hid _. destruct (Hwf _ _ E2) as (Hlt & _). lia.
    + rewrite (Hnew2 eq_refl). lia.
  - vm_compute. discriminate.
  - intros this catalog schema Hwf Hnone Hfull.
    rewrite (getClient_unpooled catalog schema this Hnone Hfull). simpl.
    split; [reflexivity |]. split; [reflexivity |]. split.
    + intros key h Hh. destruct (Hwf _ _ Hh) as (Hlt & _). lia.
    + rewrite getClient_unpooled; simpl; [lia | exact Hnone | exact Hfull].
Qed.

(** The theorem on a new service: ("c1","s1") twice, then ("c2","s2"). *)
Lemma getClient_identity_witness :
  let this := constructor None None in
  fst (getClient "c1" "s1" (snd (getClient "c1" "s1" this)))
  = fst (getClient "c1" "s1" this) /\
  ident (fst (getClient "c2" "s2" (snd (getClient "c1" "s1" this))))
  <> ident (fst (getClient "c1" "s1" this)).
Proof.
  intros this. split.
  - apply (proj1 (proj2 (proj2 getClient_identity))
             this "c1"%string "s1"%string).
    right. vm_compute. lia.
  - apply (proj1 (proj2 (proj2 (proj2 getClient_identity))) this
             "c1"%string "s1"%string "c2"%string "s2"%string).
    + apply (proj1 getClient_identity).
    + vm_compute. discriminate.
Defined.

(** C10: the pool is keyed by the text [catalog + "." + schema].  Two
    pairs with the same text, such as ("a", "b.c") and ("a.b", "c"), share
    one key: once the handle of the first is admitted, a call for the
    second returns that handle. *)
Theorem getClient_key_is_concatenation :
  (forall this c1 s1 c2 s2,
     String.append c1 (String.append "." s1)
     = String.append c2 (String.append "." s2) ->
     clientPool (snd (getClient c1 s1 this)) !! poolKey c1 s1
     = Some (fst (getClient c1 s1 this)) ->
     fst (getClient c2 s2 (snd (getClient c1 s1 this)))
     = fst (getClient c1 s1 this)) /\
  poolKey "a" "b.c" = poolKey "a.b" "c".
Proof.
  split; [| reflexivity].
  intros this c1 s1 c2 s2 Hkey Hadm.
  assert (Hsame : poolKey c2 s2 = poolKey c1 s1).
  { unfold poolKey, concat3. now rewrite Hkey. }
  rewrite <- Hsame in Hadm.
  now rewrite (getClient_resident c2 s2 _ _ Hadm).
Qed.

(** The theorem on a new service: the call for ("a.b", "c") returns the
    handle that was built for catalog "a" and schema "b.c". *)
Lemma getClient_key_is_concatenation_witness :
  let this := constructor None None in
  fst (getClient "a.b" "c" (snd (getClient "a" "b.c" this)))
  = Client 0 None "a" "b.c" None.
Proof.
  intros this.
  rewrite (proj1 getClient_key_is_concatenation this
             "a"%string "b.c"%string "a.b"%string "c"%string).
  - reflexivity.
  - reflexivity.
  - vm_compute. reflexivity.
Defined.

End PoolFacts.

Module ForecastFacts.
Import JS Forecast.
Local Open Scope Z_scope.

(** ** Arrays *)

Example setIndex_in_range :
  setIndex [JNum 1; JNull] 1 (JNum 2) = [JNum 1; JNum 2].
Proof. reflexivity. Qed.

Example setIndex_grows :
  setIndex [JNum 1] 3 (JNum 2) = [JNum 1; JUndefined; JUndefined; JNum 2].
Proof. reflexivity. Qed.

Example index_outside :
  index [JNum 1] 1 = JUndefined /\ index [JNum 1] (-1) = JUndefined.
Proof. split; reflexivity. Qed.

Example sortPoints_stable `{Builtins} :
  sortPoints [DataPoint 2 1; DataPoint 1 2; DataPoint 2 3; DataPoint 1 4]
  = [DataPoint 1 2; DataPoint 1 4; DataPoint 2 1; DataPoint 2 3].
Proof. vm_compute. reflexivity. Qed.

Lemma index_setIndex_eq (row : list jsval) (i : Z) (v : jsval) :
  0 <= i -> index (setIndex row i v) i = v.
Proof.
  intros Hi. unfold index, setIndex.
  destruct (Z.ltb_spec i 0) as [|_]; [lia |].
  destruct (Nat.ltb_spec (Z.to_nat i) (length row)) as [Hlt|Hge].
  - now rewrite list_lookup_insert_eq.
  - rewrite lookup_app_r by lia.
    rewrite lookup_app_r by (rewrite length_replicate; lia).
    rewrite length_replicate.
    now replace (Z.to_nat i - length row - (Z.to_nat i - length row))%nat with 0%nat by lia.
Qed.

Lemma index_setIndex_ne (row : list jsval) (i j : Z) (v : jsval) :
  i <> j -> index (setIndex row i v) j = index row j.
Proof.
  intros Hne. unfold index, setIndex.
  destruct (Z.ltb_spec j 0) as [|Hj]; [reflexivity |].
  destruct (Z.ltb_spec i 0) as [|Hi]; [reflexivity |].
  assert (Hn : Z.to_nat i <> Z.to_nat j) by lia.
  destruct (Nat.ltb_spec (Z.to_nat i) (length row)) as [Hlt|Hge].
  - now rewrite list_lookup_insert_ne.
  - destruct (Nat.lt_ge_cases (Z.to_nat j) (length row)) as [Hjl|Hjg].
    + now rewrite lookup_app_l.
    + rewrite lookup_app_r by lia. rewrite (lookup_ge_None_2 row) by lia.
      destruct (Nat.lt_ge_cases (Z.to_nat j - length row) (Z.to_nat i - length row))
        as [Hin|Hout].
      * rewrite lookup_app_l by (rewrite length_replicate; lia).
        now rewrite lookup_replicate_2.
      * rewrite lookup_app_r by (rewrite length_replicate; lia).
        rewrite length_replicate.
        rewrite lookup_ge_None_2; [reflexivity | simpl; lia].
Qed.

Lemma index_app_l (row more : list jsval) (j : Z) :
  (Z.to_nat j < length row)%nat -> index (row ++ more) j = index row j.
Proof. intros H. unfold index. now rewrite lookup_app_l. Qed.

Lemma index_replicate_null (n : nat) (j : Z) :
  0 <= j -> (Z.to_nat j < n)%nat -> index (replicate n JNull) j = JNull.
Proof.
  intros Hj H. unfold index. destruct (Z.ltb_spec j 0); [lia |].
  now rewrite lookup_replicate_2.
Qed.

(** A cell that holds something is inside the row. *)
Lemma truthy_index_in_range (row : list jsval) (j : Z) :
  truthy (index row j) = true -> 0 <= j /\ (Z.to_nat j < length row)%nat.
Proof.
  unfold index. destruct (Z.ltb_spec j 0) as [|Hj]; [discriminate |].
  destruct (row !! Z.to_nat j) as [v|] eqn:E; [| discriminate].
  intros _. split; [assumption |]. now apply lookup_lt_Some in E.
Qed.

Lemma findIndexFrom_range {A : Type} (p : A -> Z -> bool) (i : Z) (xs : list A) :
  findIndexFrom p i xs = -1 \/
  i <= findIndexFrom p i xs < i + Z.of_nat (length xs).
Proof.
  revert i. induction xs as [|a xs IH]; intros i; simpl; [now left |].
  destruct (p a i); [right; lia |].
  destruct (IH (i + 1)) as [->|Hr]; [now left | right; lia].
Qed.

Lemma findIndex_range {A : Type} (p : A -> Z -> bool) (xs : list A) :
  0 <= findIndex p xs -> findIndex p xs < Z.of_nat (length xs).
Proof.
  unfold findIndex. destruct (findIndexFrom_range p 0 xs) as [->|H]; lia.
Qed.

Lemma length_updateLast {A : Type} (f : A -> A) (xs : list A) :
  length (updateLast f xs) = length xs.
Proof.
  induction xs as [|a [|b xs] IH]; simpl in *; auto.
Qed.

Lemma map_updateLast {A B : Type} (g : A -> B) (f : A -> A) (xs : list A) :
  (forall a, In a xs -> g (f a) = g a) -> map g (updateLast f xs) = map g xs.
Proof.
  induction xs as [|a [|b xs] IH]; intros Hf; simpl in *.
  - reflexivity.
  - now rewrite Hf by auto.
  - f_equal. apply IH. intros c Hc. apply Hf. auto.
Qed.

(** The loop that pushes one row per admitted prediction. *)
Lemma fold_left_push {A B : Type} (keep : A -> bool) (f : A -> B)
    (xs : list A) (acc : list B) :
  fold_left (fun acc a => if keep a then acc ++ [f a] else acc) xs acc =
  acc ++ map f (List.filter keep xs).
Proof.
  revert acc. induction xs as [|a xs IH]; intros acc; simpl.
  - now rewrite app_nil_r.
  - rewrite IH. destruct (keep a); simpl; [| reflexivity].
    now rewrite <- app_assoc.
Qed.

Lemma insert_appended (row : list jsval) (c v : jsval) :
  <[length row := v]> (row ++ [c]) = row ++ [v].
Proof. induction row as [|a row IH]; simpl; [reflexivity | now rewrite IH]. Qed.

(** Writing the cell after the last one of [row] into [row ++ [c]]. *)
Lemma setIndex_appended (row : list jsval) (c v : jsval) :
  setIndex (row ++ [c]) (Z.of_nat (length row)) v = row ++ [v].
Proof.
  unfold setIndex. destruct (Z.ltb_spec (Z.of_nat (length row)) 0); [lia |].
  rewrite Nat2Z.id, length_app. simpl.
  destruct (Nat.ltb_spec (length row) (length row + 1)); [| lia].
  apply insert_appended.
Qed.

(** A row of [updateLast f xs] is the row of [xs] at its place, as it is
    or after [f]. *)
Lemma nth_error_updateLast {A : Type} (f : A -> A) (xs : list A) (i : nat) (a' : A) :
  nth_error (updateLast f xs) i = Some a' ->
  exists a, nth_error xs i = Some a /\ (a' = a \/ a' = f a).
Proof.
  revert i. induction xs as [|a [|b xs] IH]; intros i Hi.
  - destruct i; discriminate.
  - destruct i as [|i]; [| destruct i; discriminate].
    simpl in Hi. injection Hi as <-. exists a. auto.
  - destruct i as [|i].
    + simpl in Hi. injection Hi as <-. exists a. auto.
    + apply (IH i). exact Hi.
Qed.

(** ** The merge *)

Section MergeFacts.
Context `{Builtins}.
Implicit Types (columns : list string) (rows : list (list jsval))
  (predictions : list prediction).

Lemma dateColIdx_range columns :
  0 <= dateColIdx columns -> dateColIdx columns < Z.of_nat (length columns).
Proof. apply findIndex_range. Qed.

(** [forecastResponse] merges only when both columns were identified. *)
Lemma generateForecast_Some reply columns rows (ps : predictionsValue) :
  generateForecast reply columns rows = Some ps ->
  0 <= dateColIdx columns /\ 0 <= valueColIdx columns rows /\
  reply = Some ps.
Proof.
  unfold generateForecast.
  destruct (Z.eqb_spec (dateColIdx columns) (-1)) as [|Hd]; [discriminate |].
  destruct (Z.eqb_spec (valueColIdx columns rows) (-1)) as [|Hv]; [discriminate |].
  simpl. intros ->.
  unfold dateColIdx, valueColIdx, findIndex in *.
  destruct (findIndexFrom_range
              (fun c (_ : Z) => includes "date" (toLowerCase c)) 0 columns);
    [contradiction |].
  match goal with
  | |- _ /\ 0 <= findIndexFrom ?p 0 columns /\ _ =>
      destruct (findIndexFrom_range p 0 columns); [contradiction |]
  end.
  repeat split; lia.
Qed.

Lemma mergeForecast_shape columns rows predictions :
  exists history,
    snd (mergeForecast columns rows predictions) =
    history ++
    map (predictionRow columns)
        (List.filter
           (fun p => negb (setHas (map (rowDate columns)
                                       (validHistoricalRows columns rows))
                                  (date p)))
           predictions) /\
    length history = length (validHistoricalRows columns rows) /\
    map (rowDate columns) history =
    map (rowDate columns) (validHistoricalRows columns rows).
Proof.
  unfold mergeForecast. simpl. rewrite fold_left_push.
  eexists. split; [reflexivity |].
  set (valid := validHistoricalRows columns rows).
  assert (Hvalid : forall row, In row valid ->
            0 <= dateColIdx columns /\
            (Z.to_nat (dateColIdx columns) < length row)%nat).
  { intros row Hrow. unfold valid, validHistoricalRows in Hrow.
    apply filter_In in Hrow as [_ Hrow].
    apply andb_true_iff in Hrow as [Hrow _].
    apply andb_true_iff in Hrow as [Hrow _].
    now apply truthy_index_in_range. }
  assert (Hext : map (rowDate columns) (map (fun row => row ++ [JNull]) valid)
                 = map (rowDate columns) valid).
  { rewrite map_map. apply map_ext_in. intros row Hrow.
    unfold rowDate. apply index_app_l. now apply Hvalid. }
  destruct (0 <? length (map (fun row => row ++ [JNull]) valid))%nat.
  - split; [now rewrite length_updateLast, length_map |].
    rewrite map_updateLast; [exact Hext |].
    intros row' Hrow'. apply in_map_iff in Hrow' as (row & <- & Hrow).
    destruct (Hvalid row Hrow) as [Hd Hlt].
    pose proof (dateColIdx_range columns Hd) as Hd'.
    unfold rowDate. apply index_setIndex_ne. rewrite length_app. simpl. lia.
  - split; [now rewrite length_map | exact Hext].
Qed.

(** The historical part of the output is the output of the merge without
    predictions. *)
Lemma mergeForecast_split columns rows predictions :
  snd (mergeForecast columns rows predictions) =
  snd (mergeForecast columns rows []) ++
  map (predictionRow columns)
      (List.filter
         (fun p => negb (setHas (map (rowDate columns)
                                     (validHistoricalRows columns rows))
                                (date p)))
         predictions).
Proof.
  unfold mergeForecast. cbn [snd fold_left]. now rewrite fold_left_push.
Qed.

(** It has one row per retained row, with the cells of that row. *)
Lemma mergeForecast_history columns rows :
  length (snd (mergeForecast columns rows [])) =
  length (validHistoricalRows columns rows) /\
  forall i row row',
    nth_error (validHistoricalRows columns rows) i = Some row ->
    nth_error (snd (mergeForecast columns rows [])) i = Some row' ->
    (forall j, 0 <= j -> j <> Z.of_nat (length columns) ->
               (Z.to_nat j < length row)%nat -> index row' j = index row j) /\
    (length row = length columns -> exists cell, row' = row ++ [cell]).
Proof.
  unfold mergeForecast. cbn [snd fold_left].
  set (valid := validHistoricalRows columns rows).
  set (f := fun lastRow : list jsval => setIndex lastRow _ _).
  assert (Hf : forall row,
             (forall j, 0 <= j -> j <> Z.of_nat (length columns) ->
                        (Z.to_nat j < length row)%nat ->
                        index (f (row ++ [JNull])) j = index row j) /\
             (length row = length columns ->
              exists cell, f (row ++ [JNull]) = row ++ [cell])).
  { intros row. unfold f. rewrite length_app. cbn [length].
    replace (Z.of_nat (length columns + 1) - 1) with (Z.of_nat (length columns))
      by lia.
    split.
    - intros j Hj Hne Hlt. rewrite index_setIndex_ne by congruence.
      now apply index_app_l.
    - intros <-. rewrite setIndex_appended. eauto. }
  assert (Hplain : forall row,
             (forall j, 0 <= j -> j <> Z.of_nat (length columns) ->
                        (Z.to_nat j < length row)%nat ->
                        index (row ++ [JNull]) j = index row j) /\
             (length row = length columns ->
              exists cell, row ++ [JNull] = row ++ [cell])).
  { intros row. split; [intros; now apply index_app_l | eauto]. }
  destruct (0 <? length (map (fun row => row ++ [JNull]) valid))%nat.
  - split; [now rewrite length_updateLast, length_map |].
    intros i row row' Hrow Hrow'.
    apply nth_error_updateLast in Hrow' as (r & Hr & Hcase).
    rewrite nth_error_map, Hrow in Hr. injection Hr as <-.
    destruct Hcase as [-> | ->]; [apply Hplain | apply Hf].
  - split; [now rewrite length_map |].
    intros i row row' Hrow Hrow'.
    rewrite nth_error_map, Hrow in Hrow'. injection Hrow' as <-.
    apply Hplain.
Qed.

Lemma rowDate_predictionRow columns (p : prediction) :
  0 <= dateColIdx columns -> rowDate columns (predictionRow columns p) = date p.
Proof.
  intros Hd. pose proof (dateColIdx_range columns Hd) as Hd'.
  unfold rowDate, predictionRow.
  rewrite index_setIndex_ne by (rewrite length_app; simpl; lia).
  now apply index_setIndex_eq.
Qed.

End MergeFacts.

(** ** Pairwise different dates *)

Lemma distinctDates_app (a b : list jsval) :
  distinctDates a -> distinctDates b ->
  (forall d, In d a -> Forall (fun e => sameValueZero e d = false) b) ->
  distinctDates (a ++ b).
Proof.
  induction a as [|d a IH]; simpl; intros Ha Hb Hab; [assumption |].
  destruct Ha as [Hd Ha]. split.
  - apply Forall_app. split; [assumption | apply Hab; now left].
  - apply IH; auto.
Qed.

Lemma distinctDates_filter (keep : prediction -> bool) (ps : list prediction) :
  distinctDates (map date ps) -> distinctDates (map date (List.filter keep ps)).
Proof.
  induction ps as [|p ps IH]; simpl; [trivial |].
  intros [Hp Hps]. destruct (keep p); simpl; [| auto].
  split; [| auto].
  rewrite List.Forall_forall in *. intros e He. apply Hp.
  apply in_map_iff in He as (q & <- & Hq). apply in_map.
  now apply filter_In in Hq as [Hq _].
Qed.

Lemma setHas_false (dates : list jsval) (v d : jsval) :
  setHas dates v = false -> In d dates -> sameValueZero v d = false.
Proof.
  unfold setHas. intros Hn Hd. apply not_true_is_false. intros Ht.
  assert (existsb (sameValueZero v) dates = true)
    by (apply existsb_exists; eauto).
  congruence.
Qed.

(** C2, as the specification words it, does not hold: the merge never
    looks for equal dates among the historical rows, so two historical
    rows with one date both reach the output. *)
Lemma mergeForecast_duplicate_dates_counterexample :
  let columns := ["date"; "value"]%string in
  let out :=
    snd (@mergeForecast exampleHost columns
           [[JStr "2025-01-01"; JNum 100]; [JStr "2025-01-01"; JNum 105]] []) in
  length out = 2%nat /\
  rowDate columns (nth 0 out []) = rowDate columns (nth 1 out []) /\
  ~ distinctDates (map (rowDate columns) out).
Proof.
  vm_compute. split; [reflexivity |]. split; [reflexivity |].
  intros [Hsame _]. inversion Hsame as [|? ? Heq _]. discriminate.
Qed.

(** C2 (amended): the merged output has at most as many rows as the
    history plus the prediction points supplied.  When the date column is
    identified, the output starts with the retained historical rows, their
    dates unchanged, and every row after them is the row of a supplied
    prediction whose date matches no retained historical date: a
    prediction whose date is that of a retained historical row is dropped,
    never appended, and every other prediction is present.  If the
    retained historical dates are pairwise different and the prediction
    dates are pairwise different, no two rows of the output carry the same
    date.  No prediction overwrites a historical row: the output is the
    output of the merge without predictions, which has one row per
    retained row, with the cells of that row outside the Forecast column
    (that row and one more cell, when the row has one cell per column),
    followed by one row for each prediction, in order, whose date matches
    no retained historical date. *)
Theorem mergeForecast_rows `{Builtins} (columns : list string)
    (rows : list (list jsval)) (predictions : list prediction) :
  let out := snd (mergeForecast columns rows predictions) in
  let kept := validHistoricalRows columns rows in
  let matches p := setHas (map (rowDate columns) kept) (date p) in
  (length out <= length rows + length predictions)%nat /\
  (0 <= dateColIdx columns ->
   exists admitted,
     map (rowDate columns) out =
     map (rowDate columns) kept ++ map date admitted /\
     (forall p, In p admitted -> In p predictions /\ matches p = false) /\
     (forall p, In p predictions -> matches p = false -> In p admitted)) /\
  (0 <= dateColIdx columns ->
   distinctDates (map (rowDate columns) kept) ->
   distinctDates (map date predictions) ->
   distinctDates (map (rowDate columns) out)) /\
  (exists history,
     out = history ++
           map (predictionRow columns)
               (List.filter (fun p => negb (matches p)) predictions) /\
     history = snd (mergeForecast columns rows []) /\
     length history = length kept /\
     forall i row row',
       nth_error kept i = Some row -> nth_error history i = Some row' ->
       (forall j, 0 <= j -> j <> Z.of_nat (length columns) ->
                  (Z.to_nat j < length row)%nat -> index row' j = index row j) /\
       (length row = length columns -> exists cell, row' = row ++ [cell])).
Proof.
  intros out kept matches.
  pose proof (mergeForecast_split columns rows predictions) as Hsplit.
  pose proof (mergeForecast_history columns rows) as [Hhlen Hhist].
  destruct (mergeForecast_shape columns rows predictions)
    as (history & Hout & Hlen & Hdates).
  fold out in Hout. fold kept in Hout, Hlen, Hdates.
  set (admitted := List.filter (fun p => negb (matches p)) predictions).
  change (List.filter _ predictions) with admitted in Hout.
  assert (Hmap : 0 <= dateColIdx columns ->
            map (rowDate columns) out =
            map (rowDate columns) kept ++ map date admitted).
  { intros Hd. rewrite Hout, map_app, Hdates, map_map. f_equal.
    apply map_ext. intros p. now apply rowDate_predictionRow. }
  split; [| split; [| split]].
  - rewrite Hout, length_app, length_map, Hlen.
    pose proof (List.filter_length_le
                  (fun row =>
                     truthy (index row (dateColIdx columns)) &&
                     negb (isNull (index row (valueColIdx columns rows))) &&
                     negb (isUndefined (index row (valueColIdx columns rows))))
                  rows) as Hk.
    pose proof (List.filter_length_le (fun p => negb (matches p)) predictions)
      as Hp.
    fold admitted in Hp. unfold kept, validHistoricalRows. lia.
  - intros Hd. exists admitted. split; [now apply Hmap |]. split.
    + intros p Hp. apply filter_In in Hp as [Hin Hp].
      now apply negb_true_iff in Hp.
    + intros p Hin Hp. apply filter_In. split; [assumption |].
      now apply negb_true_iff.
  - intros Hd Hkept Hpred. rewrite (Hmap Hd).
    apply distinctDates_app; [assumption | now apply distinctDates_filter |].
    intros d Hin. apply List.Forall_forall. intros e He.
    apply in_map_iff in He as (p & <- & Hp).
    apply filter_In in Hp as [_ Hp]. apply negb_true_iff in Hp.
    now apply (setHas_false _ _ _ Hp).
  - exists (snd (mergeForecast columns rows [])).
    split; [exact Hsplit |]. split; [reflexivity |].
    split; [exact Hhlen | exact Hhist].
Qed.

(** The theorem on two historical rows and two predictions, one of them
    for a historical date. *)
Lemma mergeForecast_rows_witness :
  let columns := ["date"; "value"]%string in
  let rows := [[JStr "2025-01-01"; JNum 100]; [JStr "2025-01-02"; JNum 110]] in
  let predictions := [Prediction (JStr "2025-01-02") (JNum 999);
                      Prediction (JStr "2025-01-03") (JNum 120)] in
  distinctDates (map (rowDate columns)
                     (snd (@mergeForecast exampleHost columns rows predictions))).
Proof.
  intros columns rows predictions.
  apply (proj1 (proj2 (proj2
           (@mergeForecast_rows exampleHost columns rows predictions)))).
  - vm_compute. discriminate.
  - vm_compute. repeat constructor.
  - vm_compute. repeat constructor.
Defined.

(** C7: the scenario of the specification, for columns named "date" and
    "value".  The row of 2025-01-02 carries its own value 110 in the
    Forecast column, the prediction 999 for that date is dropped, and the
    row of 2025-01-03 has a null value and the forecast 120. *)
Theorem mergeForecast_scenario `{Builtins} :
  let columns := ["date"; "value"]%string in
  let rows := [[JStr "2025-01-01"; JNum 100]; [JStr "2025-01-02"; JNum 110]] in
  let predictions := [Prediction (JStr "2025-01-02") (JNum 999);
                      Prediction (JStr "2025-01-03") (JNum 120)] in
  let merged :=
    (["date"; "value"; "Forecast"]%string,
     [[JStr "2025-01-01"; JNum 100; JNull];
      [JStr "2025-01-02"; JNum 110; JNum 110];
      [JStr "2025-01-03"; JNull; JNum 120]]) in
  mergeForecast columns rows predictions = merged /\
  forecastResponse (Some (Elements (map Point predictions))) columns rows
  = Table merged /\
  length (snd merged) = 3%nat.
Proof.
  intros columns rows predictions merged.
  assert (Hmerge : mergeForecast columns rows predictions = merged)
    by (vm_compute; reflexivity).
  split; [exact Hmerge |]. split; [| reflexivity].
  unfold forecastResponse.
  replace (generateForecast (Some (Elements (map Point predictions))) columns rows)
    with (Some (Elements (map Point predictions))) by (vm_compute; reflexivity).
  replace (readElements (map Point predictions)) with (Some predictions)
    by reflexivity.
  now rewrite Hmerge.
Qed.

(** ** Linear regression *)

Section RegressionFacts.
Context `{Builtins}.

(** Fewer than two rows, or fewer than two usable points: no forecast. *)
Lemma calculateForecast_few_rows columns rows periods :
  (length rows < 2)%nat -> calculateForecast columns rows periods = Return None.
Proof.
  intros Hlt. unfold calculateForecast.
  destruct (identifyColumns 0 columns rows (-1) (-1)) as [d m].
  destruct (Nat.ltb_spec (length rows) 2) as [_|]; [| lia].
  now rewrite !orb_true_r.
Qed.

Lemma calculateForecast_few_points columns rows periods :
  (length (preparePoints (fst (identifyColumns 0 columns rows (-1) (-1)))
                         (snd (identifyColumns 0 columns rows (-1) (-1)))
                         rows) < 2)%nat ->
  calculateForecast columns rows periods = Return None.
Proof.
  unfold calculateForecast.
  destruct (identifyColumns 0 columns rows (-1) (-1)) as [d m]. simpl.
  intros Hlt. destruct (_ || _ || _); [reflexivity |].
  destruct (Nat.ltb_spec (length (preparePoints d m rows)) 2) as [_|];
    [reflexivity | lia].
Qed.

End RegressionFacts.

(** C8 fails on the code: two rows with the same date give two usable
    points of zero variance in x; the least-squares denominator is 0, the
    slope is 0 / 0, and [calculateForecast] returns a forecast row whose
    value is NaN instead of failing. *)
Theorem calculateForecast_zero_variance `{Builtins} :
  dateGetTime (JStr "2025-01-01") = 1735689600000%float ->
  dateISODay 1735689600000%float = Some "2025-01-01"%string ->
  let points := [DataPoint 1735689600000 10; DataPoint 1735689600000 20] in
  denominator points = 0%float /\
  slope points = nan /\
  calculateForecast ["date"; "value"]%string
    [[JStr "2025-01-01"; JNum 10]; [JStr "2025-01-01"; JNum 20]] (Some 1) =
  Return (Some (["date"; "value"; "Forecast"]%string,
                [[JStr "2025-01-01"; JNum 10; JNull];
                 [JStr "2025-01-01"; JNum 20; JNum 20];
                 [JStr "2025-01-01"; JNull; JNum nan]])).
Proof.
  intros Htime Hday points.
  split; [vm_compute; reflexivity |]. split; [vm_compute; reflexivity |].
  unfold calculateForecast.
  replace (identifyColumns 0 ["date"; "value"]%string
             [[JStr "2025-01-01"; JNum 10]; [JStr "2025-01-01"; JNum 20]]
             (-1) (-1)) with (0, 1) by (vm_compute; reflexivity).
  assert (Hpoints : preparePoints 0 1
            [[JStr "2025-01-01"; JNum 10]; [JStr "2025-01-01"; JNum 20]]
          = points).
  { unfold preparePoints, index. simpl. rewrite Htime. reflexivity. }
  rewrite Hpoints.
  assert (Hsort : sortPoints points = points) by (vm_compute; reflexivity).
  rewrite Hsort.
  simpl. unfold forecastFrom.
  replace (futurePoints (slope points) (intercept points) (avgInterval points)
             (x (List.last points noPoint)) (Z.to_nat 1))
    with [(1735689600000%float, nan)] by (vm_compute; reflexivity).
  simpl. rewrite Hday. reflexivity.
Qed.

(** The theorem on the example host. *)
Lemma calculateForecast_zero_variance_witness :
  @calculateForecast exampleHost ["date"; "value"]%string
    [[JStr "2025-01-01"; JNum 10]; [JStr "2025-01-01"; JNum 20]] (Some 1) =
  Return (Some (["date"; "value"; "Forecast"]%string,
                [[JStr "2025-01-01"; JNum 10; JNull];
                 [JStr "2025-01-01"; JNum 20; JNum 20];
                 [JStr "2025-01-01"; JNull; JNum nan]])).
Proof.
  apply (@calculateForecast_zero_variance exampleHost); reflexivity.
Defined.

(** C9: three equally spaced points (0, 10), (1, 20), (2, 30) and a
    horizon of 2: slope 10, intercept 10, average interval 1, and the two
    future points (3, 40) and (4, 50), which [calculateForecast] appends
    as rows; [d0], [d1], [d2] are the date texts of the three rows and
    [s3], [s4] the texts of the two future dates. *)
Theorem calculateForecast_scenario `{Builtins} (d0 d1 d2 s3 s4 : string) :
  d0 <> EmptyString -> d1 <> EmptyString -> d2 <> EmptyString ->
  dateGetTime (JStr d0) = 0%float ->
  dateGetTime (JStr d1) = 1%float ->
  dateGetTime (JStr d2) = 2%float ->
  dateISODay 3%float = Some s3 ->
  dateISODay 4%float = Some s4 ->
  let points := [DataPoint 0 10; DataPoint 1 20; DataPoint 2 30] in
  slope points = 10%float /\
  intercept points = 10%float /\
  avgInterval points = 1%float /\
  futurePoints (slope points) (intercept points) (avgInterval points)
               (x (List.last points noPoint)) 2
  = [(3, 40); (4, 50)]%float /\
  calculateForecast ["date"; "value"]%string
    [[JStr d0; JNum 10]; [JStr d1; JNum 20]; [JStr d2; JNum 30]] (Some 2) =
  Return (Some (["date"; "value"; "Forecast"]%string,
                [[JStr d0; JNum 10; JNull];
                 [JStr d1; JNum 20; JNull];
                 [JStr d2; JNum 30; JNum 30];
                 [JStr s3; JNull; JNum 40];
                 [JStr s4; JNull; JNum 50]])).
Proof.
  intros N0 N1 N2 T0 T1 T2 D3 D4 points.
  assert (Hfuture :
    futurePoints (slope points) (intercept points) (avgInterval points)
                 (x (List.last points noPoint)) 2
    = [(3, 40); (4, 50)]%float) by (vm_compute; reflexivity).
  split; [vm_compute; reflexivity |].
  split; [vm_compute; reflexivity |].
  split; [vm_compute; reflexivity |].
  split; [exact Hfuture |].
  unfold calculateForecast.
  replace (identifyColumns 0 ["date"; "value"]%string
             [[JStr d0; JNum 10]; [JStr d1; JNum 20]; [JStr d2; JNum 30]]
             (-1) (-1)) with (0, 1) by (vm_compute; reflexivity).
  assert (Hpoints : preparePoints 0 1
            [[JStr d0; JNum 10]; [JStr d1; JNum 20]; [JStr d2; JNum 30]]
          = points).
  { unfold preparePoints, index. simpl. rewrite T0, T1, T2.
    destruct d0; [contradiction |]. destruct d1; [contradiction |].
    destruct d2; [contradiction |]. reflexivity. }
  rewrite Hpoints.
  assert (Hsort : sortPoints points = points) by (vm_compute; reflexivity).
  rewrite Hsort.
  simpl. unfold forecastFrom.
  change (Z.to_nat 2) with 2%nat. rewrite Hfuture.
  simpl. rewrite D3, D4. reflexivity.
Qed.

(** The theorem on the example host, whose dates are one millisecond
    apart. *)
Lemma calculateForecast_scenario_witness :
  @calculateForecast exampleHost ["date"; "value"]%string
    [[JStr "1970-01-01T00:00:00.000Z"; JNum 10];
     [JStr "1970-01-01T00:00:00.001Z"; JNum 20];
     [JStr "1970-01-01T00:00:00.002Z"; JNum 30]] (Some 2) =
  Return (Some (["date"; "value"; "Forecast"]%string,
                [[JStr "1970-01-01T00:00:00.000Z"; JNum 10; JNull];
                 [JStr "1970-01-01T00:00:00.001Z"; JNum 20; JNull];
                 [JStr "1970-01-01T00:00:00.002Z"; JNum 30; JNum 30];
                 [JStr "1970-01-01"; JNull; JNum 40];
                 [JStr "1970-01-01"; JNull; JNum 50]])).
Proof.
  apply (proj2 (proj2 (proj2 (proj2
    (@calculateForecast_scenario exampleHost
       "1970-01-01T00:00:00.000Z" "1970-01-01T00:00:00.001Z"
       "1970-01-01T00:00:00.002Z" "1970-01-01" "1970-01-01"
       ltac:(discriminate) ltac:(discriminate) ltac:(discriminate)
       eq_refl eq_refl eq_refl eq_refl eq_refl))))).
Defined.

End ForecastFacts.

Module CacheRunFacts.
Import JS Cache CacheRuns CacheFacts.
Local Open Scope Z_scope.

Section MoreMapFacts.
Context {A : Type}.
Implicit Types (m : list (string * A)) (k : string) (v : A).

Lemma map_get_set_ne k k' v m :
  k <> k' -> map_get k' (map_set k v m) = map_get k' m.
Proof.
  intros Hne. induction m as [|[k0 v0] m IH]; simpl.
  - destruct (String.eqb_spec k' k); [congruence | reflexivity].
  - destruct (String.eqb_spec k k0) as [->|Hk]; simpl.
    + destruct (String.eqb_spec k' k0); [congruence | reflexivity].
    + destruct (String.eqb_spec k' k0); [reflexivity | exact IH].
Qed.

Lemma map_get_delete_ne k k' m :
  k <> k' -> map_get k' (map_delete k m) = map_get k' m.
Proof.
  intros Hne. induction m as [|[k0 v0] m IH]; simpl; [reflexivity |].
  destruct (String.eqb_spec k k0) as [->|Hk]; simpl.
  - destruct (String.eqb_spec k' k0); [congruence | exact IH].
  - destruct (String.eqb_spec k' k0); [reflexivity | exact IH].
Qed.

End MoreMapFacts.

(** X1: what [set] stores is what [get] returns until the entry expires:
    a lookup of the same query, or of any text with the same key, at a
    clock reading not past [now + ttl] returns the stored value, counts
    one hit and leaves the map as it is.  Without a [ttl] argument the
    entry lives for [defaultTTL]. *)
Theorem set_then_get {V : Type} (this : CacheService V) (q q' : string) (v : V)
    (now now' t : Z) (ttl : option Z) :
  generateKey q' = generateKey q ->
  t <= now + match ttl with Some d => d | None => defaultTTL this end ->
  let stored := set now now' q v ttl this in
  fst (get t q' stored) = Some v /\
  hits (snd (get t q' stored)) = S (hits this) /\
  misses (snd (get t q' stored)) = misses this /\
  cache (snd (get t q' stored)) = cache stored.
Proof.
  intros Hkey Hfresh stored.
  pose proof (map_get_after_set now now' q v ttl this) as Hset.
  fold stored in Hset. rewrite <- Hkey in Hset.
  rewrite (get_fresh t q' stored _ Hset) by exact Hfresh.
  simpl. repeat split.
Qed.

(** The theorem on a new cache: stored at clock 1000 without a ttl, read
    back 300000 ms later under another spelling. *)
Lemma set_then_get_witness :
  fst (get 301000 "  select 1 "
           (set 1000 1001 "SELECT 1" 7%nat None constructor)) = Some 7%nat.
Proof.
  apply (set_then_get (@constructor nat) "SELECT 1" "  select 1 " 7%nat
           1000 1001 301000 None).
  - vm_compute. reflexivity.
  - simpl. lia.
Defined.

(** X2: reads do not refresh an entry.  A hit leaves the map unchanged, so
    when the cache is full the oldest-inserted entry is evicted by the
    next [set] of another key even if it has just been read. *)
Theorem get_does_not_promote {V : Type} (this : CacheService V)
    (k0 : string) (it0 : item V) (rest : list (string * item V))
    (q0 sql : string) (v : V) (t now now' : Z) (ttl : option Z) :
  wf this ->
  cache this = (k0, it0) :: rest ->
  length (cache this) = maxSize this ->
  generateKey q0 = k0 ->
  t <= expiresAt it0 ->
  generateKey sql <> k0 ->
  fst (get t q0 this) = Some (value it0) /\
  cache (snd (get t q0 this)) = cache this /\
  map_get k0 (cache (set now now' sql v ttl (snd (get t q0 this)))) = None.
Proof.
  intros Hwf Hcache Hfull Hq0 Hfresh Hother.
  assert (Hget : map_get (generateKey q0) (cache this) = Some it0).
  { rewrite Hcache, Hq0. simpl. now rewrite String.eqb_refl. }
  rewrite (get_fresh t q0 this it0 Hget Hfresh). cbn [fst snd].
  split; [reflexivity |]. split; [reflexivity |].
  set (this1 := Service (cache this) (maxSize this) (defaultTTL this)
                        (S (hits this)) (misses this)).
  assert (Hwf1 : wf this1) by exact Hwf.
  destruct (set_at_capacity now now' sql v ttl this1 Hwf1 Hfull)
    as (k & it & rest' & E & ->).
  simpl in E. rewrite Hcache in E. injection E as <- <- <-.
  rewrite map_get_set_ne by exact Hother.
  apply map_get_None.
  destruct Hwf as (Hnd & _). rewrite Hcache in Hnd. simpl in Hnd.
  now inversion Hnd.
Qed.

(** The theorem on a cache of capacity 2 holding SELECT 1 and SELECT 2:
    SELECT 1 is read, then SELECT 3 is stored, and SELECT 1 is gone. *)
Lemma get_does_not_promote_witness :
  let full : CacheService nat :=
    set 20 20 "SELECT 2" 2%nat None
      (set 10 10 "SELECT 1" 1%nat None (Service [] 2 300000 0 0)) in
  map_get (generateKey "SELECT 1")
          (cache (set 40 40 "SELECT 3" 3%nat None
                      (snd (get 30 "SELECT 1" full)))) = None.
Proof.
  intros full.
  refine (proj2 (proj2 (get_does_not_promote full (generateKey "SELECT 1")
            (Item 1%nat 300010 10)
            [(generateKey "SELECT 2", Item 2%nat 300020 20)]
            "SELECT 1" "SELECT 3" 3%nat 30 40 40 None _ _ _ _ _ _))).
  - unfold wf. vm_compute. repeat split; try lia.
    repeat constructor; simpl; intuition discriminate.
  - vm_compute. reflexivity.
  - reflexivity.
  - reflexivity.
  - simpl. lia.
  - vm_compute. discriminate.
Defined.

End CacheRunFacts.

Module CacheMoreFacts.
Import JS Cache CacheRuns CacheFacts CacheRunFacts.
Local Open Scope Z_scope.

Lemma step_counters {V : Type} (this : CacheService V) (r : request V) :
  (hits (step this r) + misses (step this r) =
   hits this + misses this + (if isGet r then 1 else 0))%nat.
Proof.
  destruct r as [now sql|now now' sql v ttl|now sql|]; simpl.
  - unfold get. destruct (map_get _ _) as [it|];
      [destruct (now >? expiresAt it) |]; simpl; lia.
  - lia.
  - unfold has. destruct (map_get _ _) as [it|];
      [destruct (now >? expiresAt it) |]; simpl; lia.
  - lia.
Qed.

Lemma wf_step {V : Type} (this : CacheService V) (r : request V) :
  wf this -> wf (step this r).
Proof.
  intros Hwf. destruct r; simpl;
    [now apply wf_get | now apply wf_set | now apply wf_has | now apply wf_clear].
Qed.

Lemma wf_run {V : Type} (requests : list (request V)) (this : CacheService V) :
  wf this -> wf (run requests this).
Proof.
  revert this. induction requests as [|r requests IH]; intros this Hwf;
    [exact Hwf |].
  simpl. apply IH. now apply wf_step.
Qed.

Lemma maxSize_step {V : Type} (this : CacheService V) (r : request V) :
  maxSize (step this r) = maxSize this.
Proof.
  destruct r as [now sql|now now' sql v ttl|now sql|]; simpl; try reflexivity.
  - unfold get. destruct (map_get _ _) as [it|];
      [destruct (now >? expiresAt it) |]; reflexivity.
  - unfold has. destruct (map_get _ _) as [it|];
      [destruct (now >? expiresAt it) |]; reflexivity.
Qed.

(** X3: over any sequence of calls, [hits + misses] grows by exactly the
    number of [get] calls ([set], [has] and [clear] never touch the
    counters, and [clear] does not reset them), and a cache that starts
    from the constructor never holds more than 1000 entries. *)
Theorem run_counts_lookups {V : Type} (requests : list (request V)) :
  (forall this : CacheService V,
     (hits (run requests this) + misses (run requests this) =
      hits this + misses this + length (List.filter isGet requests))%nat) /\
  (length (cache (run requests (@constructor V))) <= 1000)%nat.
Proof.
  split.
  - induction requests as [|r requests IH]; intros this; simpl; [lia |].
    change (fold_left step requests (step this r)) with (run requests (step this r)).
    rewrite IH. pose proof (step_counters this r).
    destruct (isGet r); simpl; lia.
  - assert (Hmax : forall (this : CacheService V),
              maxSize (run requests this) = maxSize this).
    { induction requests as [|r requests IH]; intros this; simpl; [reflexivity |].
      change (fold_left step requests (step this r))
        with (run requests (step this r)).
      now rewrite IH, maxSize_step. }
    pose proof (wf_run requests (@constructor V) cache_wf_constructor)
      as (_ & Hle & _).
    rewrite Hmax in Hle. exact Hle.
Qed.

(** X4: [has] answers what [get] would, and leaves the same map behind
    (an expired entry is deleted by both); unlike [get] it never changes
    the hit and miss counters. *)
Theorem has_agrees_with_get {V : Type} (this : CacheService V)
    (now : Z) (sql : string) :
  fst (has now sql this) = isSome (fst (get now sql this)) /\
  cache (snd (has now sql this)) = cache (snd (get now sql this)) /\
  hits (snd (has now sql this)) = hits this /\
  misses (snd (has now sql this)) = misses this.
Proof.
  unfold has, get.
  destruct (map_get (generateKey sql) (cache this)) as [it|];
    [destruct (now >? expiresAt it) |]; simpl; repeat split.
Qed.

(** X5: storing a resident key again.  Below capacity the entry is
    replaced where it is: same keys, same order.  In a full cache the
    oldest entry is evicted first all the same: if the key is the oldest
    one it moves to the newest place, otherwise the cache is left with
    [maxSize - 1] entries. *)
Theorem set_resident_key {V : Type} (this : CacheService V)
    (now now' : Z) (sql : string) (v : V) (ttl : option Z) :
  wf this ->
  In (generateKey sql) (map_keys (cache this)) ->
  let after := set now now' sql v ttl this in
  ((length (cache this) < maxSize this)%nat ->
   map_keys (cache after) = map_keys (cache this)) /\
  (length (cache this) = maxSize this ->
   hd_error (map_keys (cache this)) = Some (generateKey sql) ->
   map_keys (cache after) = tl (map_keys (cache this)) ++ [generateKey sql]) /\
  (length (cache this) = maxSize this ->
   hd_error (map_keys (cache this)) <> Some (generateKey sql) ->
   map_keys (cache after) = tl (map_keys (cache this)) /\
   length (cache after) = (maxSize this - 1)%nat).
Proof.
  intros Hwf Hin after. pose proof Hwf as (Hnd & Hle & Hpos).
  split; [| split].
  - intros Hlt. unfold after. rewrite set_below_capacity by exact Hlt.
    now apply map_keys_set_old.
  - intros Hfull Hhd. unfold after.
    destruct (set_at_capacity now now' sql v ttl this Hwf Hfull)
      as (k0 & it0 & rest & E & ->).
    rewrite E in Hhd, Hnd |- *. simpl in Hhd, Hnd |- *. injection Hhd as ->.
    apply map_keys_set_new. now inversion Hnd.
  - intros Hfull Hhd. unfold after.
    destruct (set_at_capacity now now' sql v ttl this Hwf Hfull)
      as (k0 & it0 & rest & E & E').
    rewrite E in Hhd, Hin, Hfull. simpl in Hhd, Hin, Hfull.
    assert (Hrest : In (generateKey sql) (map_keys rest)).
    { destruct Hin as [->|Hin]; [now elim Hhd | exact Hin]. }
    assert (Hkeys : map_keys (cache (set now now' sql v ttl this)) = map_keys rest).
    { rewrite E'. now apply map_keys_set_old. }
    split.
    + rewrite Hkeys, E. reflexivity.
    + rewrite <- length_map_keys, Hkeys, length_map_keys. lia.
Qed.

(** The theorem on a cache of capacity 2 holding SELECT 1 and SELECT 2:
    storing SELECT 2 again leaves one entry. *)
Lemma set_resident_key_witness :
  let full : CacheService nat :=
    set 20 20 "SELECT 2" 2%nat None
      (set 10 10 "SELECT 1" 1%nat None (Service [] 2 300000 0 0)) in
  map_keys (cache (set 30 30 "select 2" 5%nat None full))
  = [generateKey "SELECT 2"].
Proof.
  intros full.
  assert (Hwf : wf full).
  { unfold wf. vm_compute. repeat split; try lia.
    repeat constructor; simpl; intuition discriminate. }
  assert (Hin : In (generateKey "select 2") (map_keys (cache full))).
  { vm_compute. auto. }
  destruct (set_resident_key full 30 30 "select 2" 5%nat None Hwf Hin)
    as (_ & _ & H3).
  destruct H3 as [Hkeys _].
  - reflexivity.
  - vm_compute. discriminate.
  - rewrite Hkeys. vm_compute. reflexivity.
Defined.

(** X6: [set] loses no entry but the oldest one: the entry of any other
    key than the stored one is found unchanged afterwards, unless the
    cache was full and that key was the oldest. *)
Theorem set_keeps_other_entries {V : Type} (this : CacheService V)
    (now now' : Z) (sql : string) (v : V) (ttl : option Z) (k : string) :
  wf this ->
  k <> generateKey sql ->
  (length (cache this) < maxSize this)%nat \/
  hd_error (map_keys (cache this)) <> Some k ->
  map_get k (cache (set now now' sql v ttl this)) = map_get k (cache this).
Proof.
  intros Hwf Hk Hcase. pose proof Hwf as (Hnd & Hle & Hpos).
  destruct (Nat.eq_dec (length (cache this)) (maxSize this)) as [Hfull|Hne].
  - destruct Hcase as [Hlt|Hold]; [lia |].
    destruct (set_at_capacity now now' sql v ttl this Hwf Hfull)
      as (k0 & it0 & rest & E & ->).
    rewrite E in Hold |- *. simpl in Hold |- *.
    rewrite map_get_set_ne by congruence.
    destruct (String.eqb_spec k k0) as [->|_]; [now elim Hold | reflexivity].
  - rewrite set_below_capacity by lia.
    apply map_get_set_ne. congruence.
Qed.

(** The theorem on a cache of capacity 2 holding SELECT 1 and SELECT 2:
    storing SELECT 3 keeps the entry of SELECT 2. *)
Lemma set_keeps_other_entries_witness :
  let full : CacheService nat :=
    set 20 20 "SELECT 2" 2%nat None
      (set 10 10 "SELECT 1" 1%nat None (Service [] 2 300000 0 0)) in
  map_get (generateKey "SELECT 2") (cache (set 30 30 "SELECT 3" 3%nat None full))
  = Some (Item 2%nat 300020 20).
Proof.
  intros full.
  rewrite (set_keeps_other_entries full 30 30 "SELECT 3" 3%nat None
             (generateKey "SELECT 2")).
  - vm_compute. reflexivity.
  - unfold wf. vm_compute. repeat split; try lia.
    repeat constructor; simpl; intuition discriminate.
  - vm_compute. discriminate.
  - right. vm_compute. discriminate.
Defined.

End CacheMoreFacts.

Module ValidatorMoreFacts.
Import JS Validator JSFacts ValidatorFacts.

#[local] Arguments String.append !_ _ / : simpl nomatch.

Lemma accepts_allowed_word (v sql : string) :
  In v allowedVerbs -> beginsWithWord v sql -> validateReadOnly sql = Return true.
Proof.
  intros Hv Hb. unfold validateReadOnly.
  rewrite (allowed_not_forbidden v sql Hv (beginsWithWord_beginsWith _ _ Hb)).
  assert (E : existsb (fun pattern => test pattern sql) allowedPatterns = true)
    by (apply (existsb_test allowedVerbs sql); eauto).
  now rewrite E.
Qed.

Lemma rejects_forbidden_word (v sql : string) :
  In v forbiddenVerbs -> beginsWithWord v sql ->
  validateReadOnly sql = Throw writeForbidden.
Proof.
  intros Hv Hb. unfold validateReadOnly.
  assert (E : existsb (fun pattern => test pattern sql) forbiddenPatterns = true)
    by (apply (existsb_test forbiddenVerbs sql); eauto).
  now rewrite E.
Qed.

(** X7: [validateReadOnly] has exactly three outcomes, each with its own
    condition: it returns [true] exactly when the statement begins with an
    allowed verb followed by whitespace, throws the write-forbidden error
    exactly when it begins with a forbidden verb followed by whitespace,
    and throws the other error exactly when neither is the case. *)
Theorem validateReadOnly_outcomes (sql : string) :
  (validateReadOnly sql = Return true <->
   exists v, In v allowedVerbs /\ beginsWithWord v sql) /\
  (validateReadOnly sql = Throw writeForbidden <->
   exists v, In v forbiddenVerbs /\ beginsWithWord v sql) /\
  (validateReadOnly sql = Throw notPermitted <->
   forall v, In v (forbiddenVerbs ++ allowedVerbs) -> ~ beginsWithWord v sql) /\
  (validateReadOnly sql = Return true \/
   validateReadOnly sql = Throw writeForbidden \/
   validateReadOnly sql = Throw notPermitted).
Proof.
  pose proof (existsb_test forbiddenVerbs sql) as HF.
  pose proof (existsb_test allowedVerbs sql) as HA.
  fold forbiddenPatterns in HF. fold allowedPatterns in HA.
  unfold validateReadOnly.
  destruct (existsb (fun pattern => test pattern sql) forbiddenPatterns) eqn:EF;
    [| destruct (existsb (fun pattern => test pattern sql) allowedPatterns) eqn:EA];
    cbn [negb].
  - assert (F : exists v, In v forbiddenVerbs /\ beginsWithWord v sql)
      by now apply HF.
    repeat split; try discriminate; auto.
    + intros (a & Ha & Hb). destruct F as (f & Hf & Hfb).
      rewrite (allowed_not_forbidden a sql Ha (beginsWithWord_beginsWith _ _ Hb))
        in EF. discriminate.
    + intros Hnone. destruct F as (f & Hf & Hfb).
      elim (Hnone f); [apply in_or_app; auto | exact Hfb].
  - assert (A : exists v, In v allowedVerbs /\ beginsWithWord v sql)
      by now apply HA.
    repeat split; try discriminate; auto.
    + intros F. apply HF in F. discriminate.
    + intros Hnone. destruct A as (a & Ha & Hab).
      elim (Hnone a); [apply in_or_app; auto | exact Hab].
  - repeat split; try discriminate; auto.
    + intros A. apply HA in A. discriminate.
    + intros F. apply HF in F. discriminate.
    + intros _ v Hv Hb. apply in_app_or in Hv as [Hv|Hv].
      * assert (false = true) by (apply HF; eauto). discriminate.
      * assert (false = true) by (apply HA; eauto). discriminate.
Qed.

(** ** Case and leading whitespace do not matter *)

Lemma canonicalize_lowerChar (c : ascii) :
  canonicalize (lowerChar c) = canonicalize c.
Proof. destruct c as [[] [] [] [] [] [] [] []]; reflexivity. Qed.

Lemma matchHere_toLowerCase (re : regex) (s : string) :
  matchHere re (toLowerCase s) = matchHere re s.
Proof.
  revert s. induction re as [|a re IH]; intros s; [reflexivity |].
  destruct a as [p| |].
  - destruct s as [|c s]; simpl; [reflexivity |].
    unfold sameLetter. now rewrite canonicalize_lowerChar, IH.
  - destruct s as [|c s]; simpl; [reflexivity |].
    now rewrite isWhiteSpace_lowerChar, IH.
  - induction s as [|c s IHs].
    + simpl. apply (IH EmptyString).
    + change (matchHere (SpaceStar :: re) (toLowerCase (String c s)))
        with (isWhiteSpace (lowerChar c) &&
              matchHere (SpaceStar :: re) (toLowerCase s)
              || matchHere re (toLowerCase (String c s))).
      change (matchHere (SpaceStar :: re) (String c s))
        with (isWhiteSpace c && matchHere (SpaceStar :: re) s
              || matchHere re (String c s)).
      now rewrite isWhiteSpace_lowerChar, IHs, IH.
Qed.

Lemma test_verbPattern_leading_space (v ws sql : string) :
  upperWord v = true -> v <> EmptyString -> allWhiteSpace ws = true ->
  test (verbPattern v) (String.append ws sql) = test (verbPattern v) sql.
Proof.
  intros Hup Hne Hws.
  apply eq_true_iff_eq. rewrite !test_verbPattern. split.
  - intros (ws1 & w & c & rest & E & Hws1 & Hw & Hc).
    assert (T : trimStart (String.append ws sql) =
                String.append w (String c rest)).
    { rewrite E. unfold concat3. rewrite trimStart_spaces by assumption.
      now apply (trimStart_word v). }
    rewrite trimStart_spaces in T by assumption.
    (* sql = its own leading whitespace followed by the word *)
    clear E. revert T. clear Hws. induction sql as [|a sql IH]; intros T.
    + destruct w; discriminate.
    + simpl in T. destruct (isWhiteSpace a) eqn:Ha.
      * destruct (IH T) as (ws2 & w2 & c2 & rest2 & E2 & Hws2 & Hw2 & Hc2).
        exists (String a ws2), w2, c2, rest2. unfold concat3 in *.
        simpl. rewrite Ha, Hws2, <- E2. auto.
      * exists EmptyString, w, c, rest. unfold concat3. simpl. auto.
  - intros (ws1 & w & c & rest & -> & Hws1 & Hw & Hc).
    exists (String.append ws ws1), w, c, rest. unfold concat3.
    repeat split; auto.
    + clear. induction ws; simpl; [reflexivity | now rewrite IHws].
    + clear -Hws Hws1. induction ws as [|a ws IH]; simpl in *; [assumption |].
      apply andb_true_iff in Hws as [-> Hws]. auto.
Qed.

Lemma verbs_nonempty :
  forallb (fun v => negb (String.eqb v EmptyString))
          (forbiddenVerbs ++ allowedVerbs) = true.
Proof. reflexivity. Qed.

Lemma existsb_ext_in {A : Type} (f g : A -> bool) (l : list A) :
  (forall a, In a l -> f a = g a) -> existsb f l = existsb g l.
Proof.
  induction l as [|a l IH]; intros H; simpl; [reflexivity |].
  rewrite (H a) by (now left). rewrite IH; [reflexivity |].
  intros b Hb. apply H. now right.
Qed.

(** X8: on text of code units below 256, which is what [string] holds,
    the verdict depends neither on letter case nor on whitespace in front
    of the statement: lower-casing the text, or putting whitespace before
    it, gives the same outcome, error message included.  (Past that range
    the first part stops: U+212A lower-cases to [k] and is no [K] for
    the patterns.) *)
Theorem validateReadOnly_case_and_leading_space (sql : string) :
  validateReadOnly (toLowerCase sql) = validateReadOnly sql /\
  (forall ws, allWhiteSpace ws = true ->
              validateReadOnly (String.append ws sql) = validateReadOnly sql).
Proof.
  split.
  - unfold validateReadOnly, test.
    rewrite (existsb_ext_in _ (fun pattern => matchHere pattern sql)
               forbiddenPatterns)
      by (intros; apply matchHere_toLowerCase).
    rewrite (existsb_ext_in (fun pattern => matchHere pattern (toLowerCase sql))
               (fun pattern => matchHere pattern sql) allowedPatterns)
      by (intros; apply matchHere_toLowerCase).
    reflexivity.
  - intros ws Hws.
    pose proof verbs_upper as U. pose proof verbs_nonempty as N.
    rewrite forallb_app in U, N.
    apply andb_true_iff in U as [UF UA]. apply andb_true_iff in N as [NF NA].
    rewrite forallb_forall in UF, UA, NF, NA.
    assert (Hpat : forall verbs,
              (forall v, In v verbs -> upperWord v = true) ->
              (forall v, In v verbs -> negb (String.eqb v EmptyString) = true) ->
              existsb (fun pattern => test pattern (String.append ws sql))
                      (map verbPattern verbs)
              = existsb (fun pattern => test pattern sql) (map verbPattern verbs)).
    { intros verbs HU HN. apply existsb_ext_in. intros re Hre.
      apply in_map_iff in Hre as (v & <- & Hv).
      apply test_verbPattern_leading_space; auto.
      specialize (HN v Hv). intros ->. discriminate. }
    unfold validateReadOnly, forbiddenPatterns, allowedPatterns.
    now rewrite (Hpat forbiddenVerbs UF NF), (Hpat allowedVerbs UA NA).
Qed.

End ValidatorMoreFacts.

Module PoolMoreFacts.
Import JS Pool PoolFacts.
Import Gateway (dotFree, plainPool).

#[local] Arguments String.append !_ _ / : simpl nomatch.

Lemma getClients_app pairs1 pairs2 this :
  getClients (pairs1 ++ pairs2) this = getClients pairs2 (getClients pairs1 this).
Proof. unfold getClients. apply fold_left_app. Qed.

Lemma maxPoolSize_getClient catalog schema this :
  maxPoolSize (snd (getClient catalog schema this)) = maxPoolSize this.
Proof.
  unfold getClient. destruct (clientPool this !! poolKey catalog schema); reflexivity.
Qed.

Lemma size_getClient catalog schema this :
  (size (clientPool this) <= maxPoolSize this)%nat ->
  (size (clientPool (snd (getClient catalog schema this))) <= maxPoolSize this)%nat.
Proof.
  intros Hle. unfold getClient.
  destruct (clientPool this !! poolKey catalog schema) eqn:E; [exact Hle |].
  destruct (Nat.ltb_spec (size (clientPool this)) (maxPoolSize this)); simpl;
    [| exact Hle].
  rewrite map_size_insert_None by exact E. lia.
Qed.

Lemma lookup_getClient catalog schema this key h :
  clientPool this !! key = Some h ->
  clientPool (snd (getClient catalog schema this)) !! key = Some h.
Proof.
  intros Hh. unfold getClient.
  destruct (clientPool this !! poolKey catalog schema) eqn:E; [exact Hh |].
  destruct (size (clientPool this) <? maxPoolSize this)%nat; simpl; [| exact Hh].
  rewrite lookup_insert_ne; [exact Hh |]. congruence.
Qed.

(** X9: the pool never holds more than [maxPoolSize] handles, whatever is
    acquired and in whatever order: ten for a service built by the
    constructor. *)
Theorem pool_never_exceeds_capacity :
  (forall this catalog schema,
     (size (clientPool this) <= maxPoolSize this)%nat ->
     (size (clientPool (snd (getClient catalog schema this)))
      <= maxPoolSize (snd (getClient catalog schema this)))%nat) /\
  (forall srv usr pairs,
     (size (clientPool (getClients pairs (constructor srv usr))) <= 10)%nat).
Proof.
  split.
  - intros this catalog schema Hle. rewrite maxPoolSize_getClient.
    now apply size_getClient.
  - intros srv usr pairs.
    assert (H : forall this,
              (size (clientPool this) <= maxPoolSize this)%nat ->
              (size (clientPool (getClients pairs this)) <= maxPoolSize this)%nat).
    { induction pairs as [|[c s] pairs IH]; intros this Hle; [exact Hle |].
      simpl. rewrite <- (maxPoolSize_getClient c s this).
      apply IH. rewrite maxPoolSize_getClient. now apply size_getClient. }
    apply (H (constructor srv usr)). simpl. rewrite map_size_empty. lia.
Qed.

(** X10: a pooled handle is permanent: once a key is resident, every later
    call for it, after any other calls, returns that same handle; nothing
    is ever evicted or replaced. *)
Theorem pooled_handle_is_permanent this key h pairs catalog schema :
  clientPool this !! key = Some h ->
  poolKey catalog schema = key ->
  clientPool (getClients pairs this) !! key = Some h /\
  fst (getClient catalog schema (getClients pairs this)) = h.
Proof.
  intros Hh Hkey.
  assert (Hstay : clientPool (getClients pairs this) !! key = Some h).
  { revert this Hh. induction pairs as [|[c s] pairs IH]; intros this Hh;
      [exact Hh |].
    simpl. apply IH. now apply lookup_getClient. }
  split; [exact Hstay |].
  rewrite <- Hkey in Hstay. now rewrite (getClient_resident _ _ _ _ Hstay).
Qed.

(** The theorem on a new service: the handle of ("lakehouse", "gold")
    survives the ten acquisitions that fill the pool. *)
Lemma pooled_handle_is_permanent_witness :
  let this := snd (getClient "lakehouse" "gold" (constructor None None)) in
  fst (getClient "lakehouse" "gold" (getClients tenPairs this))
  = Client 0 None "lakehouse" "gold" None.
Proof.
  intros this.
  apply (pooled_handle_is_permanent this (poolKey "lakehouse" "gold")
           (Client 0 None "lakehouse" "gold" None) tenPairs
           "lakehouse" "gold");
    reflexivity.
Defined.

(** ** Keys of names without a dot *)

Lemma dotFree_cons (c : ascii) (s : string) :
  dotFree (String c s) = true -> c <> "."%char /\ dotFree s = true.
Proof.
  unfold dotFree. simpl. rewrite negb_orb. intros H.
  apply andb_true_iff in H as [H1 H2]. split; [| exact H2].
  intros ->. discriminate.
Qed.

Lemma poolKey_injective (c1 s1 c2 s2 : string) :
  dotFree c1 = true -> dotFree c2 = true ->
  poolKey c1 s1 = poolKey c2 s2 -> c1 = c2 /\ s1 = s2.
Proof.
  unfold poolKey, concat3. revert c2.
  induction c1 as [|a c1 IH]; intros c2 H1 H2 E.
  - destruct c2 as [|b c2]; simpl in E.
    + injection E as ->. auto.
    + injection E as <- _. apply dotFree_cons in H2 as [Hb _]. now elim Hb.
  - apply dotFree_cons in H1 as [Ha H1]. destruct c2 as [|b c2]; simpl in E.
    + injection E as -> _. now elim Ha.
    + injection E as <- E. apply dotFree_cons in H2 as [_ H2].
      destruct (IH c2 H1 H2 E) as [-> ->]. auto.
Qed.

Lemma plainPool_getClient c s this :
  dotFree c = true -> plainPool this -> plainPool (snd (getClient c s this)).
Proof.
  intros Hc Hp. unfold getClient.
  destruct (clientPool this !! poolKey c s) eqn:E; [exact Hp |].
  destruct (size (clientPool this) <? maxPoolSize this)%nat; [| exact Hp].
  unfold plainPool. simpl.
  intros key h. rewrite lookup_insert. case_decide.
  - intros [= <-]. exact Hc.
  - apply Hp.
Qed.

(** X11: when catalog names contain no dot (as the names that
    [parseCatalogs] yields), the key identifies the pair: the handle that
    [getClient] returns is bound to exactly the catalog and the schema
    that were asked for, after any earlier calls on such names. *)
Theorem getClient_handle_matches_request srv usr pairs c s :
  Forall (fun p => dotFree (fst p) = true) pairs ->
  dotFree c = true ->
  let h := fst (getClient c s (getClients pairs (constructor srv usr))) in
  catalog h = c /\ schema h = s.
Proof.
  intros Hpairs Hc h.
  assert (Hinv : forall this, wf this -> plainPool this ->
            wf (getClients pairs this) /\ plainPool (getClients pairs this)).
  { induction Hpairs as [|[c' s'] pairs Hc' _ IH]; intros this Hwf Hp;
      [auto |].
    simpl. apply IH; [now apply pool_wf_getClient | now apply plainPool_getClient]. }
  destruct (Hinv (constructor srv usr) (pool_wf_constructor srv usr)) as [Hwf Hp].
  { intros key h0 H. simpl in H. now rewrite lookup_empty in H. }
  unfold h, getClient.
  destruct (clientPool (getClients pairs (constructor srv usr)) !! poolKey c s)
    as [h0|] eqn:E; simpl; [| auto].
  destruct (Hwf _ _ E) as (_ & Hkey & _).
  now apply poolKey_injective in Hkey; [| apply (Hp _ _ E) |].
Qed.

(** The theorem on a new service after the ten acquisitions of
    [tenPairs]. *)
Lemma getClient_handle_matches_request_witness :
  catalog (fst (getClient "c3" "gold" (getClients tenPairs (constructor None None))))
  = "c3"%string.
Proof.
  apply (getClient_handle_matches_request None None tenPairs "c3" "gold").
  - repeat constructor.
  - reflexivity.
Defined.

End PoolMoreFacts.

Module SplitFacts.
Import JS JSFacts Gateway.

#[local] Arguments String.append !_ _ / : simpl nomatch.

Lemma split_nonempty (sep : ascii) (s : string) : split sep s <> [].
Proof.
  destruct s as [|c s]; simpl; [discriminate |].
  destruct (Ascii.eqb c sep); [discriminate |].
  destruct (split sep s); discriminate.
Qed.

(** Splitting and joining again gives the text back. *)
Lemma join_split (sep : ascii) (s : string) :
  join (String sep EmptyString) (split sep s) = s.
Proof.
  induction s as [|c s IH]; [reflexivity |].
  simpl. destruct (Ascii.eqb_spec c sep) as [->|Hne].
  - pose proof (split_nonempty sep s).
    destruct (split sep s) as [|p ps] eqn:E; [contradiction |].
    change (join (String sep "") ("" :: p :: ps))
      with (String sep (join (String sep "") (p :: ps))).
    now rewrite IH.
  - pose proof (split_nonempty sep s).
    destruct (split sep s) as [|p ps] eqn:E; [contradiction |].
    destruct ps as [|p' ps]; simpl in *; now rewrite <- IH.
Qed.

Lemma split_pieces_without_sep (sep : ascii) (s : string) :
  Forall (fun piece => hasChar sep piece = false) (split sep s).
Proof.
  induction s as [|c s IH]; simpl; [repeat constructor |].
  destruct (Ascii.eqb_spec c sep) as [->|Hne].
  - constructor; [reflexivity | exact IH].
  - destruct (split sep s) as [|p ps]; [repeat constructor; simpl |].
    + destruct (Ascii.eqb_spec c sep); [contradiction | reflexivity].
    + inversion IH as [|? ? Hp Hps]; subst. constructor; [| exact Hps].
      simpl. destruct (Ascii.eqb_spec c sep); [contradiction | exact Hp].
Qed.

(** The pieces only contain characters of the text. *)
Lemma split_pieces_chars (sep a : ascii) (s : string) :
  hasChar a s = false ->
  Forall (fun piece => hasChar a piece = false) (split sep s).
Proof.
  induction s as [|c s IH]; simpl; [repeat constructor |].
  intros H. apply orb_false_iff in H as [Hc Hs]. specialize (IH Hs).
  destruct (Ascii.eqb c sep).
  - constructor; [reflexivity | exact IH].
  - destruct (split sep s) as [|p ps]; [repeat constructor; simpl; now rewrite Hc |].
    inversion IH as [|? ? Hp Hps]; subst. constructor; [| exact Hps].
    simpl. now rewrite Hc, Hp.
Qed.

Lemma hasChar_trimStart (a : ascii) (s : string) :
  hasChar a s = false -> hasChar a (trimStart s) = false.
Proof.
  induction s as [|c s IH]; simpl; [reflexivity |]. intros H.
  destruct (isWhiteSpace c); [| exact H].
  apply orb_false_iff in H as [_ H]. auto.
Qed.

Lemma hasChar_trimEnd (a : ascii) (s : string) :
  hasChar a s = false -> hasChar a (trimEnd s) = false.
Proof.
  induction s as [|c s IH]; simpl; [reflexivity |]. intros H.
  apply orb_false_iff in H as [Hc Hs]. specialize (IH Hs).
  destruct (trimEnd s); simpl in *.
  - destruct (isWhiteSpace c); simpl; [reflexivity | now rewrite Hc].
  - now rewrite Hc, IH.
Qed.

Lemma hasChar_trim (a : ascii) (s : string) :
  hasChar a s = false -> hasChar a (trim s) = false.
Proof. intros H. unfold trim. now apply hasChar_trimEnd, hasChar_trimStart. Qed.

Lemma includes_one_char (a : ascii) (s : string) :
  includes (String a EmptyString) s = hasChar a s.
Proof.
  induction s as [|c s IH]; [reflexivity |].
  simpl. rewrite IH. rewrite andb_true_r.
  now rewrite (Ascii.eqb_sym a c).
Qed.

Lemma dotFree_hasChar (s : string) : dotFree s = negb (hasChar "." s).
Proof. unfold dotFree. now rewrite includes_one_char. Qed.

(** Joining pieces that are free of the separator and splitting again
    gives the pieces back. *)
Lemma split_join (sep : ascii) (pieces : list string) :
  pieces <> [] ->
  Forall (fun piece => hasChar sep piece = false) pieces ->
  split sep (join (String sep EmptyString) pieces) = pieces.
Proof.
  induction pieces as [|p pieces IH]; [congruence |]. intros _ Hall.
  inversion Hall as [|? ? Hp Hps]; subst.
  destruct pieces as [|q pieces].
  - simpl. clear IH Hall Hps. induction p as [|c p IHp]; [reflexivity |].
    simpl in *. apply orb_false_iff in Hp as [Hc Hp]. rewrite Hc.
    now rewrite (IHp Hp).
  - specialize (IH ltac:(discriminate) Hps).
    change (join (String sep "") (p :: q :: pieces))
      with (String.append p (String sep (join (String sep "") (q :: pieces)))).
    clear Hall Hps. induction p as [|c p IHp].
    + cbn [String.append split]. rewrite Ascii.eqb_refl. now rewrite IH.
    + cbn [String.append split hasChar] in *.
      apply orb_false_iff in Hp as [Hc Hp]. rewrite Hc.
      now rewrite (IHp Hp).
Qed.


End SplitFacts.

Module CatalogFacts.
Import JS JSFacts Gateway SplitFacts.

#[local] Arguments String.append !_ _ / : simpl nomatch.
Local Open Scope string_scope.
Local Open Scope list_scope.

Lemma trimStart_head (s : string) :
  trimStart s = "" \/
  exists c t, trimStart s = String c t /\ isWhiteSpace c = false.
Proof.
  induction s as [|c s IH]; simpl; [now left |].
  destruct (isWhiteSpace c) eqn:E; [exact IH |]. right. eauto.
Qed.

Lemma trimEnd_head (c : ascii) (s : string) :
  isWhiteSpace c = false -> exists t, trimEnd (String c s) = String c t.
Proof.
  intros H. simpl. destruct (trimEnd s); [rewrite H |]; eauto.
Qed.

Lemma trim_head (s : string) :
  trim s = "" \/ exists c t, trim s = String c t /\ isWhiteSpace c = false.
Proof.
  unfold trim. destruct (trimStart_head s) as [->|(c & t & -> & Hc)].
  - now left.
  - right. destruct (trimEnd_head c t Hc) as [t' ->]. eauto.
Qed.

(** The first piece of a text that does not start with white space does
    not start with white space either. *)
Lemma split_first_piece (sep : ascii) (s : string) :
  (s = "" \/ exists c t, s = String c t /\ isWhiteSpace c = false) ->
  exists piece pieces,
    split sep s = piece :: pieces /\ trimStart piece = piece.
Proof.
  intros [->|(c & t & -> & Hc)]; [exists "", []; now split |].
  simpl. destruct (Ascii.eqb c sep).
  - exists "", (split sep t). now split.
  - destruct (split sep t) as [|p ps].
    + exists (String c ""), []. split; [reflexivity |]. simpl. now rewrite Hc.
    + exists (String c p), ps. split; [reflexivity |]. simpl. now rewrite Hc.
Qed.

Lemma hasChar_append (a : ascii) (s t : string) :
  hasChar a (String.append s t) = hasChar a s || hasChar a t.
Proof.
  induction s as [|c s IH]; simpl; [reflexivity |].
  now rewrite IH, orb_assoc.
Qed.

Lemma plainName_chars (s : string) (a : ascii) :
  plainName s = true -> hasChar a s = true ->
  a <> "."%char /\ a <> ","%char /\ isWhiteSpace a = false.
Proof.
  induction s as [|c s IH]; simpl; [discriminate |].
  intros Hp Ha.
  apply andb_true_iff in Hp as [Hp Hs].
  apply andb_true_iff in Hp as [Hp Hw].
  apply andb_true_iff in Hp as [Hd Hc].
  apply orb_true_iff in Ha as [Ha|Ha]; [| now apply IH].
  apply Ascii.eqb_eq in Ha. subst c.
  apply negb_true_iff in Hd, Hc, Hw.
  apply Ascii.eqb_neq in Hd, Hc. auto.
Qed.

Lemma plainName_without (s : string) (a : ascii) :
  plainName s = true -> (a = "." \/ a = "," \/ isWhiteSpace a = true)%char ->
  hasChar a s = false.
Proof.
  intros Hp Ha. destruct (hasChar a s) eqn:E; [| reflexivity].
  destruct (plainName_chars s a Hp E) as (H1 & H2 & H3).
  destruct Ha as [Ha|[Ha|Ha]]; congruence.
Qed.

Lemma trimStart_no_space (s : string) :
  (forall a, hasChar a s = true -> isWhiteSpace a = false) -> trimStart s = s.
Proof.
  destruct s as [|c s]; [reflexivity |]. intros H. simpl.
  rewrite (H c); [reflexivity |]. simpl. now rewrite Ascii.eqb_refl.
Qed.

Lemma trimEnd_no_space (s : string) :
  (forall a, hasChar a s = true -> isWhiteSpace a = false) -> trimEnd s = s.
Proof.
  induction s as [|c s IH]; [reflexivity |]. intros H. simpl.
  rewrite IH.
  - destruct s; [| reflexivity]. rewrite (H c); [reflexivity |].
    simpl. now rewrite Ascii.eqb_refl.
  - intros a Ha. apply H. simpl. rewrite Ha. apply orb_true_r.
Qed.

Lemma trim_no_space (s : string) :
  (forall a, hasChar a s = true -> isWhiteSpace a = false) -> trim s = s.
Proof.
  intros H. unfold trim. rewrite trimStart_no_space by exact H.
  now apply trimEnd_no_space.
Qed.

Lemma nth_error_piece {A : Type} (P : A -> Prop) (l : list A) (n : nat) (x : A) :
  Forall P l -> nth_error l n = Some x -> P x.
Proof.
  intros Hall Hn. apply nth_error_In in Hn.
  rewrite List.Forall_forall in Hall. auto.
Qed.

(** X12: whatever the environment variable holds, [parseCatalogs] gives at
    least one entry; every entry has a catalog name, and that name holds
    no dot, no comma and no leading white space; a schema name, when the
    entry has one, holds no dot and no comma. *)
Theorem parseCatalogs_names (TRINO_CATALOGS : option string) :
  parseCatalogs TRINO_CATALOGS <> [] /\
  Forall (fun entry =>
            (exists catalog,
                fst entry = Some catalog /\
                hasChar "." catalog = false /\ hasChar "," catalog = false /\
                trimStart catalog = catalog) /\
            (forall schema,
                snd entry = Some schema ->
                hasChar "." schema = false /\ hasChar "," schema = false))
         (parseCatalogs TRINO_CATALOGS).
Proof.
  unfold parseCatalogs.
  set (catalogsEnv := match TRINO_CATALOGS with
                      | Some s => if String.eqb s "" then _ else s
                      | None => _ end).
  split.
  - pose proof (split_nonempty "," catalogsEnv).
    destruct (split "," catalogsEnv); [contradiction | discriminate].
  - apply List.Forall_map.
    pose proof (split_pieces_without_sep "," catalogsEnv) as Hall.
    eapply List.Forall_impl; [| exact Hall]. intros cs Hcs. cbn beta in *.
    pose proof (hasChar_trim "," cs Hcs) as Htrim.
    pose proof (split_pieces_without_sep "." (trim cs)) as Hdots.
    pose proof (split_pieces_chars "." "," (trim cs) Htrim) as Hcommas.
    split.
    + destruct (split_first_piece "." (trim cs) (trim_head cs))
        as (piece & pieces & E & Hstart).
      exists piece. rewrite E in *. simpl.
      inversion Hdots; inversion Hcommas; subst. auto.
    + cbn [snd]. intros schema Hs. split.
      * exact (nth_error_piece _ _ _ _ Hdots Hs).
      * exact (nth_error_piece _ _ _ _ Hcommas Hs).
Qed.

Lemma append_one_char (c : ascii) (s : string) :
  String.append (String c "") s = String c s.
Proof. reflexivity. Qed.

Lemma join_head_nonempty (sep p : string) (ps : list string) :
  p <> "" -> join sep (p :: ps) <> "".
Proof.
  intros Hp. destruct p as [|c p]; [congruence |].
  destruct ps; simpl; discriminate.
Qed.

(** X13: a configured list of plain names is read back as written: for
    catalog and schema names without dots, commas and white space, the
    entries [catalog.schema] joined by commas parse to exactly these pairs,
    in order. *)
Theorem parseCatalogs_round_trip (pairs : list (string * string)) :
  pairs <> [] ->
  Forall (fun p => plainName (fst p) = true /\ plainName (snd p) = true) pairs ->
  parseCatalogs
    (Some (join "," (map (fun p => (fst p ++ "." ++ snd p)%string) pairs)))
  = map (fun p => (Some (fst p), Some (snd p))) pairs.
Proof.
  intros Hne Hall. unfold parseCatalogs.
  set (entries := map (fun p => (fst p ++ "." ++ snd p)%string) pairs).
  assert (Hnonempty : join "," entries <> "").
  { destruct pairs as [|p pairs]; [congruence |]. subst entries. simpl map.
    apply join_head_nonempty. destruct (fst p); discriminate. }
  apply String.eqb_neq in Hnonempty. rewrite Hnonempty.
  rewrite split_join.
  - subst entries. rewrite List.map_map. apply List.map_ext_in.
    intros [c s] Hin. rewrite List.Forall_forall in Hall.
    destruct (Hall _ Hin) as [Hc Hs]. simpl in Hc, Hs. cbn [fst snd].
    rewrite trim_no_space.
    + change (c ++ "." ++ s)%string with (join "." [c; s]).
      rewrite split_join; [reflexivity | discriminate |].
      repeat constructor; apply plainName_without; auto.
    + intros a Ha. rewrite hasChar_append in Ha.
      apply orb_true_iff in Ha as [Ha|Ha].
      * now apply (plainName_chars c a Hc).
      * rewrite append_one_char in Ha. cbn [hasChar] in Ha.
        apply orb_true_iff in Ha as [Ha|Ha].
        -- apply Ascii.eqb_eq in Ha. now subst a.
        -- now apply (plainName_chars s a Hs).
  - subst entries. destruct pairs; [congruence | discriminate].
  - subst entries. apply List.Forall_map.
    eapply List.Forall_impl; [| exact Hall]. intros [c s] [Hc Hs]. cbn [fst snd] in *.
    rewrite hasChar_append, append_one_char. cbn [hasChar].
    change (Ascii.eqb "." ",") with false. cbn [orb].
    rewrite !plainName_without; auto.
Qed.

Lemma parseCatalogs_round_trip_witness :
  parseCatalogs (Some "lakehouse.gold,database.global")
  = [(Some "lakehouse", Some "gold"); (Some "database", Some "global")].
Proof.
  apply (parseCatalogs_round_trip [("lakehouse", "gold"); ("database", "global")]).
  - discriminate.
  - repeat constructor.
Defined.

End CatalogFacts.

Module GatewayFacts.
Import JS Validator Cache Pool Forecast Gateway.
Import JSFacts ValidatorFacts ValidatorMoreFacts CacheFacts CacheRunFacts PoolFacts SplitFacts CatalogFacts.

#[local] Arguments String.append !_ _ / : simpl nomatch.
Local Open Scope string_scope.
Local Open Scope list_scope.

Section WithWorld.
Context `{World}.

(** ** The statements that the service writes itself *)

Lemma beginsWithWord_literal (verb rest : string) :
  sameWord verb verb = true ->
  beginsWithWord verb (String.append verb (String " " rest)).
Proof.
  intros Hw. exists "", verb, " "%char, rest. unfold concat3. auto.
Qed.

(** X14: the statements that the service builds for listing and
    describing tables pass its own check, for any names. *)
Theorem own_statements_pass (catalog schema : string) (tableName : jsval) :
  validateReadOnly (showTablesSql catalog schema) = Return true /\
  validateReadOnly (describeSql catalog schema tableName) = Return true.
Proof.
  split.
  - apply (accepts_allowed_word "SHOW"); [simpl; auto |].
    apply (beginsWithWord_literal "SHOW"). reflexivity.
  - apply (accepts_allowed_word "DESCRIBE"); [simpl; auto |].
    apply (beginsWithWord_literal "DESCRIBE"). reflexivity.
Qed.

(** ** One call of [executeQuery] *)

Lemma validateReadOnly_true (sql : string) (b : bool) :
  validateReadOnly sql = Return b -> b = true.
Proof.
  unfold validateReadOnly.
  destruct (existsb _ forbiddenPatterns); [discriminate |].
  destruct (negb _); [discriminate |]. now intros [= <-].
Qed.

Ltac run_executeQuery sql uc st :=
  unfold executeQuery;
  let V := fresh "V" in
  let G := fresh "G" in
  destruct (validateReadOnly sql) as [? | ?] eqn:V;
  [ try (apply validateReadOnly_true in V as ->);
    destruct uc as [[|]|]; cbn beta iota;
    try (destruct (Cache.get (dateNow (ticks st)) sql (cacheService st))
           as [[[? ?]|] ?] eqn:G);
    cbn beta iota;
    try (destruct (firstCatalog st) as [? ?] eqn:?;
         destruct (getClient _ _ (trino st)) as [? ?] eqn:?;
         destruct (clientQuery (length (sent st)) _ sql) as [? | ?] eqn:?);
    cbn beta iota
  | ].

(** What a call leaves alone, and the two ways it can go: nothing is sent
    and the pool is as before, or the statement passed the check and went
    to the handle that [getClient] gives for the first catalog. *)
Lemma executeQuery_frame (sql : string) (uc : option bool) (st : state) :
  firstCatalog (snd (executeQuery sql uc st)) = firstCatalog st /\
  moreCatalogs (snd (executeQuery sql uc st)) = moreCatalogs st /\
  schemaCache (snd (executeQuery sql uc st)) = schemaCache st /\
  ((sent (snd (executeQuery sql uc st)) = sent st /\
    trino (snd (executeQuery sql uc st)) = trino st) \/
   (validateReadOnly sql = Return true /\
    sent (snd (executeQuery sql uc st)) =
      sent st ++ [(fst (getClient (fst (firstCatalog st)) (snd (firstCatalog st))
                                  (trino st)), sql)] /\
    trino (snd (executeQuery sql uc st)) =
      snd (getClient (fst (firstCatalog st)) (snd (firstCatalog st)) (trino st)))).
Proof.
  run_executeQuery sql uc st; cbn [snd fst firstCatalog moreCatalogs schemaCache sent trino];
    repeat match goal with
           | E : getClient _ _ _ = _ |- _ => rewrite E; clear E
           end;
    cbn [fst snd]; auto 10.
Qed.
(** ** Every operation is a sequence of [executeQuery] calls *)

Section Invariant.
Variable P : state -> Prop.
Hypothesis P_executeQuery :
  forall sql uc st, P st -> P (snd (executeQuery sql uc st)).
Hypothesis P_schemaCache : forall sc st, P st -> P (setSchemaCache sc st).
Hypothesis P_clearCache : forall st, P st -> P (clearCache st).

Lemma P_getTablesFromCatalog catalog schema st :
  P st -> P (snd (getTablesFromCatalog catalog schema st)).
Proof.
  intros HP. unfold getTablesFromCatalog.
  pose proof (P_executeQuery (showTablesSql catalog schema) None st HP) as H1.
  destruct (executeQuery _ None st) as [[r|msg] st']; exact H1.
Qed.

Lemma P_getTablesLoop entries acc st :
  P st -> P (snd (getTablesLoop entries acc st)).
Proof.
  revert acc st. induction entries as [|[c s] entries IH]; intros acc st HP;
    [exact HP |].
  simpl. pose proof (P_getTablesFromCatalog c s st HP) as H1.
  destruct (getTablesFromCatalog c s st) as [[tables|msg] st']; now apply IH.
Qed.

Lemma P_getTableSchema catalog schema tableName st :
  P st -> P (snd (getTableSchema catalog schema tableName st)).
Proof.
  intros HP. unfold getTableSchema.
  pose proof (P_executeQuery (describeSql catalog schema tableName) None st HP) as H1.
  destruct (executeQuery _ None st) as [[r|msg] st']; exact H1.
Qed.

Lemma P_describeLoop tables acc st :
  P st -> P (snd (describeLoop tables acc st)).
Proof.
  revert acc st. induction tables as [|info tables IH]; intros acc st HP;
    [exact HP |].
  simpl.
  pose proof (P_getTableSchema (tableCatalog info) (tableSchema info)
                (table info) st HP) as H1.
  destruct (getTableSchema _ _ _ st) as [[cols|msg] st']; now apply IH.
Qed.

Lemma P_getFullSchema st : P st -> P (snd (getFullSchema st)).
Proof.
  intros HP. unfold getFullSchema.
  destruct (schemaCache st) as [schema|]; [exact HP |].
  unfold getTables.
  pose proof (P_getTablesLoop (catalogSchemas st) [] st HP) as H1.
  destruct (getTablesLoop (catalogSchemas st) [] st) as [tables st1].
  pose proof (P_describeLoop tables [] st1 H1) as H2.
  destruct (describeLoop tables [] st1) as [schema st2].
  exact (P_schemaCache (Some schema) st2 H2).
Qed.

Lemma P_perform op st : P st -> P (perform st op).
Proof.
  intros HP. destruct op; simpl.
  - now apply P_executeQuery.
  - now apply P_getTablesLoop.
  - now apply P_getTableSchema.
  - now apply P_getFullSchema.
  - unfold refreshSchema. apply P_getFullSchema.
    exact (P_schemaCache None st HP).
  - now apply P_clearCache.
Qed.

Lemma P_performAll ops st : P st -> P (performAll ops st).
Proof.
  unfold performAll. revert st.
  induction ops as [|op ops IH]; intros st HP; [exact HP |].
  simpl. apply IH. now apply P_perform.
Qed.

End Invariant.

(** X15: nothing reaches the engine that the check has not passed: over
    any sequence of operations of the service, failed ones included, the
    log of statements sent only grows, and every statement added to it
    is one for which [validateReadOnly] returns [true]. *)
Theorem only_checked_statements_are_sent (ops : list operation) (st : state) :
  exists more,
    sent (performAll ops st) = sent st ++ more /\
    Forall (fun entry => validateReadOnly (snd entry) = Return true) more.
Proof.
  apply (P_performAll
           (fun st' => exists more,
                sent st' = sent st ++ more /\
                Forall (fun entry => validateReadOnly (snd entry) = Return true)
                       more)).
  - intros sql uc st' (more & E & Hall).
    destruct (executeQuery_frame sql uc st') as (_ & _ & _ & [[Hs _]|(V & Hs & _)]).
    + exists more. now rewrite Hs.
    + eexists (more ++ [_]). rewrite Hs, E, <- app_assoc. split; [reflexivity |].
      apply Forall_app. split; [exact Hall |]. now repeat constructor.
  - intros sc st' HP. exact HP.
  - intros st' HP. exact HP.
  - exists []. now rewrite app_nil_r.
Qed.

(** X16: a statement that begins with a forbidden verb is refused before
    anything happens: the call throws the write-forbidden error and the
    state is the one before the call: no cache lookup is counted, no
    connection is made, nothing is sent, whatever the cache holds and
    whether caching is asked for or not. *)
Theorem executeQuery_refuses_writes (verb sql : string) (uc : option bool)
    (st : state) :
  In verb forbiddenVerbs -> beginsWithWord verb sql ->
  executeQuery sql uc st = (Throw writeForbidden, st).
Proof.
  intros Hv Hb. unfold executeQuery.
  now rewrite (rejects_forbidden_word verb sql Hv Hb).
Qed.

(** ** The query cache *)

(** A call that returns with caching on leaves its result in the cache,
    under the key of its statement. *)
Lemma executeQuery_caches (sql : string) (uc : option bool) (st st1 : state)
    (r : queryResult) :
  uc <> Some false ->
  executeQuery sql uc st = (Return r, st1) ->
  exists it,
    map_get (generateKey sql) (cache (cacheService st1)) = Some it /\
    Cache.value it = (columns r, rows r).
Proof.
  intros Huc. run_executeQuery sql uc st; try congruence; intros [= <- <-];
    cbn [cacheService columns rows].
  all: try (unfold Cache.get in G;
            destruct (map_get (generateKey sql) (cache (cacheService st)))
              as [it|] eqn:M;
            [destruct (dateNow (ticks st) >? expiresAt it)%Z |];
            inversion G; subst; clear G;
            try (exists it; split; [exact M | congruence])).
  all: eexists; split;
    [apply map_get_after_set
    | cbn [Cache.value columns rows]; now destruct (collect _)].
Qed.

(** X17: asking again is answered from the cache.  After a call that
    returned with caching on, a call with the same statement, or with any
    statement that passes the check and has the same key, made before the
    entry expires, returns the same columns and rows marked [fromCache],
    and sends nothing to the engine: the log and the pool stay as they
    are, and one more hit is counted. *)
Theorem executeQuery_again_from_cache (sql sql' : string) (uc uc' : option bool)
    (st st1 : state) (r : queryResult) :
  uc <> Some false -> uc' <> Some false ->
  executeQuery sql uc st = (Return r, st1) ->
  generateKey sql' = generateKey sql ->
  validateReadOnly sql' = Return true ->
  (forall it, map_get (generateKey sql) (cache (cacheService st1)) = Some it ->
              (dateNow (ticks st1) <= expiresAt it)%Z) ->
  exists st2,
    executeQuery sql' uc' st1
      = (Return (QueryResult (columns r) (rows r) true), st2) /\
    sent st2 = sent st1 /\ trino st2 = trino st1 /\
    hits (cacheService st2) = S (hits (cacheService st1)) /\
    cache (cacheService st2) = cache (cacheService st1).
Proof.
  intros Huc Huc' Hexec Hkey Hvalid Hfresh.
  destruct (executeQuery_caches sql uc st st1 r Huc Hexec) as (it & M & Hv).
  specialize (Hfresh it M).
  assert (G : Cache.get (dateNow (ticks st1)) sql' (cacheService st1) =
              (Some (Cache.value it),
               Cache.Service (cache (cacheService st1)) (maxSize (cacheService st1))
                 (defaultTTL (cacheService st1)) (S (hits (cacheService st1)))
                 (misses (cacheService st1)))).
  { apply get_fresh; [now rewrite Hkey | exact Hfresh]. }
  unfold executeQuery. rewrite Hvalid.
  destruct uc' as [[|]|]; try congruence; cbn beta iota;
    rewrite G, Hv; cbn beta iota; eexists; split; try reflexivity; auto.
Qed.

Lemma get_adds_no_entry {V : Type} (now : Z) (sql k : string)
    (this : CacheService V) (it : item V) :
  map_get k (cache (snd (Cache.get now sql this))) = Some it ->
  map_get k (cache this) = Some it.
Proof.
  unfold Cache.get.
  destruct (map_get (generateKey sql) (cache this)) as [it0|] eqn:M;
    [destruct (now >? expiresAt it0)%Z |]; cbn [snd cache]; auto.
  destruct (String.eqb_spec (generateKey sql) k) as [<-|Hne].
  - now rewrite map_get_delete_eq.
  - now rewrite map_get_delete_ne.
Qed.

(** X18: what a call may do to the cache.  With [useCache = false] the
    cache service is left exactly as it was, counters included; a call
    that throws, for whatever reason, leaves no entry in the cache that
    was not there before. *)
Theorem executeQuery_cache_discipline (sql : string) (st : state) :
  cacheService (snd (executeQuery sql (Some false) st)) = cacheService st /\
  forall uc msg st1,
    executeQuery sql uc st = (Throw msg, st1) ->
    forall k it,
      map_get k (cache (cacheService st1)) = Some it ->
      map_get k (cache (cacheService st)) = Some it.
Proof.
  split.
  - run_executeQuery sql (Some false) st; reflexivity.
  - intros uc msg st1.
    run_executeQuery sql uc st; try congruence; intros [= <- <-];
      cbn [cacheService]; auto.
    all: intros k it;
      match goal with
      | G : Cache.get ?now _ _ = (_, ?c) |- _ =>
          intros Hk; apply (get_adds_no_entry now sql k); now rewrite G
      end.
Qed.

(** ** The pages of a result *)

Lemma collect_from (chunks : list chunk) (columns : list string)
    (rows : list (list jsval)) :
  fold_left addChunk chunks (columns, rows) =
  (match columns with
   | [] => match List.find (fun c => match chunkColumns c with
                                     | Some (_ :: _) => true
                                     | _ => false
                                     end) chunks with
           | Some c => default [] (chunkColumns c)
           | None => []
           end
   | _ => columns
   end,
   rows ++ concat (map (fun c => default [] (chunkData c)) chunks)).
Proof.
  revert columns rows.
  induction chunks as [|c chunks IH]; intros columns rows; simpl.
  - rewrite app_nil_r. now destruct columns.
  - rewrite IH. destruct c as [[[|name names]|] [data|]], columns; simpl;
      rewrite ?app_assoc, ?app_nil_r; reflexivity.
Qed.

(** X19: the result of a statement that comes in pages: the rows are
    those of all pages in arrival order, a page without data adding none;
    the column names are those of the first page that names at least one
    column, and there are none when no page does. *)
Theorem collect_pages (chunks : list chunk) :
  snd (collect chunks) = concat (map (fun c => default [] (chunkData c)) chunks) /\
  fst (collect chunks) =
    match List.find (fun c => match chunkColumns c with
                              | Some (_ :: _) => true
                              | _ => false
                              end) chunks with
    | Some c => default [] (chunkColumns c)
    | None => []
    end.
Proof. unfold collect. rewrite collect_from. split; reflexivity. Qed.

(** ** Listing tables *)

Lemma getTablesLoop_acc entries acc st :
  getTablesLoop entries acc st =
  (acc ++ fst (getTablesLoop entries [] st), snd (getTablesLoop entries [] st)).
Proof.
  revert acc st. induction entries as [|[c s] entries IH]; intros acc st; simpl.
  - now rewrite app_nil_r.
  - destruct (getTablesFromCatalog c s st) as [[tables|msg] st'].
    + rewrite (IH (acc ++ tables)), (IH ([] ++ tables)). simpl.
      now rewrite app_assoc.
    + apply IH.
Qed.

Lemma getTablesLoop_app before after acc st :
  getTablesLoop (before ++ after) acc st =
  getTablesLoop after (fst (getTablesLoop before acc st))
                (snd (getTablesLoop before acc st)).
Proof.
  revert acc st. induction before as [|[c s] before IH]; intros acc st; simpl;
    [reflexivity |].
  destruct (getTablesFromCatalog c s st) as [[tables|msg] st']; apply IH.
Qed.

(** X20: [getTables] gives the tables of the configured catalogs in the
    order of the configuration, and a catalog whose listing throws costs
    only its own tables: the tables found before it are kept and the
    catalogs after it are still listed, from the state that the failed
    call left. *)
Theorem getTables_survives_failing_catalog
    (before after : list (string * string)) (catalog schema : string)
    (st : state) :
  let '(found, st1) := getTablesLoop before [] st in
  let '(outcome, st2) := getTablesFromCatalog catalog schema st1 in
  let '(rest, st3) := getTablesLoop after [] st2 in
  getTablesLoop (before ++ (catalog, schema) :: after) [] st =
  (found ++ match outcome with Return tables => tables | Throw _ => [] end
         ++ rest, st3).
Proof.
  rewrite getTablesLoop_app.
  destruct (getTablesLoop before [] st) as [found st1]. cbn [fst snd].
  simpl. destruct (getTablesFromCatalog catalog schema st1) as [[tables|msg] st2].
  - destruct (getTablesLoop after [] st2) as [rest st3] eqn:E.
    rewrite getTablesLoop_acc, E. cbn [fst snd]. now rewrite <- app_assoc.
  - destruct (getTablesLoop after [] st2) as [rest st3] eqn:E.
    rewrite getTablesLoop_acc, E. reflexivity.
Qed.

(** ** The schema *)

Lemma schemaCache_getFullSchema st :
  schemaCache (snd (getFullSchema st)) = Some (fst (getFullSchema st)).
Proof.
  unfold getFullSchema. destruct (schemaCache st) as [schema|] eqn:E; [exact E |].
  destruct (getTables st) as [tables st1].
  now destruct (describeLoop tables [] st1) as [schema st2].
Qed.

(** X21: the schema is built once.  After [getFullSchema] has returned,
    calling it again returns the same schema and changes nothing: no
    statement is sent, no cache lookup is counted, also when the schema
    that was built is empty; the same holds after [refreshSchema]. *)
Theorem getFullSchema_builds_once (st : state) :
  getFullSchema (snd (getFullSchema st))
    = (fst (getFullSchema st), snd (getFullSchema st)) /\
  getFullSchema (snd (refreshSchema st))
    = (fst (refreshSchema st), snd (refreshSchema st)).
Proof.
  assert (Hagain : forall st', getFullSchema (snd (getFullSchema st'))
                               = (fst (getFullSchema st'), snd (getFullSchema st'))).
  { intros st'. pose proof (schemaCache_getFullSchema st') as Hc.
    unfold getFullSchema at 1. now rewrite Hc. }
  split; apply Hagain.
Qed.

Lemma describeLoop_keys tables acc st :
  List.NoDup (map_keys acc) ->
  List.NoDup (map_keys (fst (describeLoop tables acc st))) /\
  forall k, In k (map_keys (fst (describeLoop tables acc st))) <->
            In k (map_keys acc) \/ In k (map fullName tables).
Proof.
  revert acc st. induction tables as [|info tables IH]; intros acc st Hnd; simpl.
  - split; [exact Hnd | tauto].
  - assert (Hset : forall cols,
               List.NoDup (map_keys (map_set (fullName info) (info, cols) acc)) /\
               forall k, In k (map_keys (map_set (fullName info) (info, cols) acc))
                         <-> In k (map_keys acc) \/ fullName info = k).
    { intros cols. split; [now apply NoDup_map_set |]. intros k.
      destruct (in_dec string_dec (fullName info) (map_keys acc)) as [Hin|Hnot].
      - rewrite map_keys_set_old by assumption. split; [tauto |].
        intros [Hk|<-]; assumption.
      - rewrite map_keys_set_new by assumption. rewrite in_app_iff. simpl. tauto. }
    destruct (getTableSchema _ _ _ st) as [[cols|msg] st'].
    + destruct (Hset cols) as [Hnd' Hin'].
      destruct (IH _ st' Hnd') as [H1 H2]. split; [exact H1 |].
      intros k. rewrite H2, Hin'. tauto.
    + destruct (Hset []) as [Hnd' Hin'].
      destruct (IH _ st' Hnd') as [H1 H2]. split; [exact H1 |].
      intros k. rewrite H2, Hin'. tauto.
Qed.

Lemma describeLoop_entries tables acc st :
  Forall (fun entry => fullName (fst (snd entry)) = fst entry) acc ->
  Forall (fun entry => fullName (fst (snd entry)) = fst entry)
         (fst (describeLoop tables acc st)).
Proof.
  revert acc st. induction tables as [|info tables IH]; intros acc st Hacc;
    [exact Hacc |].
  assert (Hset : forall cols,
             Forall (fun entry => fullName (fst (snd entry)) = fst entry)
                    (map_set (fullName info) (info, cols) acc)).
  { intros cols. clear IH. induction acc as [|[k v] acc IHacc]; simpl.
    - now repeat constructor.
    - inversion Hacc; subst.
      destruct (String.eqb (fullName info) k); constructor; auto. }
  simpl. destruct (getTableSchema _ _ _ st) as [[cols|msg] st']; apply IH, Hset.
Qed.

(** X22: the schema that [getFullSchema] builds from a list of tables has
    exactly one entry per full name that occurs in the list, whether the
    description of the table succeeded or threw, and every entry sits
    under the full name of the table it describes. *)
Theorem schema_one_entry_per_name (tables : list tableInfo) (st : state) :
  List.NoDup (map_keys (fst (describeLoop tables [] st))) /\
  (forall k, In k (map_keys (fst (describeLoop tables [] st))) <->
             In k (map fullName tables)) /\
  Forall (fun entry => fullName (fst (snd entry)) = fst entry)
         (fst (describeLoop tables [] st)).
Proof.
  destruct (describeLoop_keys tables [] st) as [Hnd Hin]; [constructor |].
  split; [exact Hnd |]. split.
  - intros k. rewrite Hin. simpl. tauto.
  - apply describeLoop_entries. constructor.
Qed.

(** ** One connection *)

(** X23: a service that starts with an empty pool makes one connection
    for good: whatever operations follow, every statement sent, the
    listings of the other catalogs included, goes to the same handle, the
    one created first for the first configured catalog and schema, and no
    second handle is ever created. *)
Theorem one_connection_serves_all (ops : list operation) (st : state)
    (srv usr : option string) :
  trino st = Pool.constructor srv usr ->
  (created (trino (performAll ops st)) <= 1)%nat /\
  exists more,
    sent (performAll ops st) = sent st ++ more /\
    Forall (fun entry =>
              fst entry = Client 0 srv (fst (firstCatalog st))
                                 (snd (firstCatalog st)) usr)
           more.
Proof.
  intros Hnew.
  set (c0 := fst (firstCatalog st)). set (s0 := snd (firstCatalog st)).
  set (h := Client 0 srv c0 s0 usr).
  set (P := fun st' =>
              firstCatalog st' = firstCatalog st /\
              (trino st' = Pool.constructor srv usr \/
               trino st' = Pool.Service srv usr {[poolKey c0 s0 := h]} 10 1) /\
              exists more,
                sent st' = sent st ++ more /\
                Forall (fun entry => fst entry = h) more).
  assert (HP : P (performAll ops st)).
  { apply (P_performAll P).
    - intros sql uc st' (Hf & Ht & more & E & Hall).
      destruct (executeQuery_frame sql uc st')
        as (Hf' & _ & _ & [[Hs Ht']|(_ & Hs & Ht')]).
      + split; [congruence |]. split; [now rewrite Ht' |].
        exists more. now rewrite Hs.
      + rewrite Hf in Hs, Ht'. fold c0 s0 in Hs, Ht'.
        assert (G : getClient c0 s0 (trino st') =
                    (h, Pool.Service srv usr {[poolKey c0 s0 := h]} 10 1)).
        { destruct Ht as [-> | ->].
          - rewrite getClient_admitted; [reflexivity | apply lookup_empty |].
            unfold Pool.constructor. cbn [clientPool maxPoolSize].
            rewrite map_size_empty. lia.
          - apply getClient_resident. simpl. apply lookup_singleton_eq. }
        rewrite G in Hs, Ht'. cbn [fst snd] in Hs, Ht'.
        split; [congruence |]. split; [now right |].
        exists (more ++ [(h, sql)]). rewrite Hs, E, <- app_assoc.
        split; [reflexivity |]. apply Forall_app. split; [exact Hall |].
        now repeat constructor.
    - intros sc st' HP. exact HP.
    - intros st' HP. exact HP.
    - split; [reflexivity |]. split; [now left |].
      exists []. now rewrite app_nil_r. }
  destruct HP as (_ & Ht & Hmore). split; [| exact Hmore].
  destruct Ht as [-> | ->]; simpl; lia.
Qed.

End WithWorld.

Lemma one_connection_serves_all_witness :
  (created (trino (@performAll exampleWorld
                     [GetFullSchema; ExecuteQuery "select 1" None; GetTables]
                     exampleState)) <= 1)%nat /\
  exists more,
    sent (@performAll exampleWorld
            [GetFullSchema; ExecuteQuery "select 1" None; GetTables]
            exampleState) = sent exampleState ++ more /\
    Forall (fun entry => fst entry = Client 0 None "lakehouse" "gold" None) more.
Proof.
  apply (@one_connection_serves_all exampleWorld
           [GetFullSchema; ExecuteQuery "select 1" None; GetTables]
           exampleState None None).
  reflexivity.
Defined.

Lemma executeQuery_again_from_cache_witness :
  exists st2,
    @executeQuery exampleWorld " SELECT 1" None
      (snd (@executeQuery exampleWorld "select 1" None exampleState))
    = (Return (QueryResult ["Table"] [[JStr "t1"]] true), st2) /\
    sent st2 = sent (snd (@executeQuery exampleWorld "select 1" None exampleState)) /\
    trino st2 = trino (snd (@executeQuery exampleWorld "select 1" None exampleState)) /\
    hits (cacheService st2) =
      S (hits (cacheService
                 (snd (@executeQuery exampleWorld "select 1" None exampleState)))) /\
    cache (cacheService st2) =
      cache (cacheService
               (snd (@executeQuery exampleWorld "select 1" None exampleState))).
Proof.
  apply (@executeQuery_again_from_cache exampleWorld "select 1" " SELECT 1"
           None None exampleState
           (snd (@executeQuery exampleWorld "select 1" None exampleState))
           (QueryResult ["Table"] [[JStr "t1"]] false)).
  - discriminate.
  - discriminate.
  - vm_compute. reflexivity.
  - vm_compute. reflexivity.
  - vm_compute. reflexivity.
  - intros it Hit. vm_compute in Hit. injection Hit as <-.
    vm_compute. discriminate.
Defined.

Lemma executeQuery_refuses_writes_witness :
  @executeQuery exampleWorld "  drop table lakehouse.gold.t1" None exampleState
  = (Throw writeForbidden, exampleState).
Proof.
  apply (@executeQuery_refuses_writes exampleWorld "DROP").
  - simpl. auto.
  - exists "  ", "drop", " "%char, "table lakehouse.gold.t1".
    repeat split; reflexivity.
Defined.

End GatewayFacts.

Module ControllerFacts.
Import JS Validator Forecast Gateway Controller.
Import JSFacts ValidatorFacts ValidatorMoreFacts SplitFacts CatalogFacts GatewayFacts.

#[local] Arguments String.append !_ _ / : simpl nomatch.
Local Open Scope string_scope.
Local Open Scope list_scope.

Section History.
Context {C : Type}.
Implicit Types (history : list (message C)) (conversations : gmap string (list (message C))).

(** An alternating history is a list of turns. *)
Lemma alternates_turns history :
  alternates history = true ->
  exists turns : list (string * C),
    history = flat_map (fun t => [UserMessage (fst t); AssistantMessage (snd t)]) turns.
Proof.
  revert history. fix IH 1.
  intros [|[u|a] [|[u'|a'] rest]]; simpl; try discriminate.
  - exists []. reflexivity.
  - intros Hr. destruct (IH rest Hr) as [turns ->].
    exists ((u, a') :: turns). reflexivity.
Qed.

Lemma turns_alternate (turns : list (string * C)) :
  alternates (flat_map (fun t => [UserMessage (fst t); AssistantMessage (snd t)]) turns)
  = true.
Proof. induction turns as [|t turns IH]; simpl; auto. Qed.

Lemma length_turns (turns : list (string * C)) :
  length (flat_map (fun t => [UserMessage (C:=C) (fst t); AssistantMessage (snd t)]) turns)
  = 2 * length turns.
Proof. induction turns as [|t turns IH]; simpl; lia. Qed.

Lemma sliceLast_short {A : Type} (n : nat) (l : list A) :
  length l <= n -> sliceLast n l = l.
Proof.
  intros Hle. unfold sliceLast. replace (length l - n) with 0 by lia. reflexivity.
Qed.

Lemma length_sliceLast {A : Type} (n : nat) (l : list A) :
  n <= length l -> length (sliceLast n l) = n.
Proof. intros Hle. unfold sliceLast. rewrite length_skipn. lia. Qed.

(** One more turn on an alternating history of at most 20 entries. *)
Lemma answered_history history (u : string) (a : C) :
  length history <= 20 -> alternates history = true ->
  let history' := history ++ [UserMessage u; AssistantMessage a] in
  let kept := if (20 <? length history')%nat
              then sliceLast 20 history' else history' in
  length kept <= 20 /\ alternates kept = true.
Proof.
  intros Hlen Halt. destruct (alternates_turns history Halt) as [turns ->].
  rewrite length_turns in Hlen.
  change [UserMessage u; AssistantMessage a]
    with (flat_map (fun t : string * C => [UserMessage (fst t); AssistantMessage (snd t)])
                   [(u, a)]).
  rewrite <- flat_map_app. cbv zeta.
  destruct (Nat.ltb_spec 20 (length (flat_map
              (fun t : string * C => [UserMessage (fst t); AssistantMessage (snd t)])
              (turns ++ [(u, a)])))) as [Hlt|Hge].
  - rewrite length_turns, length_app in Hlt. cbn [length] in Hlt.
    assert (Hten : length turns = 10) by lia.
    destruct turns as [|t turns]; [discriminate |]. cbn [length] in Hten.
    assert (E : sliceLast 20
                  (flat_map (fun t : string * C =>
                               [UserMessage (fst t); AssistantMessage (snd t)])
                            ((t :: turns) ++ [(u, a)]))
                = flat_map (fun t : string * C =>
                              [UserMessage (fst t); AssistantMessage (snd t)])
                           (turns ++ [(u, a)])).
    { unfold sliceLast. rewrite length_turns, length_app. cbn [length].
      replace (2 * (S (length turns) + 1) - 20) with 2 by lia. reflexivity. }
    rewrite E, length_turns, length_app, turns_alternate. cbn [length].
    split; [lia | reflexivity].
  - split; [exact Hge | apply turns_alternate].
Qed.

(** X24: as long as no reply is [null], every conversation stays a list
    of at most 20 entries in which user and assistant entries take turns,
    starting with the user: this holds after any sequence of chat
    requests, answered or rejected, and clearings, on any sessions. *)
Theorem histories_alternate_and_stay_short (events : list (event C))
    (sessionId : string) history :
  forallb (fun e => negb (isNullReply e)) events = true ->
  handleAll events ∅ !! sessionId = Some history ->
  length history <= 20 /\ alternates history = true.
Proof.
  intros Hevents.
  set (Inv := fun conversations =>
                forall sid h, conversations !! sid = Some h ->
                              length h <= 20 /\ alternates h = true).
  assert (HInv : Inv (handleAll events ∅)); [| intros Hh; exact (HInv _ _ Hh)].
  unfold handleAll.
  assert (H0 : Inv ∅) by (intros sid h Hh; now rewrite lookup_empty in Hh).
  revert H0. generalize (∅ : gmap string (list (message C))) as conversations.
  induction events as [|e events IH]; intros conversations HI; [exact HI |].
  simpl in Hevents. apply andb_true_iff in Hevents as [He Hevents].
  simpl. apply (IH Hevents). clear IH Hevents.
  assert (Hins : forall key h,
             length h <= 20 /\ alternates h = true ->
             Inv (<[key := h]> conversations)).
  { intros key h Hh sid h'. rewrite lookup_insert. case_decide.
    - now intros [= <-].
    - apply HI. }
  destruct e as [sid u r | sid]; simpl.
  - unfold chat. destruct (String.eqb u ""); [exact HI |].
    assert (Hold : length (default [] (conversations !! default "default" sid)) <= 20 /\
                   alternates (default [] (conversations !! default "default" sid)) = true).
    { destruct (conversations !! default "default" sid) as [h|] eqn:E; simpl.
      - exact (HI _ _ E).
      - split; [lia | reflexivity]. }
    destruct r as [| |a]; [now apply Hins | discriminate |].
    destruct Hold as [Hlen Halt].
    pose proof (answered_history _ u a Hlen Halt) as Hnew. cbv zeta in Hnew.
    destruct (20 <? length (default [] (conversations !! default "default" sid)
                            ++ [UserMessage u; AssistantMessage a]))%nat;
      now apply Hins.
  - unfold clearHistory. intros sid' h Hh.
    apply lookup_delete_Some in Hh as [_ Hh]. exact (HI _ _ Hh).
Qed.

(** X25: a reply that is [null] breaks the limit.  Such a request has
    its user entry pushed and then fails before the cut to 20 entries is
    reached, so [n] of them in a row make the history [n] entries longer,
    for every [n]. *)
Theorem null_replies_outgrow_the_limit (n : nat) (sessionId : option string)
    (userMessage : string) conversations :
  userMessage <> "" ->
  default [] (handleAll (List.repeat (Chat sessionId userMessage NullReply) n)
                        conversations !! default "default" sessionId)
  = default [] (conversations !! default "default" sessionId)
    ++ List.repeat (UserMessage userMessage) n.
Proof.
  intros Hu. apply String.eqb_neq in Hu. revert conversations.
  unfold handleAll.
  induction n as [|n IH]; intros conversations; cbn [List.repeat fold_left].
  - now rewrite app_nil_r.
  - rewrite IH. cbn [handle]. unfold chat. rewrite Hu.
    rewrite lookup_insert_eq. cbn [default from_option id]. now rewrite <- app_assoc.
Qed.

(** X26: an answered request restores the limit and is recorded last:
    whatever the history of the session was, afterwards it consists of at
    most 18 of its latest entries followed by the user entry and the
    assistant entry of this request. *)
Theorem answered_turn_is_recorded_last (sessionId : option string)
    (userMessage : string) (assistantContent : C) conversations :
  userMessage <> "" ->
  exists dropped earlier,
    default [] (conversations !! default "default" sessionId) = dropped ++ earlier /\
    length earlier <= 18 /\
    chat sessionId userMessage (Answered assistantContent) conversations
      !! default "default" sessionId
    = Some (earlier ++ [UserMessage userMessage; AssistantMessage assistantContent]).
Proof.
  intros Hu. apply String.eqb_neq in Hu. unfold chat. rewrite Hu.
  set (h := default [] (conversations !! default "default" sessionId)).
  destruct (Nat.ltb_spec 20 (length (h ++ [UserMessage userMessage;
                                           AssistantMessage assistantContent])))
    as [Hlt|Hge]; rewrite length_app in *; cbn [length] in *;
    rewrite lookup_insert_eq.
  - exists (firstn (length h - 18) h), (skipn (length h - 18) h).
    split; [now rewrite firstn_skipn |]. split; [rewrite length_skipn; lia |].
    unfold sliceLast. rewrite length_app. cbn [length].
    replace (length h + 2 - 20) with (length h - 18) by lia.
    rewrite skipn_app. replace (length h - 18 - length h) with 0 by lia.
    reflexivity.
  - exists [], h. split; [reflexivity |]. split; [lia | reflexivity].
Qed.

End History.

Lemma histories_alternate_and_stay_short_witness :
  length [UserMessage "sales last week"; AssistantMessage "no data"] <= 20 /\
  alternates [UserMessage "sales last week"; AssistantMessage "no data"] = true.
Proof.
  apply (histories_alternate_and_stay_short
           [Chat (Some "s1") "hello" (Answered "hi");
            ClearHistory (Some "s1");
            Chat (Some "s1") "sales" Rejected;
            Chat (Some "s1") "sales last week" (Answered "no data")]
           "s1").
  - reflexivity.
  - vm_compute. reflexivity.
Defined.

Lemma null_replies_outgrow_the_limit_witness :
  default [] (handleAll (List.repeat (Chat (C:=string) None "hello" NullReply) 25) ∅
              !! default "default" None)
  = default [] ((∅ : gmap string (list (message string))) !! default "default" None)
    ++ List.repeat (UserMessage "hello") 25.
Proof.
  apply (null_replies_outgrow_the_limit (C:=string) 25 None "hello" ∅).
  discriminate.
Defined.

Lemma answered_turn_is_recorded_last_witness :
  exists dropped earlier,
    default [] ((∅ : gmap string (list (message string))) !! default "default" None)
      = dropped ++ earlier /\
    length earlier <= 18 /\
    chat None "hello" (Answered "hi") ∅ !! default "default" None
    = Some (earlier ++ [UserMessage "hello"; AssistantMessage "hi"]).
Proof.
  apply (answered_turn_is_recorded_last None "hello" "hi" ∅). discriminate.
Defined.

(** ** Table names *)

Lemma length_split (sep : ascii) (s : string) :
  length (split sep s)
  = S (length (List.filter (Ascii.eqb sep) (list_ascii_of_string s))).
Proof.
  induction s as [|c s IH]; [reflexivity |]. simpl.
  rewrite (Ascii.eqb_sym sep c). destruct (Ascii.eqb c sep); simpl.
  - now rewrite IH.
  - pose proof (split_nonempty sep s).
    destruct (split sep s) as [|p ps]; [contradiction | exact IH].
Qed.

Section Names.
Context `{World}.

(** X27: the name check of the table-schema route accepts exactly the
    names with two dots, and an accepted name goes into the statement as
    it came: the statement sent for the parts is [DESCRIBE] followed by
    the name, which passes [validateReadOnly] whatever the parts hold. *)
Theorem tableNameParts_accepts_two_dots (tableName : string) :
  ((exists parts, tableNameParts tableName = inr parts) <->
   length (List.filter (Ascii.eqb ".") (list_ascii_of_string tableName)) = 2) /\
  forall catalog schema table,
    tableNameParts tableName = inr (catalog, schema, table) ->
    describeSql catalog schema (JStr table) = String.append "DESCRIBE " tableName /\
    validateReadOnly (describeSql catalog schema (JStr table)) = Return true.
Proof.
  pose proof (length_split "." tableName) as Hlen.
  pose proof (join_split "." tableName) as Hjoin.
  unfold tableNameParts. split.
  - destruct (String.eqb_spec tableName "") as [->|Hne].
    + split; [intros [parts Hp]; discriminate | discriminate].
    + destruct (split "." tableName) as [|a [|b [|c [|d rest]]]]; simpl in Hlen;
        (split; [intros [parts Hp]; try discriminate; lia | intros Hc; try lia]).
      eauto.
  - intros catalog schema table.
    destruct (String.eqb tableName ""); [discriminate |].
    destruct (split "." tableName) as [|a [|b [|c [|d rest]]]]; try discriminate.
    intros [= -> -> ->]. split.
    + rewrite <- Hjoin. reflexivity.
    + apply (accepts_allowed_word "DESCRIBE"); [simpl; auto |].
      apply (beginsWithWord_literal "DESCRIBE"). reflexivity.
Qed.

End Names.

End ControllerFacts.

Module ForecastMoreFacts.
Import JS Forecast JSFacts ForecastFacts.
Local Open Scope Z_scope.

Lemma length_setIndex_in (row : list jsval) (i : Z) (v : jsval) :
  (Z.to_nat i < length row)%nat -> length (setIndex row i v) = length row.
Proof.
  intros Hlt. unfold setIndex. destruct (i <? 0); [reflexivity |].
  destruct (Nat.ltb_spec (Z.to_nat i) (length row)); [| lia].
  apply length_insert.
Qed.

Lemma Forall_updateLast {A : Type} (P : A -> Prop) (f : A -> A) (xs : list A) :
  (forall a, P a -> P (f a)) -> Forall P xs -> Forall P (updateLast f xs).
Proof.
  intros Hf. induction xs as [|a [|b xs] IH]; intros Hall; simpl.
  - constructor.
  - inversion Hall; subst. constructor; auto.
  - inversion Hall; subst. constructor; auto.
Qed.

Lemma length_futurePoints (s i a cx : float) (count : nat) :
  length (futurePoints s i a cx count) = count.
Proof.
  revert cx. induction count as [|count IH]; intros cx; simpl; [reflexivity |].
  now rewrite IH.
Qed.

Section Shapes.
Context `{Builtins}.

Lemma identifyColumns_range (columns : list string) (rows : list (list jsval))
    (i d m : Z) :
  0 <= i -> d = -1 \/ 0 <= d < i ->
  fst (identifyColumns i columns rows d m) = -1 \/
  0 <= fst (identifyColumns i columns rows d m) < i + Z.of_nat (length columns).
Proof.
  revert i d m. induction columns as [|c columns IH]; intros i d m Hi Hd.
  - simpl. destruct Hd; [now left | right; lia].
  - cbn [identifyColumns]. destruct (isDateLike (toLowerCase c)).
    + destruct (IH (i + 1) i m) as [E|E]; [lia | right; lia | now left |].
      right. simpl length. lia.
    + destruct (_ && _).
      * destruct (IH (i + 1) d (if m =? -1 then i else m)) as [E|E];
          [lia | destruct Hd; [now left | right; lia] | now left |].
        right. simpl length. lia.
      * destruct (IH (i + 1) d m) as [E|E];
          [lia | destruct Hd; [now left | right; lia] | now left |].
        right. simpl length. lia.
Qed.

Lemma futureRows_shape (columns : list string) (d : Z)
    (points : list (float * float)) (future : list (list jsval)) :
  0 <= d < Z.of_nat (length columns) ->
  futureRows columns d points = Return future ->
  length future = length points /\
  Forall (fun row => length row = S (length columns)) future.
Proof.
  intros Hd. revert future.
  induction points as [|[cx fv] points IH]; intros future; simpl.
  - intros [= <-]. split; [reflexivity | constructor].
  - destruct (dateISODay cx) as [day|]; [| discriminate].
    destruct (futureRows columns d points) as [rest|msg]; [| discriminate].
    intros [= <-]. destruct (IH rest eq_refl) as [Hlen Hall].
    split; [simpl; now rewrite Hlen |]. constructor; [| exact Hall].
    rewrite !length_setIndex_in; rewrite ?length_setIndex_in;
      rewrite ?length_replicate, ?length_app; simpl; lia.
Qed.

(** X28: the shape of a forecast.  When every row has one cell per column
    and [calculateForecast] returns a result, the result has the columns
    of the input followed by [Forecast], the rows of the input followed by
    one row per period, every row with one cell per column of the result,
    and the cells of the input rows are the ones that came in, in
    whatever order the engine's sort leaves the points when a date does
    not parse. *)
Theorem calculateForecast_keeps_the_table (columns : list string)
    (rows : list (list jsval)) (periods : option Z)
    (columns' : list string) (rows' : list (list jsval)) :
  Forall (fun row => length row = length columns) rows ->
  calculateForecast columns rows periods = Return (Some (columns', rows')) ->
  columns' = columns ++ ["Forecast"%string] /\
  length rows' = (length rows + Z.to_nat (default 30%Z periods))%nat /\
  Forall (fun row => length row = length columns') rows' /\
  map (firstn (length columns)) (firstn (length rows) rows') = rows.
Proof.
  intros Hrect. unfold calculateForecast.
  pose proof (identifyColumns_range columns rows 0 (-1) (-1)) as Hd.
  destruct (identifyColumns 0 columns rows (-1) (-1)) as [d m]. cbn [fst] in Hd.
  destruct (Z.eqb_spec d (-1)) as [|Hd1]; [discriminate |].
  destruct (_ || _ || _); [discriminate |].
  destruct (_ <? 2)%nat; [discriminate |].
  unfold forecastFrom.
  set (points := futurePoints _ _ _ _ _).
  destruct (futureRows columns d points) as [future|msg] eqn:F; [| discriminate].
  intros [= <- <-].
  destruct (futureRows_shape columns d points future) as [Hlen Hall];
    [destruct Hd as [|Hd]; lia | exact F |].
  unfold points in Hlen. rewrite length_futurePoints in Hlen.
  assert (Hper : Z.to_nat match periods with Some p => p | None => 30 end
                 = Z.to_nat (default 30%Z periods)) by now destruct periods.
  set (history := updateLast _ (map (fun row => row ++ [JNull]) rows)).
  assert (Hhist : length history = length rows)
    by (unfold history; now rewrite length_updateLast, length_map).
  split; [reflexivity |]. split; [| split].
  - rewrite length_app, Hhist, Hlen. now rewrite Hper.
  - apply Forall_app. split.
    + unfold history. apply Forall_updateLast.
      * intros row Hrow. rewrite length_setIndex_in; [exact Hrow |].
        rewrite Hrow, length_app. simpl. lia.
      * apply List.Forall_map. eapply List.Forall_impl; [| exact Hrect].
        intros row Hrow. cbn beta in *. rewrite !length_app. simpl. lia.
    + eapply List.Forall_impl; [| exact Hall]. intros row Hrow. cbn beta in *.
      rewrite length_app. simpl. lia.
  - rewrite <- Hhist, firstn_app, Nat.sub_diag, firstn_all. simpl firstn.
    rewrite app_nil_r. unfold history. rewrite map_updateLast.
    + rewrite map_map. rewrite <- (map_id rows) at 2. apply map_ext_in.
      intros row Hrow. rewrite List.Forall_forall in Hrect.
      rewrite <- (Hrect row Hrow). rewrite firstn_app, firstn_all, Nat.sub_diag.
      simpl. apply app_nil_r.
    + intros row' Hrow'. apply in_map_iff in Hrow' as (row & <- & Hrow).
      rewrite List.Forall_forall in Hrect. rewrite length_app. simpl length.
      replace (Z.of_nat (length columns + 1) - 1) with (Z.of_nat (length row))
        by (rewrite (Hrect row Hrow); lia).
      rewrite setIndex_appended. rewrite <- (Hrect row Hrow).
      rewrite !firstn_app, !firstn_all, Nat.sub_diag. reflexivity.
Qed.

Lemma length_predictionRow (columns : list string) (p : prediction) :
  0 <= dateColIdx columns ->
  length (predictionRow columns p) = S (length columns).
Proof.
  intros Hd. pose proof (dateColIdx_range columns Hd) as Hlt.
  unfold predictionRow.
  rewrite !length_setIndex_in; rewrite ?length_setIndex_in;
    rewrite ?length_replicate, ?length_app; simpl; lia.
Qed.

Lemma readElements_None (elements : list element) :
  readElements elements = None -> In NullElement elements.
Proof.
  induction elements as [|[|p] elements IH]; simpl; [discriminate | auto |].
  destruct (readElements elements); [discriminate | auto].
Qed.

Lemma readElements_Some (elements : list element) (predictions : list prediction) :
  readElements elements = Some predictions -> ~ In NullElement elements.
Proof.
  revert predictions.
  induction elements as [|[|p] elements IH]; simpl; intros predictions;
    [tauto | discriminate |].
  destruct (readElements elements) as [ps|]; [| discriminate].
  intros _ [Hp|Hin]; [discriminate | exact (IH ps eq_refl Hin)].
Qed.

(** X29: the forecast branch of the chat route either gives up the whole
    answer or keeps the table a table.  It ends in the [query_error]
    answer exactly when the column guard passed and [predictions] is a
    truthy value that cannot be iterated or has a [null] element.
    Otherwise, when every row of the query result has one cell per
    column, every row of the response has one cell per column of the
    response, which are the columns of the result, followed by [Forecast]
    exactly when the predictions were merged. *)
Theorem forecastResponse_keeps_the_table
    (reply : option predictionsValue) (columns : list string)
    (rows : list (list jsval)) :
  Forall (fun row => length row = length columns) rows ->
  match forecastResponse reply columns rows with
  | Table (columns', rows') =>
      Forall (fun row => length row = length columns') rows' /\
      columns' = match generateForecast reply columns rows with
                 | Some (Elements _) => columns ++ ["Forecast"%string]
                 | _ => columns
                 end /\
      generateForecast reply columns rows <> Some NotIterable /\
      (forall elements,
          generateForecast reply columns rows = Some (Elements elements) ->
          ~ In NullElement elements)
  | QueryError =>
      generateForecast reply columns rows = Some NotIterable \/
      exists elements,
        generateForecast reply columns rows = Some (Elements elements) /\
        In NullElement elements
  end.
Proof.
  intros Hrect. unfold forecastResponse.
  destruct (generateForecast reply columns rows) as [[| |elements]|] eqn:G.
  - repeat split; [exact Hrect | discriminate | discriminate].
  - now left.
  - destruct (readElements elements) as [predictions|] eqn:R;
      [| right; exists elements; split;
         [reflexivity | now apply readElements_None]].
    destruct (generateForecast_Some _ _ _ _ G) as (Hd & _ & _).
    destruct (mergeForecast columns rows predictions) as [columns' rows'] eqn:M.
    assert (Hc : columns' = columns ++ ["Forecast"%string])
      by (apply (f_equal fst) in M; exact (eq_sym M)).
    assert (Hr : rows' = snd (mergeForecast columns rows predictions))
      by now rewrite M.
    split; [| split; [exact Hc | split; [discriminate |]]].
    + rewrite Hr, Hc. clear M Hr Hc.
      unfold mergeForecast. cbn [fst snd]. rewrite fold_left_push, !length_app.
      cbn [length]. apply Forall_app. split.
      * assert (Hnew : Forall (fun row => length row = (length columns + 1)%nat)
                              (map (fun row => row ++ [JNull])
                                   (validHistoricalRows columns rows))).
        { apply List.Forall_map. unfold validHistoricalRows.
          apply List.Forall_forall. intros row Hrow.
          apply filter_In in Hrow as [Hrow _].
          rewrite List.Forall_forall in Hrect. rewrite length_app, (Hrect row Hrow).
          reflexivity. }
        destruct (0 <? length _)%nat; [| exact Hnew].
        apply Forall_updateLast; [| exact Hnew].
        intros row Hrow. rewrite length_setIndex_in; [exact Hrow |].
        rewrite Hrow. lia.
      * apply List.Forall_map. apply List.Forall_forall. intros p _.
        rewrite length_predictionRow by exact Hd. lia.
    + intros elements' [= <-]. exact (readElements_Some _ _ R).
  - repeat split; [exact Hrect | discriminate | discriminate].
Qed.

End Shapes.

(** The theorem on two rows and one prediction. *)
Lemma forecastResponse_keeps_the_table_witness :
  @forecastResponse exampleHost
    (Some (Elements [Point (Prediction (JStr "1970-01-03") (JNum 3))]))
    ["date"; "sales"]%string
    [[JStr "1970-01-01"; JNum 1]; [JStr "1970-01-02"; JNum 2]]%float
  = Table (["date"; "sales"; "Forecast"]%string,
           [[JStr "1970-01-01"; JNum 1; JNull];
            [JStr "1970-01-02"; JNum 2; JNum 2];
            [JStr "1970-01-03"; JNull; JNum 3]]%float) /\
  Forall (fun row => length row = 3%nat)
         [[JStr "1970-01-01"; JNum 1; JNull];
          [JStr "1970-01-02"; JNum 2; JNum 2];
          [JStr "1970-01-03"; JNull; JNum 3]]%float.
Proof.
  split; [vm_compute; reflexivity |].
  exact (proj1 (@forecastResponse_keeps_the_table exampleHost
                  (Some (Elements [Point (Prediction (JStr "1970-01-03") (JNum 3))]))
                  ["date"; "sales"]%string
                  [[JStr "1970-01-01"; JNum 1]; [JStr "1970-01-02"; JNum 2]]%float
                  ltac:(repeat constructor))).
Defined.

Lemma calculateForecast_keeps_the_table_witness :
  exists columns' rows',
    @calculateForecast exampleHost ["date"; "sales"]%string
      [[JStr "1970-01-01T00:00:00.000Z"; JNum 1];
       [JStr "1970-01-01T00:00:00.001Z"; JNum 2]]%float (Some 2)
    = Return (Some (columns', rows')) /\
    columns' = (["date"%string; "sales"%string] ++ ["Forecast"%string])%list /\
    length rows' = (2 + Z.to_nat (default 30%Z (Some 2%Z)))%nat /\
    Forall (fun row => length row = length columns') rows' /\
    map (firstn 2) (firstn 2 rows')
    = [[JStr "1970-01-01T00:00:00.000Z"; JNum 1];
       [JStr "1970-01-01T00:00:00.001Z"; JNum 2]]%float.
Proof.
  eexists _, _. split; [vm_compute; reflexivity |].
  apply (@calculateForecast_keeps_the_table exampleHost ["date"; "sales"]%string
           [[JStr "1970-01-01T00:00:00.000Z"; JNum 1];
            [JStr "1970-01-01T00:00:00.001Z"; JNum 2]]%float (Some 2)).
  - repeat constructor.
  - vm_compute. reflexivity.
Defined.

End ForecastMoreFacts.
